(** * Substance: selections, property annotations, copy and isolated regions

    A shallow embedding of
      - src/model/PropertyAnnotation.js  (_updateRange, isInsideOf)
      - src/dom/XNode.js                 (insertBefore)
      - src/model/copySelection.js       (copySelection and its helpers)
    and of the region-state resolver exercised by the IsolatedNode tests.

    JavaScript objects whose classes are defined in other files of the
    repository (selections, documents, the annotation index) are
    represented by what the code observes of them. *)

From Stdlib Require Import ZArith String Ascii List Bool Lia.
From stdpp Require Import gmap strings list.

Local Open Scope string_scope.
Local Open Scope list_scope.
Local Open Scope Z_scope.

(* ===================================================================== *)
(** * JavaScript outcomes *)
(* ===================================================================== *)

(** A call either returns a value or throws an [Error] with a message. *)
Inductive Result (A : Type) : Type :=
| Ok (a : A)
| Throw (msg : string).
Arguments Ok {A} a.
Arguments Throw {A} msg.

Definition bindR {A B} (r : Result A) (k : A → Result B) : Result B :=
  match r with
  | Ok a => k a
  | Throw m => Throw m
  end.

Notation "'let!' x ':=' r 'in' k" := (bindR r (fun x => k))
  (at level 10, x name, r at level 100, k at level 200).

(** What [console.warn] and [console.error] print. *)
Inductive Diagnostic : Type :=
| ConsoleWarn (msg : string)
| ConsoleError (msg : string).

(** The values a predicate method hands back: a boolean, or [undefined] when
    the function body ends without a [return]. *)
Inductive JSValue : Type :=
| JSBool (b : bool)
| JSUndefined.

(** JavaScript truthiness, as used by [if (x)] and [!x]. *)
Definition truthy (v : JSValue) : bool :=
  match v with
  | JSBool b => b
  | JSUndefined => false
  end.

(* ===================================================================== *)
(** * Coordinates, fragments and selections *)
(* ===================================================================== *)

Definition Path := list string.

Record Coordinate : Type := mkCoordinate {
  path : Path;
  offset : Z
}.

(** A fragment of a container selection: [type] is ['node-fragment'] or
    ['selection-fragment']; [fpath[0]] is the owning node. *)
Inductive FragmentType : Type := NodeFragment | SelectionFragment.

Record Fragment : Type := mkFragment {
  ftype : FragmentType;
  fpath : Path;
  startOffset : Z;
  endOffset : Z
}.

(** A selection object, as the code sees it: the results of its predicate
    methods and of the accessors that are read.  The code never looks at the
    class of a selection, only at these. *)
Record Selection : Type := mkSelection {
  isNull : bool;
  isCollapsed : bool;
  isPropertySelection : bool;
  isContainerSelection : bool;
  isNodeSelection : bool;
  start : Coordinate;
  end_ : Coordinate;
  getFragments : list Fragment;
  getNodeId : string;
  isFull : bool;
  surfaceId : string
}.

Definition origin : Coordinate := mkCoordinate [] 0.

(** Modelled from the spec: the selection classes are not among the
    sources.  These are the selection objects of the four kinds of the data
    model (a range whose start equals its end is collapsed; a node selection
    is not collapsed in mode full), and one of a kind the copy engine does
    not know. *)
Definition nullSelection : Selection :=
  mkSelection true true false false false origin origin [] "" false "".

Definition propertySelection (p : Path) (s e : Z) (surface : string) : Selection :=
  mkSelection false (s =? e) true false false
              (mkCoordinate p s) (mkCoordinate p e) [] "" false surface.

Definition containerSelection (st en : Coordinate) (frags : list Fragment)
    (surface : string) : Selection :=
  mkSelection false (bool_decide (path st = path en) && (offset st =? offset en))
              false true false st en frags "" false surface.

Definition nodeSelection (nodeId : string) (full : bool) (surface : string) : Selection :=
  mkSelection false (negb full) false false true origin origin [] nodeId full surface.

Definition customSelection (collapsed : bool) (surface : string) : Selection :=
  mkSelection false collapsed false false false origin origin [] "" false surface.

(* ===================================================================== *)
(** * util/isArrayEqual *)
(* ===================================================================== *)

(** Modelled from the spec: util/isArrayEqual is imported by
    PropertyAnnotation.js but is not among the sources; the spec describes
    it as an element-wise array comparison. *)
Fixpoint isArrayEqual (a b : list string) : bool :=
  match a, b with
  | [], [] => true
  | x :: a', y :: b' => String.eqb x y && isArrayEqual a' b'
  | _, _ => false
  end.

(* ===================================================================== *)
(** * src/model/PropertyAnnotation.js *)
(* ===================================================================== *)

Module PropertyAnnotation.

(** The fields of a property annotation; [adata] is whatever else its
    JSON carries. *)
Record t : Type := mk {
  id : string;
  type : string;
  astart : Coordinate;
  aend : Coordinate;
  adata : list (string * string)
}.

(** [get path()] *)
Definition path_of (this : t) : Path := path (astart this).

(** A value handed to [tx.set]. *)
Inductive TxValue : Type :=
| TxPath (p : Path)
| TxNumber (n : Z).

(** One call [tx.set(path, value)]. *)
Record TxSet : Type := mkSet {
  target : Path;
  value : TxValue
}.

(** [_updateRange(tx, sel)]: the transaction is the list of [set] calls it
    has recorded, oldest first. *)
Definition _updateRange (this : t) (tx : list TxSet) (sel : Selection)
    : Result (list TxSet) :=
  if negb (isPropertySelection sel) then
    Throw "Invalid argument: PropertyAnnotation._updateRange() requires a PropertySelection."
  else
    let tx1 :=
      if negb (isArrayEqual (path (astart this)) (path (start sel)))
      then tx ++ [mkSet [id this; "path"] (TxPath (path (start sel)))]
      else tx in
    let tx2 :=
      if negb (offset (astart this) =? offset (start sel))
      then tx1 ++ [mkSet [id this; "start"; "offset"] (TxNumber (offset (start sel)))]
      else tx1 in
    let tx3 :=
      if negb (offset (aend this) =? offset (end_ sel))
      then tx2 ++ [mkSet [id this; "end"; "offset"] (TxNumber (offset (end_ sel)))]
      else tx2 in
    Ok tx3.

(** [isInsideOf(sel, _strict)]: the returned value and what was printed on
    the console. *)
Definition isInsideOf (this : t) (sel : Selection) (_strict : bool)
    : JSValue * list Diagnostic :=
  if isNull sel then (JSBool false, [])
  else if isPropertySelection sel then
    if _strict then
      (JSBool (isArrayEqual (path (astart this)) (path (start sel))
               && (offset (astart this) >? offset (start sel))
               && (offset (aend this) <? offset (end_ sel))), [])
    else
      (JSBool (isArrayEqual (path (astart this)) (path (start sel))
               && (offset (astart this) >=? offset (start sel))
               && (offset (aend this) <=? offset (end_ sel))), [])
  else
    (JSUndefined,
     [ConsoleWarn "PropertyAnnotation.isInsideOf() does not support other selection types."]).

(** The write [_updateRange] owes each component: none when the component
    is unchanged. *)
Definition pathWrite (this : t) (sel : Selection) : list TxSet :=
  if decide (path (astart this) = path (start sel)) then []
  else [mkSet [id this; "path"] (TxPath (path (start sel)))].

Definition startWrite (this : t) (sel : Selection) : list TxSet :=
  if decide (offset (astart this) = offset (start sel)) then []
  else [mkSet [id this; "start"; "offset"] (TxNumber (offset (start sel)))].

Definition endWrite (this : t) (sel : Selection) : list TxSet :=
  if decide (offset (aend this) = offset (end_ sel)) then []
  else [mkSet [id this; "end"; "offset"] (TxNumber (offset (end_ sel)))].

(** The annotation lies inside the selection: same path, and offsets
    within those of the selection, strictly or not. *)
Definition inside (this : t) (sel : Selection) (strict : bool) : Prop :=
  path (astart this) = path (start sel)
  ∧ if strict
    then offset (start sel) < offset (astart this) ∧ offset (aend this) < offset (end_ sel)
    else offset (start sel) <= offset (astart this) ∧ offset (aend this) <= offset (end_ sel).

End PropertyAnnotation.

(* ===================================================================== *)
(** * src/dom/XNode.js *)
(* ===================================================================== *)

Module XNode.

(** Nodes are objects compared by identity ([indexOf] uses [===]); a
    reference names an object of the heap. *)
Definition Ref := nat.

Record t : Type := mk {
  type : string;
  ownerDocument : option Ref;
  name : option string;
  data : option string;
  format : option string;
  children : option (list Ref);   (* [None]: the field is undefined *)
  parent : option Ref;
  prev : option Ref;
  next : option Ref
}.

Definition Heap := gmap Ref t.

Definition undefinedNode : t :=
  mk "" None None None None None None None None.

#[export] Instance t_inhabited : Inhabited t := populate undefinedNode.

(** The element types of the vendored parser, as used in the [switch] of
    the constructor. *)
Module ElementType.
Definition Text := "text".
Definition Directive := "directive".
Definition Comment := "comment".
Definition CDATA := "cdata".
Definition Tag := "tag".
End ElementType.

(** The arguments object of the constructor. *)
Record Args : Type := mkArgs {
  args_ownerDocument : option Ref;
  args_name : option string;
  args_data : option string;
  args_format : option string;
  args_children : option (list Ref)
}.

(** A string is falsy iff it is undefined or empty. *)
Definition falsyStr (s : option string) : bool :=
  match s with
  | None => true
  | Some s => String.eqb s ""
  end.

(** [x || []] on an array that may be undefined. *)
Definition orEmpty (c : option (list Ref)) : list Ref :=
  match c with Some l => l | None => [] end.

(** [constructor(type, args)], as far as it decides which fields exist. *)
Definition new_XNode (type : string) (args : Args) : Result t :=
  if String.eqb type "" then Throw "'type' is mandatory"
  else if negb (String.eqb type "document")
          && negb (bool_decide (is_Some (args_ownerDocument args)))
  then Throw "'ownerDocument' is mandatory"
  else
    if String.eqb type ElementType.Tag then
      if falsyStr (args_name args) then Throw "'name' is mandatory."
      else Ok (mk type (args_ownerDocument args) (args_name args) None None
                  (Some (orEmpty (args_children args))) None None None)
    else if String.eqb type ElementType.Text || String.eqb type ElementType.Comment
            || String.eqb type ElementType.CDATA then
      Ok (mk type (args_ownerDocument args) None
             (Some (match args_data args with Some d => d | None => "" end))
             None None None None None)
    else if String.eqb type ElementType.Directive then
      Ok (mk type (args_ownerDocument args) (args_name args) (args_data args)
             None None None None None)
    else if String.eqb type "document" then
      match args_format args with
      | Some f =>
          if String.eqb f "" then Throw "'format' is mandatory."
          else if String.eqb f "xml" || String.eqb f "html" then
            Ok (mk type (args_ownerDocument args) None None (Some f)
                   (Some (orEmpty (args_children args))) None None None)
          else Throw ("Unsupported format " +:+ f)
      | None => Throw "'format' is mandatory."
      end
    else
      Ok (mk type (args_ownerDocument args) None None None
             (Some (orEmpty (args_children args))) None None None).

(** [Array.prototype.indexOf]: the first position, or [-1]. *)
Fixpoint indexOf (l : list Ref) (x : Ref) : Z :=
  match l with
  | [] => -1
  | y :: l' =>
      if Nat.eqb y x then 0
      else let i := indexOf l' x in if i =? -1 then -1 else i + 1
  end.

(** [getOwnerDocument()] of the node at [this]. *)
Definition getOwnerDocument (h : Heap) (this : Ref) : option Ref :=
  if String.eqb (type (h !!! this)) "document" then Some this
  else ownerDocument (h !!! this).

Definition set_ownerDocument (d : option Ref) (n : t) : t :=
  mk (type n) d (name n) (data n) (format n) (children n) (parent n) (prev n) (next n).

Section InsertBefore.

(** [DomUtils.prepend(elem, prev)] of the vendored DOM utilities: it
    links [prev] in front of [elem].  The vendored code is not part of
    the sources; it is a parameter. *)
Variable DomUtils_prepend : Heap → Ref → Ref → Heap.

(** [_onAttach(child) {}] *)
Definition _onAttach (h : Heap) (this child : Ref) : Heap := h.

(** [insertBefore(newChild, before)]; it returns [this], so the outcome
    is the heap it leaves behind. *)
Definition insertBefore (h : Heap) (this newChild before : Ref) : Result Heap :=
  match children (h !!! this) with
  | Some cs =>
      let pos := indexOf cs before in
      let! h1 :=
        (if pos >? -1 then
           let h' := DomUtils_prepend h before newChild in
           Ok (alter (set_ownerDocument (getOwnerDocument h' this)) newChild h')
         else
           Throw "insertBefore(): reference node is not a child of this element.") in
      Ok (_onAttach h1 this newChild)
  | None => Ok h
  end.

End InsertBefore.

End XNode.

(* ===================================================================== *)
(** * Strings as JavaScript sees them *)
(* ===================================================================== *)

Definition chars (s : string) : list ascii := list_ascii_of_string s.
Definition str (l : list ascii) : string := string_of_list_ascii l.

(** [s.length] *)
Definition strlen (s : string) : Z := Z.of_nat (length (chars s)).

(** Clamp an index into [0 .. s.length]. *)
Definition clampIndex (s : string) (i : Z) : Z := Z.max 0 (Z.min i (strlen s)).

(** [s.substring(a, b)]: both indices are clamped into the string and
    swapped when they come in the wrong order. *)
Definition substring (s : string) (a b : Z) : string :=
  let a' := clampIndex s a in
  let b' := clampIndex s b in
  let lo := Z.min a' b' in
  let hi := Z.max a' b' in
  str (take (Z.to_nat (hi - lo)) (drop (Z.to_nat lo) (chars s))).

(* ===================================================================== *)
(** * The document collaborator *)
(* ===================================================================== *)

Module Document.

(** A property descriptor of a node schema: [name], [type], and the
    results of [isArray()], [isReference()] and the [owner] flag. *)
Record Property : Type := mkProperty {
  pname : string;
  ptype : string;
  isArray : bool;
  isReference : bool;
  owner : bool
}.

(** The value of a node property. *)
Inductive Value : Type :=
| VString (s : string)          (* a text, or the id of a referenced node *)
| VArray (ids : list string)    (* an array of ids *)
| VUndefined.

(** What a node holds besides its id.  An annotation has the two
    coordinates of PropertyAnnotation.define; any other node has its
    properties by name. *)
Inductive Node : Type :=
| Plain (type : string) (fields : list (string * Value))
| Anno (type : string) (astart aend : Coordinate) (adata : list (string * string)).

(** [node.toJSON()]: the id with the data of the node. *)
Definition NodeData : Type := string * Node.

Record Schema : Type := mkSchema {
  getDefaultTextType : string;
  nodeSchemas : gmap string (list Property)
}.

(** A document: its nodes by id, the ids its container shows (in order),
    and its schema. *)
Record t : Type := mkDoc {
  nodes : gmap string Node;
  container : list string;
  schema : Schema
}.

(** Modelled from the spec: [Document.TEXT_SNIPPET_ID], the id the text
    node of a snippet gets; Document is not among the sources, and no proof
    below depends on the value. *)
Definition TEXT_SNIPPET_ID : string := "text-snippet".

(** The schema PropertyAnnotation.define gives every property annotation
    (its type is ["annotation"]): no property of it is a reference. *)
Definition annotationSchema : list Property :=
  [ mkProperty "start" "coordinate" false false false;
    mkProperty "end" "coordinate" false false false;
    mkProperty "_content" "string" false false false ].

(** Modelled from the spec: [node.getSchema()], the ordered property
    descriptors of the node; the node classes are not among the sources. *)
Definition getSchema (doc : t) (n : Node) : list Property :=
  match n with
  | Plain ty _ => default [] (nodeSchemas (schema doc) !! ty)
  | Anno _ _ _ _ => annotationSchema
  end.

Fixpoint assoc (k : string) (l : list (string * Value)) : Value :=
  match l with
  | [] => VUndefined
  | (k', v) :: l' => if String.eqb k k' then v else assoc k l'
  end.

(** [node[name]] *)
Definition field (n : Node) (name : string) : Value :=
  match n with
  | Plain _ fs => assoc name fs
  | Anno _ _ _ _ => VUndefined
  end.

(** Modelled from the spec: [doc.get(id)], the node with this id;
    Document is not among the sources. *)
Definition get (doc : t) (id : string) : option Node := nodes doc !! id.

(** Modelled from the spec: [doc.get(path)], the value of the property
    [[id, name]]; Document is not among the sources. *)
Definition getProperty (doc : t) (p : Path) : Value :=
  match p with
  | [id; name] =>
      match get doc id with
      | Some n => field n name
      | None => VUndefined
      end
  | _ => VUndefined
  end.

(** Modelled from the spec: Document.createSnippet is not among the
    sources; it gives a new empty document with a container, over the
    same schema. *)
Definition createSnippet (doc : t) : t := mkDoc ∅ [] (schema doc).

(** Modelled from the spec: Document.create is not among the sources.
    A document holds one node per id, so a second node with an id already
    present is refused. *)
Definition create (doc : t) (d : NodeData) : Result t :=
  match nodes doc !! d.1 with
  | Some _ => Throw "Node already exists"
  | None => Ok (mkDoc (<[d.1 := d.2]> (nodes doc)) (container doc) (schema doc))
  end.

(** Modelled from the spec: [container.show(id)] registers the node as
    visible in the container, behind those already shown; the container
    class is not among the sources. *)
Definition show (doc : t) (id : string) : t :=
  mkDoc (nodes doc) (container doc ++ [id]) (schema doc).

Fixpoint setAssoc (k : string) (v : Value) (l : list (string * Value))
    : list (string * Value) :=
  match l with
  | [] => [(k, v)]
  | (k', v') :: l' =>
      if String.eqb k k' then (k, v) :: l' else (k', v') :: setAssoc k v l'
  end.

(** Deleting the characters at positions [[a, b)] of a text. *)
Definition deleteRange (s : string) (a b : Z) : string :=
  str (take (Z.to_nat a) (chars s) ++ drop (Z.to_nat (Z.max a b)) (chars s)).

(** Modelled from the spec: Document.update is not among the sources.
    [update(path, { type: 'delete', start, end })] deletes the range from
    the text property at [path]; there must be a text there. *)
Definition update_delete (doc : t) (p : Path) (a b : Z) : Result t :=
  match p with
  | [id; name] =>
      match nodes doc !! id with
      | Some (Plain ty fs) =>
          match assoc name fs with
          | VString s =>
              Ok (mkDoc (<[id := Plain ty (setAssoc name (VString (deleteRange s a b)) fs)]>
                           (nodes doc))
                        (container doc) (schema doc))
          | _ => Throw "TypeError"
          end
      | _ => Throw "TypeError"
      end
  | _ => Throw "TypeError"
  end.

End Document.

(* ===================================================================== *)
(** * The annotation index *)
(* ===================================================================== *)

Module AnnotationIndex.
Import Document.

(** The annotation object stored under [id], if the node is one. *)
Definition asAnnotation (d : NodeData) : option PropertyAnnotation.t :=
  match d.2 with
  | Anno ty s e extra => Some (PropertyAnnotation.mk d.1 ty s e extra)
  | Plain _ _ => None
  end.

(** [anno.toJSON()] *)
Definition toJSON (a : PropertyAnnotation.t) : NodeData :=
  (PropertyAnnotation.id a,
   Anno (PropertyAnnotation.type a) (PropertyAnnotation.astart a)
        (PropertyAnnotation.aend a) (PropertyAnnotation.adata a)).

(** All annotations of a document. *)
Definition all (doc : t) : list PropertyAnnotation.t :=
  omap asAnnotation (map_to_list (nodes doc)).

Definition onPath (p : Path) (a : PropertyAnnotation.t) : bool :=
  isArrayEqual (PropertyAnnotation.path_of a) p.

(** Modelled from the spec: the overlap test of the index, which is not
    among the sources.  An annotation overlaps the window [[s, e)] iff it
    starts before [e] and ends after [s]; on a collapsed window every
    annotation covering that offset counts. *)
Definition overlaps (s e : Z) (a : PropertyAnnotation.t) : bool :=
  let a0 := offset (PropertyAnnotation.astart a) in
  let a1 := offset (PropertyAnnotation.aend a) in
  if s =? e then (a0 <=? s) && (s <=? a1)
  else (a0 <? e) && (a1 >? s).

(** Modelled from the spec: [get(path)], all annotations on that path. *)
Definition get (doc : t) (p : Path) : list PropertyAnnotation.t :=
  List.filter (onPath p) (all doc).

(** Modelled from the spec: [get(path, start, end)], the annotations on
    that path overlapping the window. *)
Definition getRange (doc : t) (p : Path) (s e : Z) : list PropertyAnnotation.t :=
  List.filter (overlaps s e) (get doc p).

(** Modelled from the spec: [get([nodeId])], all annotations whose path
    begins with [nodeId]. *)
Definition getNode (doc : t) (nodeId : string) : list PropertyAnnotation.t :=
  List.filter
    (fun a => match PropertyAnnotation.path_of a with
              | x :: _ => String.eqb x nodeId
              | [] => false
              end)
    (all doc).

End AnnotationIndex.

(* ===================================================================== *)
(** * annotationHelpers.deletedText *)
(* ===================================================================== *)

Module annotationHelpers.
Import Document.

(** Where an offset lands once the characters [[a, b)] are gone. *)
Definition shifted (a b off : Z) : Z :=
  if off <=? a then off
  else if b <=? off then off - (b - a)
  else a.

(** Modelled from the spec: annotationHelpers is not among the sources.
    The deletion of [[a, b)] on the text at [p] is propagated to every
    annotation on [p]: both offsets follow the text, and an annotation
    whose whole text was deleted goes with it. *)
Definition deletedText (doc : t) (p : Path) (a b : Z) : t :=
  mkDoc
    (omap (fun n =>
             match n with
             | Anno ty s e extra =>
                 if isArrayEqual (path s) p then
                   let s' := shifted a b (offset s) in
                   let e' := shifted a b (offset e) in
                   if negb (offset s =? offset e) && (s' =? e') then None
                   else Some (Anno ty (mkCoordinate (path s) s')
                                   (mkCoordinate (path e) e') extra)
                 else Some n
             | Plain _ _ => Some n
             end)
          (nodes doc))
    (container doc) (schema doc).

End annotationHelpers.

(* ===================================================================== *)
(** * src/model/copySelection.js *)
(* ===================================================================== *)

Module Copy.
Import Document.

(** What a call of the copy engine can touch: the source document it was
    handed, the number of snippets created so far, and the console. *)
Record World : Type := mkWorld {
  document : Document.t;
  snippetsCreated : nat;
  console : list Diagnostic
}.

(** A computation returns or throws and leaves a world behind; [None]
    means that the recursion of [_copyNode] went deeper than the budget
    it was given. *)
Definition M (A : Type) : Type := World → option (Result A * World).

Definition ret {A} (a : A) : M A := fun w => Some (Ok a, w).

Definition throw {A} (msg : string) : M A := fun w => Some (Throw msg, w).

Definition bind {A B} (m : M A) (k : A → M B) : M B :=
  fun w =>
    match m w with
    | Some (Ok a, w') => k a w'
    | Some (Throw e, w') => Some (Throw e, w')
    | None => None
    end.

Notation "'do' x ':=' m 'in' k" := (bind m (fun x => k))
  (at level 10, x name, m at level 100, k at level 200).

Definition liftR {A} (r : Result A) : M A := fun w => Some (r, w).

Definition liftO {A} (o : option (Result A)) : M A :=
  fun w => match o with Some r => Some (r, w) | None => None end.

(** The [doc] argument. *)
Definition theDocument : M Document.t := fun w => Some (Ok (document w), w).

(** [doc.createSnippet()] *)
Definition createSnippet : M Document.t :=
  fun w => Some (Ok (Document.createSnippet (document w)),
                 mkWorld (document w) (S (snippetsCreated w)) (console w)).

(** [console.error(msg)] *)
Definition console_error (msg : string) : M unit :=
  fun w => Some (Ok tt, mkWorld (document w) (snippetsCreated w)
                                (console w ++ [ConsoleError msg])).

(** A loop whose body may throw. *)
Fixpoint forEachR {A S} (f : S → A → Result S) (l : list A) (s : S) : Result S :=
  match l with
  | [] => Ok s
  | x :: l' => let! s' := f s x in forEachR f l' s'
  end.

(** A loop whose body may throw or exceed the recursion budget. *)
Fixpoint forEachO {A S} (f : S → A → option (Result S)) (l : list A) (s : S)
    : option (Result S) :=
  match l with
  | [] => Some (Ok s)
  | x :: l' =>
      match f s x with
      | Some (Ok s') => forEachO f l' s'
      | other => other
      end
  end.

Definition typeError {A} : Result A := Throw "TypeError".

(** [(prop.isReference() && prop.owner) || (prop.type === 'file')] *)
Definition cascades (prop : Property) : bool :=
  (isReference prop && owner prop) || String.eqb (ptype prop) "file".

(** The ids a cascading property hands to [doc.get]: the elements of an
    array property, the single id otherwise. *)
Definition referenced (prop : Property) (val : Value) : Result (list string) :=
  if isArray prop then
    match val with
    | VArray ids => Ok ids
    | _ => typeError
    end
  else
    match val with
    | VString id => Ok [id]
    | _ => typeError
    end.

(** [doc.get(id)] as a node object, which knows its id. *)
Definition getNode (doc : Document.t) (id : string) : option NodeData :=
  match Document.get doc id with
  | Some n => Some (id, n)
  | None => None
  end.

(** The [forEach] over the schema in [_copyNode]: every cascading
    property has its referenced nodes copied, through [copy], in front of
    the node itself. *)
Definition cascade (copy : option NodeData → option (Result (list NodeData)))
    (doc : Document.t) (n : Node) : option (Result (list NodeData)) :=
  forEachO
    (fun nodes prop =>
       (* ATM we do a cascaded copy if the property has type 'id',
          ['array', 'id'], or 'file' *)
       if cascades prop then
         match referenced prop (field n (pname prop)) with
         | Ok ids =>
             forEachO
               (fun nodes id' =>
                  match copy (getNode doc id') with
                  | Some (Ok sub) => Some (Ok (nodes ++ sub))
                  | other => other
                  end)
               ids nodes
         | Throw e => Some (Throw e)
         end
       else Some (Ok nodes))
    (getSchema doc n) [].

(** [_copyNode(node)].  [fuel] bounds the depth of the recursion; [node]
    is [None] when the caller's [doc.get] found nothing. *)
Fixpoint _copyNode (fuel : nat) (doc : Document.t) (node : option NodeData)
    : option (Result (list NodeData)) :=
  match fuel with
  | O => None
  | S fuel' =>
      match node with
      | None => Some typeError
      | Some (id, n) =>
          match cascade (_copyNode fuel' doc) doc n with
          | Some (Ok nodes) =>
              Some (Ok (nodes ++ [(id, n)]
                        ++ map AnnotationIndex.toJSON (AnnotationIndex.getNode doc id)))
          | other => other
          end
      end
  end.

(** The ids of the nodes a node owns: what its cascading properties
    refer to. *)
Definition ownedIds (doc : Document.t) (n : Node) : list string :=
  flat_map
    (fun prop =>
       if cascades prop then
         match referenced prop (field n (pname prop)) with
         | Ok ids => ids
         | Throw _ => []
         end
       else [])
    (getSchema doc n).

(** [owns doc a c]: the node [a] of the document has an owning reference
    to [c]. *)
Definition owns (doc : Document.t) (a c : string) : Prop :=
  ∃ n, Document.get doc a = Some n ∧ In c (ownedIds doc n).

(** The owning references below [a] form a tree: every chain of owned
    nodes starting at [a] ends. *)
Inductive ownershipTree (doc : Document.t) : string → Prop :=
| ownershipTree_intro (a : string) :
    (∀ c, owns doc a c → ownershipTree doc c) → ownershipTree doc a.

(** [ownsPlus doc a c]: a chain of one or more owning references leads
    from [a] to [c].  With [c = a] the owning references contain a cycle
    through [a]. *)
Inductive ownsPlus (doc : Document.t) : string → string → Prop :=
| ownsPlus_one a c : owns doc a c → ownsPlus doc a c
| ownsPlus_step a b c : owns doc a b → ownsPlus doc b c → ownsPlus doc a c.

(** No owning reference of the document dangles or is ill-typed. *)
Definition wellLinked (doc : Document.t) : Prop :=
  ∀ a n prop,
    Document.get doc a = Some n → In prop (getSchema doc n) → cascades prop = true →
    ∃ ids, referenced prop (field n (pname prop)) = Ok ids
           ∧ ∀ c, In c ids → is_Some (Document.get doc c).

(** The body of the [forEach] in [_copyPropertySelection]. *)
Definition clipped (offset_ endOffset : Z) (anno : PropertyAnnotation.t) : NodeData :=
  let path := [TEXT_SNIPPET_ID; "content"] in
  (PropertyAnnotation.id anno,
   Anno (PropertyAnnotation.type anno)
        (mkCoordinate path
           (Z.max offset_ (offset (PropertyAnnotation.astart anno)) - offset_))
        (mkCoordinate path
           (Z.min endOffset (offset (PropertyAnnotation.aend anno)) - offset_))
        (PropertyAnnotation.adata anno)).

Definition _copyPropertySelection (selection : Selection) : M Document.t :=
  do doc := theDocument in
  let path := path (start selection) in
  let offset_ := offset (start selection) in
  let endOffset := offset (end_ selection) in
  let text := getProperty doc path in
  do snippet := createSnippet in
  do content := liftR (match text with
                       | VString s => Ok (substring s offset_ endOffset)
                       | _ => typeError
                       end) in
  do snippet := liftR (create snippet
                         (TEXT_SNIPPET_ID,
                          Plain (getDefaultTextType (schema doc))
                                [("content", VString content)])) in
  let snippet := show snippet TEXT_SNIPPET_ID in
  let annotations := AnnotationIndex.getRange doc path offset_ endOffset in
  do snippet := liftR (forEachR (fun snippet anno =>
                                   create snippet (clipped offset_ endOffset anno))
                                annotations snippet) in
  ret snippet.

(** The body of the loops over [_copyNode(node)]: create the node in the
    snippet and remember its id. *)
Definition createAll (created : gset string) (snippet : Document.t)
    (datas : list NodeData) : Result (Document.t * gset string) :=
  forEachR (fun (st : Document.t * gset string) (nodeData : NodeData) =>
              let! copy := create st.1 nodeData in
              Ok (copy, {[ nodeData.1 ]} ∪ st.2))
           datas (snippet, created).

(** [text.length] of what [doc.get(path)] returned. *)
Definition lengthOf (v : Value) : Result Z :=
  match v with
  | VString s => Ok (strlen s)
  | VArray ids => Ok (Z.of_nat (length ids))
  | VUndefined => typeError
  end.

Definition isSelectionFragment (f : Fragment) : bool :=
  match ftype f with
  | SelectionFragment => true
  | NodeFragment => false
  end.

(** The owners of the fragments ([fragment.path[0]]), in the order of the
    fragments. *)
Definition owners (fragments : list Fragment) : list string :=
  omap (fun f => head (fpath f)) fragments.

(** The body of the loop over the fragments: copy the owning node unless
    it was created already, and show it in the container. *)
Definition copyFragment (fuel : nat) (doc : Document.t)
    (st : Document.t * gset string) (fragment : Fragment)
    : option (Result (Document.t * gset string)) :=
  match head (fpath fragment) with
  | Some nodeId =>
      let node := getNode doc nodeId in
      (* skip created nodes *)
      if bool_decide (nodeId ∈ st.2) then Some (Ok st)
      else
        match _copyNode fuel doc node with
        | Some (Ok datas) =>
            Some (let! r := createAll st.2 st.1 datas in
                  Ok (show r.1 nodeId, r.2))
        | Some (Throw e) => Some (Throw e)
        | None => None
        end
  | None =>
      (* [fragment.path[0]] is undefined: [doc.get] finds no node and
         [_copyNode] throws on it *)
      Some typeError
  end.

(** [if (firstFragment.type === 'selection-fragment') { ... }]: if first
    is a text node, remove part before the selection. *)
Definition trimFirst (firstFragment : Fragment) (snippet : Document.t)
    : Result Document.t :=
  if isSelectionFragment firstFragment then
    let path := fpath firstFragment in
    let offset_ := startOffset firstFragment in
    let! snippet := update_delete snippet path 0 offset_ in
    Ok (annotationHelpers.deletedText snippet path 0 offset_)
  else Ok snippet.

(** [if (lastFragment.type === 'selection-fragment') { ... }]: if last is
    a text node, remove part after the selection; [text] is read from the
    source document. *)
Definition trimLast (doc : Document.t) (lastFragment : Fragment)
    (snippet : Document.t) : Result Document.t :=
  if isSelectionFragment lastFragment then
    let path := fpath lastFragment in
    let offset_ := endOffset lastFragment in
    let text := getProperty doc path in
    let! len := lengthOf text in
    let! snippet := update_delete snippet path offset_ len in
    Ok (annotationHelpers.deletedText snippet path offset_ len)
  else Ok snippet.

Definition _copyContainerSelection (fuel : nat) (selection : Selection)
    : M Document.t :=
  do doc := theDocument in
  do snippet := createSnippet in
  let fragments := getFragments selection in
  match fragments with
  | [] => ret snippet
  | firstFragment :: _ =>
      (* copy nodes and annotations *)
      do copied :=
        liftO (forEachO (copyFragment fuel doc) fragments
                        (snippet, (∅ : gset string))) in
      let snippet := copied.1 in
      let lastFragment := List.last fragments firstFragment in
      do snippet := liftR (trimFirst firstFragment snippet) in
      do snippet := liftR (trimLast doc lastFragment snippet) in
      ret snippet
  end.

Definition _copyNodeSelection (fuel : nat) (selection : Selection) : M Document.t :=
  do doc := theDocument in
  do snippet := createSnippet in
  let nodeId := getNodeId selection in
  let node := getNode doc nodeId in
  do datas := liftO (_copyNode fuel doc node) in
  do snippet := liftR (forEachR create datas snippet) in
  ret (show snippet nodeId).

(** [copySelection(doc, selection)]; [selection] is [None] when the
    argument is missing.  The result is the snippet, or [None] for the
    JavaScript [null]. *)
Definition copySelection (fuel : nat) (selection : option Selection)
    : M (option Document.t) :=
  match selection with
  | None => throw "'selection' is mandatory."
  | Some selection =>
      if negb (isNull selection) && negb (isCollapsed selection) then
        (* return a simplified version if only a piece of text is selected *)
        if isPropertySelection selection then
          do copy := _copyPropertySelection selection in ret (Some copy)
        else if isContainerSelection selection then
          do copy := _copyContainerSelection fuel selection in ret (Some copy)
        else if isNodeSelection selection then
          do copy := _copyNodeSelection fuel selection in ret (Some copy)
        else
          do _u := console_error "Copy is not yet supported for selection type." in
          ret None
      else ret None
  end.

(** What the loop of [_copyPropertySelection] adds to the nodes of the
    snippet for one annotation. *)
Definition insertClipped (s e : Z) (m : gmap string Node) (a : PropertyAnnotation.t)
    : gmap string Node :=
  <[PropertyAnnotation.id a := (clipped s e a).2]> m.

End Copy.

(* ===================================================================== *)
(** * The isolated-region state resolver *)
(* ===================================================================== *)

Module IsolatedNode.

(** The display mode of a region; [NotSelected] is the mode the tests see
    as [undefined]. *)
Inductive Mode : Type :=
| NotSelected
| Selected
| CoSelected
| Focused
| CoFocused.

(** [id.split('/')] *)
Fixpoint split (sep : ascii) (s : string) : list string :=
  match s with
  | EmptyString => [""]
  | String c s' =>
      if Ascii.eqb c sep then "" :: split sep s'
      else
        match split sep s' with
        | tok :: rest => String c tok :: rest
        | [] => [String c ""]
        end
  end.

Definition tokenize (regionPath : string) : list string := split "/"%char regionPath.

(** [a] is a prefix of [b], token by token. *)
Fixpoint isTokenPrefix (a b : list string) : bool :=
  match a, b with
  | [], _ => true
  | x :: a', y :: b' => String.eqb x y && isTokenPrefix a' b'
  | _ :: _, [] => false
  end.

(** The node ids a container selection covers: the owners of its
    fragments. *)
Definition coveredNodeIds (sel : Selection) : list string :=
  Copy.owners (getFragments sel).

Definition memberStr (x : string) (l : list string) : bool :=
  existsb (String.eqb x) l.

(** Modelled from the spec: the component that derives the state of an
    isolated node is not among the sources, only its tests are.  A region
    is focused iff the surface owning the selection is the region itself
    or a leaf surface directly inside it (one more token). *)
Definition isFocused (region surface : list string) : bool :=
  isArrayEqual region surface
  || (isTokenPrefix region surface
      && (length surface =? S (length region))%nat).

(** Modelled from the spec: a region is co-focused iff its tokens are a
    strict prefix of the tokens of the owning surface and it is not
    focused. *)
Definition isCoFocused (region surface : list string) : bool :=
  isTokenPrefix region surface
  && (length region <? length surface)%nat
  && negb (isFocused region surface).

(** Modelled from the spec: a node selection in mode full whose target
    is exactly this region, the node [nodeId] on the surface owning the
    selection. *)
Definition isSelected (sel : Selection) (region surface : list string) : bool :=
  isNodeSelection sel && isFull sel
  && isArrayEqual region (surface ++ [getNodeId sel]).

(** Modelled from the spec: a container selection covering the node of
    this region, the region not being the one that owns the selection. *)
Definition isCoSelected (sel : Selection) (region surface : list string) : bool :=
  isContainerSelection sel
  && match List.last (map Some region) None with
     | Some nodeId => memberStr nodeId (coveredNodeIds sel)
     | None => false
     end
  && negb (isFocused region surface).

(** Modelled from the spec: the decision procedure, once per region and
    selection. *)
Definition getMode (sel : Selection) (regionPath : string) : Mode :=
  if isNull sel
     || negb (isPropertySelection sel || isContainerSelection sel
              || isNodeSelection sel)
  then NotSelected
  else
    let surface := tokenize (surfaceId sel) in
    let region := tokenize regionPath in
    if isFocused region surface then Focused
    else if isCoFocused region surface then CoFocused
    else if isSelected sel region surface then Selected
    else if isCoSelected sel region surface then CoSelected
    else NotSelected.

(** Modelled from the spec: the resolver gives every region of the render
    tree its mode; it needs the region paths only. *)
Definition resolve (sel : Selection) (regions : list string) : list (string * Mode) :=
  map (fun r => (r, getMode sel r)) regions.

(** The test the spec rules out: raw string-prefix comparison. *)
Definition startsWith (s pre : string) : bool := String.prefix pre s.

End IsolatedNode.

(* ===================================================================== *)
(** * Sample data *)
(* ===================================================================== *)

Module Samples.
Import Document Copy.

(** The annotation of the example in PropertyAnnotation.js. *)
Definition strong1 : PropertyAnnotation.t :=
  PropertyAnnotation.mk "s1" "strong" (mkCoordinate ["p1"; "content"] 10)
                        (mkCoordinate ["p1"; "content"] 19) [].

(** A small DOM: the document 0, the element 1 with the text child 2, and
    the detached text 3. *)
Definition sampleHeap : XNode.Heap :=
  {[ 0%nat := XNode.mk "document" None None None (Some "xml") (Some [1%nat]) None None None;
     1%nat := XNode.mk "tag" (Some 0%nat) (Some "p") None None (Some [2%nat])
                       (Some 0%nat) None None;
     2%nat := XNode.mk "text" (Some 0%nat) None (Some "abc") None None
                       (Some 1%nat) None None;
     3%nat := XNode.mk "text" (Some 0%nat) None (Some "xyz") None None None None None ]}.

(** A stand-in for the vendored [prepend]; the samples never reach it. *)
Definition noPrepend : XNode.Heap → XNode.Ref → XNode.Ref → XNode.Heap :=
  fun h _ _ => h.

Definition paragraphSchema : Schema :=
  mkSchema "paragraph"
    {[ "paragraph" := [mkProperty "content" "text" false false false] ]}.

(** A document with the paragraph [p1] and a strong annotation on it. *)
Definition sampleDoc : Document.t :=
  mkDoc {[ "p1" := Plain "paragraph" [("content", VString "abcdefgh")];
           "s1" := Anno "strong" (mkCoordinate ["p1"; "content"] 1)
                        (mkCoordinate ["p1"; "content"] 3) [] ]}
        ["p1"] paragraphSchema.

Definition sampleWorld : World := mkWorld sampleDoc 0 [].

(** Two paragraphs and no annotation. *)
Definition plainDoc : Document.t :=
  mkDoc {[ "p1" := Plain "paragraph" [("content", VString "abcdefgh")];
           "p2" := Plain "paragraph" [("content", VString "ijklmnop")] ]}
        ["p1"; "p2"] paragraphSchema.

Definition plainWorld : World := mkWorld plainDoc 0 [].

(** The container selection inside the one paragraph [p1], from 2 to 4:
    its only fragment is the first and the last one. *)
Definition insideP1 : Selection :=
  containerSelection (mkCoordinate ["p1"; "content"] 2) (mkCoordinate ["p1"; "content"] 4)
                     [mkFragment SelectionFragment ["p1"; "content"] 2 4] "body".

(** The container selection from 2 in [p1] to 3 in [p2]. *)
Definition acrossP1P2 : Selection :=
  containerSelection (mkCoordinate ["p1"; "content"] 2) (mkCoordinate ["p2"; "content"] 3)
                     [mkFragment SelectionFragment ["p1"; "content"] 2 8;
                      mkFragment SelectionFragment ["p2"; "content"] 0 3] "body".

Definition listSchema : Schema :=
  mkSchema "paragraph"
    {[ "paragraph" := [mkProperty "content" "text" false false false];
       "list" := [mkProperty "items" "id" true true true] ]}.

(** A list owning two paragraphs, with an annotation on the first. *)
Definition listDoc : Document.t :=
  mkDoc {[ "l1" := Plain "list" [("items", VArray ["i1"; "i2"])];
           "i1" := Plain "paragraph" [("content", VString "one")];
           "i2" := Plain "paragraph" [("content", VString "two")];
           "e1" := Anno "emphasis" (mkCoordinate ["i1"; "content"] 0)
                        (mkCoordinate ["i1"; "content"] 3) [] ]}
        ["l1"] listSchema.

(** Two lists owning each other. *)
Definition cyclicDoc : Document.t :=
  mkDoc {[ "a" := Plain "list" [("items", VArray ["b"])];
           "b" := Plain "list" [("items", VArray ["a"])] ]}
        ["a"] listSchema.

End Samples.

(* ===================================================================== *)
(** * More of src/model/PropertyAnnotation.js and src/model/copySelection.js *)
(* ===================================================================== *)

Module CopyOrder.
Import Document Copy.

(** Every node of the list comes after the nodes it owns: [seen] are the
    ids in front of the list. *)
Fixpoint ownedFirst (doc : Document.t) (seen : list string) (l : list NodeData) : Prop :=
  match l with
  | [] => True
  | d :: l' =>
      (∀ c, In c (ownedIds doc d.2) → c ∈ seen) ∧ ownedFirst doc (seen ++ [d.1]) l'
  end.

End CopyOrder.

Module MoreSamples.
Import Document Copy Samples.

(** A list whose second owning reference dangles. *)
Definition danglingDoc : Document.t :=
  mkDoc {[ "l1" := Plain "list" [("items", VArray ["i1"; "gone"])];
           "i1" := Plain "paragraph" [("content", VString "one")] ]}
        ["l1"] listSchema.

(** A list that refers to the same paragraph twice. *)
Definition sharedDoc : Document.t :=
  mkDoc {[ "l1" := Plain "list" [("items", VArray ["i1"; "i1"])];
           "i1" := Plain "paragraph" [("content", VString "one")] ]}
        ["l1"] listSchema.

(** Two nodes, each the parent of the other. *)
Definition loopHeap : XNode.Heap :=
  {[ 0%nat := XNode.mk "tag" (Some 9%nat) (Some "a") None None (Some [1%nat])
                       (Some 1%nat) None None;
     1%nat := XNode.mk "tag" (Some 9%nat) (Some "b") None None (Some [0%nat])
                       (Some 0%nat) None None ]}.

Definition listWorld : World := mkWorld listDoc 0 [].

End MoreSamples.

(** [getSelection()] of a property annotation.

    Modelled from the spec: doc.createSelection is not among the sources;
    for [{ type: 'property', path, startOffset, endOffset }] it gives the
    property selection over that path and these offsets, with no surface. *)
Definition getSelection (this : PropertyAnnotation.t) : Selection :=
  propertySelection (PropertyAnnotation.path_of this)
                    (offset (PropertyAnnotation.astart this))
                    (offset (PropertyAnnotation.aend this)) "".

(* ===================================================================== *)
(** * JavaScript strings, maps and sets *)
(* ===================================================================== *)

Module JS.

(** The characters [\s] and [trim] take for white space, among the first
    256 code units. *)
Definition isSpace (c : ascii) : bool :=
  let n := nat_of_ascii c in
  (Nat.eqb n 9 || Nat.eqb n 10 || Nat.eqb n 11 || Nat.eqb n 12 || Nat.eqb n 13
   || Nat.eqb n 32 || Nat.eqb n 160)%nat.

Fixpoint dropSpaces (l : list ascii) : list ascii :=
  match l with
  | c :: l' => if isSpace c then dropSpaces l' else l
  | [] => []
  end.

(** [s.trim()] *)
Definition trim (s : string) : string :=
  str (rev (dropSpaces (rev (dropSpaces (chars s))))).

(** [s.split(/\s+/)]: the pieces between the runs of white space; a run at
    the start or at the end leaves an empty piece there.  [cur] is the piece
    being read, [skipping] says that the last character was white space. *)
Fixpoint splitSpaces (cur : list ascii) (skipping : bool) (l : list ascii)
    : list string :=
  match l with
  | [] => [str cur]
  | c :: l' =>
      if isSpace c then
        if skipping then splitSpaces cur true l'
        else str cur :: splitSpaces [] true l'
      else splitSpaces (cur ++ [c]) false l'
  end.

Definition splitOnSpaces (s : string) : list string := splitSpaces [] false (chars s).

(** [s.split(c)] for a character [c]; [cur] is the piece being read. *)
Fixpoint splitAt (sep : ascii) (cur : list ascii) (l : list ascii) : list string :=
  match l with
  | [] => [str cur]
  | c :: l' =>
      if Ascii.eqb c sep then str cur :: splitAt sep [] l'
      else splitAt sep (cur ++ [c]) l'
  end.

Definition splitOn (sep : ascii) (s : string) : list string := splitAt sep [] (chars s).

(** [list.join(sep)] *)
Fixpoint join (sep : string) (l : list string) : string :=
  match l with
  | [] => ""
  | [x] => x
  | x :: l' => x +:+ sep +:+ join sep l'
  end.

(** [s.indexOf(c)] for a character [c]: the first position, or [-1]. *)
Fixpoint indexOfChar (c : ascii) (l : list ascii) : Z :=
  match l with
  | [] => -1
  | x :: l' =>
      if Ascii.eqb x c then 0
      else let i := indexOfChar c l' in if i =? -1 then -1 else i + 1
  end.

(** [s.toLowerCase()], on the first 256 code units: A-Z, and the capital
    letters from 192 to 222 except the multiplication sign 215. *)
Definition lowerChar (c : ascii) : ascii :=
  let n := nat_of_ascii c in
  if ((65 <=? n) && (n <=? 90))%nat then ascii_of_nat (n + 32)
  else if ((192 <=? n) && (n <=? 222) && negb (Nat.eqb n 215))%nat
       then ascii_of_nat (n + 32)
  else c.

Definition toLowerCase (s : string) : string := str (map lowerChar (chars s)).

(** A [Map] with string keys: its entries in insertion order, one per key. *)
Definition Map (V : Type) : Type := list (string * V).

Fixpoint map_get {V} (m : Map V) (k : string) : option V :=
  match m with
  | [] => None
  | (k', v) :: m' => if String.eqb k k' then Some v else map_get m' k
  end.

Definition map_has {V} (m : Map V) (k : string) : bool :=
  match map_get m k with Some _ => true | None => false end.

(** [m.set(k, v)]: a known key keeps its place, a new one goes last. *)
Fixpoint map_set {V} (m : Map V) (k : string) (v : V) : Map V :=
  match m with
  | [] => [(k, v)]
  | (k', v') :: m' =>
      if String.eqb k k' then (k, v) :: m' else (k', v') :: map_set m' k v
  end.

Fixpoint map_delete {V} (m : Map V) (k : string) : Map V :=
  match m with
  | [] => []
  | (k', v') :: m' =>
      if String.eqb k k' then map_delete m' k else (k', v') :: map_delete m' k
  end.

(** [Object.keys(m)] of a [Map]: the entries of a [Map] are not properties
    of the object, which has no own enumerable property. *)
Definition Object_keys {V} (m : Map V) : list string := [].

(** [m[name]] read as a property of a [Map]: undefined, for the same
    reason. *)
Definition ownProperty {V} (m : Map V) (name : string) : option V := None.

(** A [Set] of strings: its elements in insertion order, each once. *)
Definition Set_ : Type := list string.

Definition set_has (s : Set_) (x : string) : bool := existsb (String.eqb x) s.

Definition set_add (s : Set_) (x : string) : Set_ :=
  if set_has s x then s else s ++ [x].

Definition set_delete (s : Set_) (x : string) : Set_ :=
  List.filter (fun y => negb (String.eqb x y)) s.

(** A class name as [split(/\s+/)] gives it back: not empty, and free of
    white space. *)
Definition className (c : string) : Prop :=
  c ≠ "" ∧ Forall (λ x, isSpace x = false) (chars c).

(** The message of the error raised by a method call on [undefined]. *)
Definition TypeError : string := "TypeError".

End JS.

(* ===================================================================== *)
(** * src/dom/XNode.js: name, attributes, classes, styles, properties *)
(* ===================================================================== *)

Module XElement.
Import JS.

(** The fields of a node that its element methods read and write; [None]
    is a field that is undefined (or [null], for the name).  Attribute,
    style and property values are strings. *)
Record t : Type := mk {
  name : option string;
  properties : option (Map string);
  attributes : option (Map string);
  classes : option Set_;
  styles : option (Map string)
}.

Definition set_name (v : option string) (n : t) : t :=
  mk v (properties n) (attributes n) (classes n) (styles n).
Definition set_properties (v : option (Map string)) (n : t) : t :=
  mk (name n) v (attributes n) (classes n) (styles n).
Definition set_attributes (v : option (Map string)) (n : t) : t :=
  mk (name n) (properties n) v (classes n) (styles n).
Definition set_classes (v : option Set_) (n : t) : t :=
  mk (name n) (properties n) (attributes n) v (styles n).
Definition set_styles (v : option (Map string)) (n : t) : t :=
  mk (name n) (properties n) (attributes n) (classes n) v.

(** [new XNode(ElementType.Tag, { name: tagName, ownerDocument })], as
    [createElement(tagName)] calls the constructor with an owner document:
    the fields above. *)
Definition createElement (tagName : string) : Result t :=
  if String.eqb tagName "" then Throw "'name' is mandatory."
  else Ok (mk (Some tagName) (Some []) (Some []) (Some []) (Some [])).

(** [new XNode(ElementType.Text, { data: text, ownerDocument })]: a text
    node has none of the fields. *)
Definition createTextNode : t := mk None None None None None.

(** [getTagName()] *)
Definition getTagName (this : t) : option string :=
  match name this with
  | Some n => if String.eqb n "" then None else Some (toLowerCase n)
  | None => None
  end.

(** [setTagName(tagName)], for a string. *)
Definition setTagName (this : t) (tagName : string) : t :=
  set_name (Some (toLowerCase tagName)) this.

(** [parseClasses(classes, classStr)] *)
Definition parseClasses (classes : option Set_) (classStr : string)
    : Result (option Set_) :=
  fold_left
    (fun acc name_ =>
       let! c := acc in
       match c with
       | Some cs => Ok (Some (set_add cs name_))
       | None => Throw TypeError
       end)
    (splitOnSpaces classStr) (Ok classes).

(** [stringifyClasses(classes)]; [Array.from(undefined)] raises. *)
Definition stringifyClasses (classes : option Set_) : Result string :=
  match classes with
  | Some cs => Ok (join " " cs)
  | None => Throw TypeError
  end.

(** The body of the loop of [parseStyles], for one piece [style]. *)
Definition parseStyle (styles : option (Map string)) (style : string)
    : Result (option (Map string)) :=
  let n := indexOfChar ":"%char (chars style) in
  if (n <? 1) || (n =? strlen style - 1) then Ok styles
  else
    let name_ := trim (str (take (Z.to_nat n) (chars style))) in
    let val := trim (str (drop (Z.to_nat (n + 1)) (chars style))) in
    match styles with
    | Some m => Ok (Some (map_set m name_ val))
    | None => Throw TypeError
    end.

(** [parseStyles(styles, styleStr)]; [styleStr] may be undefined. *)
Definition parseStyles (styles : option (Map string)) (styleStr : option string)
    : Result (option (Map string)) :=
  let styleStr := trim (match styleStr with Some s => s | None => "" end) in
  if String.eqb styleStr "" then Ok styles
  else
    fold_left (fun acc style => let! s := acc in parseStyle s style)
              (splitOn ";"%char styleStr) (Ok styles).

(** [":" + value], for a string that may be undefined. *)
Definition orUndefined (v : option string) : string :=
  match v with
  | Some s => s
  | None => "undefined"
  end.

(** [stringifyStyles(styles)] *)
Definition stringifyStyles (styles : option (Map string)) : string :=
  match styles with
  | None => ""
  | Some m =>
      let str_ :=
        join ";" (map (fun name_ => name_ +:+ ":" +:+ orUndefined (ownProperty m name_))
                      (Object_keys m)) in
      if strlen str_ >? 0 then str_ +:+ ";" else str_
  end.

(** [hasAttribute(name)] *)
Definition hasAttribute (this : t) (name_ : string) : Result bool :=
  if String.eqb name_ "class" then Ok (bool_decide (is_Some (classes this)))
  else if String.eqb name_ "style" then Ok (bool_decide (is_Some (styles this)))
  else
    match attributes this with
    | Some m => Ok (map_has m name_)
    | None => Throw TypeError
    end.

(** [getAttribute(name)]; [Ok None] is [undefined]. *)
Definition getAttribute (this : t) (name_ : string) : Result (option string) :=
  if String.eqb name_ "class" then
    let! s := stringifyClasses (classes this) in Ok (Some s)
  else if String.eqb name_ "style" then Ok (Some (stringifyStyles (styles this)))
  else
    match attributes this with
    | Some m => Ok (map_get m name_)
    | None => Throw TypeError
    end.

(** [setAttribute(name, value)], for a string [value]; it returns [this]. *)
Definition setAttribute (this : t) (name_ value : string) : Result t :=
  if String.eqb name_ "class" then
    let! c := parseClasses (classes this) value in Ok (set_classes c this)
  else if String.eqb name_ "style" then
    let! s := parseStyles (styles this) (Some value) in Ok (set_styles s this)
  else
    match attributes this with
    | Some m => Ok (set_attributes (Some (map_set m name_ value)) this)
    | None => Throw TypeError
    end.

(** [removeAttribute(name)] *)
Definition removeAttribute (this : t) (name_ : string) : Result t :=
  if String.eqb name_ "class" then Ok (set_classes (Some []) this)
  else if String.eqb name_ "style" then Ok (set_styles (Some []) this)
  else
    match attributes this with
    | Some m => Ok (set_attributes (Some (map_delete m name_)) this)
    | None => Throw TypeError
    end.

(** [getProperty(name)] *)
Definition getProperty (this : t) (name_ : string) : option string :=
  match properties this with
  | Some m => map_get m name_
  | None => None
  end.

(** [setProperty(name, value)] *)
Definition setProperty (this : t) (name_ value : string) : t :=
  match properties this with
  | Some m => set_properties (Some (map_set m name_ value)) this
  | None => this
  end.

(** [properties.hasOwnProperty(name)] on the [Map] of the properties: true
    iff the object itself has the property, which no entry of a [Map] is. *)
Definition hasOwnProperty {V} (m : Map V) (name_ : string) : bool :=
  bool_decide (is_Some (ownProperty m name_)).

(** [removeProperty(name)]; [delete properties[name]] removes a property
    of the object, not an entry of the [Map]. *)
Definition removeProperty (this : t) (name_ : string) : t :=
  match properties this with
  | Some m => if hasOwnProperty m name_ then set_properties (Some m) this else this
  | None => this
  end.

(** What [hasClass] returns: a boolean, or the node itself. *)
Inductive HasClass : Type :=
| Answer (b : bool)
| This (this : t).

(** [hasClass(name)] *)
Definition hasClass (this : t) (name_ : string) : HasClass :=
  match classes this with
  | Some cs => Answer (set_has cs name_)
  | None => This this
  end.

(** An object is truthy. *)
Definition truthyHasClass (r : HasClass) : bool :=
  match r with Answer b => b | This _ => true end.

(** [addClass(name)] *)
Definition addClass (this : t) (name_ : string) : t :=
  match classes this with
  | Some cs => set_classes (Some (set_add cs name_)) this
  | None => this
  end.

(** [removeClass(name)] *)
Definition removeClass (this : t) (name_ : string) : t :=
  match classes this with
  | Some cs => set_classes (Some (set_delete cs name_)) this
  | None => this
  end.

(** [getStyle(name)] *)
Definition getStyle (this : t) (name_ : string) : option string :=
  match styles this with
  | Some m => map_get m name_
  | None => None
  end.

End XElement.

(* ===================================================================== *)
(** * src/dom/XNode.js: children, root, [empty], [appendChild], [insertAt] *)
(* ===================================================================== *)

Module XNodeTree.
Import XNode.

(** [getChildCount()] *)
Definition getChildCount (h : Heap) (this : Ref) : Z :=
  match children (h !!! this) with
  | Some cs => Z.of_nat (length cs)
  | None => 0
  end.

(** [children[pos]] for an integer [pos]: undefined outside the array. *)
Definition at_ (cs : list Ref) (pos : Z) : option Ref :=
  if pos <? 0 then None else cs !! Z.to_nat pos.

(** [getChildAt(pos)] *)
Definition getChildAt (h : Heap) (this : Ref) (pos : Z) : option Ref :=
  match children (h !!! this) with
  | Some cs => at_ cs pos
  | None => None
  end.

(** [getChildIndex(child)]; [None] is [undefined]. *)
Definition getChildIndex (h : Heap) (this child : Ref) : option Z :=
  match children (h !!! this) with
  | Some cs => Some (indexOf cs child)
  | None => None
  end.

(** [getLastChild()].

    Modelled from the spec: util/last is not among the sources; it gives
    the last element of an array, undefined for an empty one. *)
Definition getLastChild (h : Heap) (this : Ref) : option Ref :=
  match children (h !!! this) with
  | Some cs => List.last (map Some cs) None
  | None => None
  end.

(** [getFirstChild()] *)
Definition getFirstChild (h : Heap) (this : Ref) : option Ref :=
  match children (h !!! this) with
  | Some cs => at_ cs 0
  | None => None
  end.

(** [getParent()] *)
Definition getParent (h : Heap) (this : Ref) : option Ref := parent (h !!! this).

(** [getRoot()]: the loop climbs while there is a parent; [fuel] bounds
    its iterations, and [None] says that it has not ended within them. *)
Fixpoint getRoot (fuel : nat) (h : Heap) (el : Ref) : option Ref :=
  match fuel with
  | O => None
  | S fuel' =>
      match parent (h !!! el) with
      | Some p => getRoot fuel' h p
      | None => Some el
      end
  end.

(** [el] has the parent [p]. *)
Definition parentOf (h : Heap) (el p : Ref) : Prop := parent (h !!! el) = Some p.

(** [isTextNode()], [isElementNode()], [isCommentNode()],
    [isDocumentNode()] *)
Definition isTextNode (n : t) : bool := String.eqb (type n) "text".
Definition isElementNode (n : t) : bool :=
  String.eqb (type n) "tag" || String.eqb (type n) "script".
Definition isCommentNode (n : t) : bool := String.eqb (type n) "comment".
Definition isDocumentNode (n : t) : bool := String.eqb (type n) "document".

(** [child.next = child.prev = child.parent = null] *)
Definition unlinked (n : t) : t :=
  mk (type n) (ownerDocument n) (name n) (data n) (format n) (children n) None None None.




(** What is handed to [appendChild] and [insertAt] as a child: a string, a
    node, [null] or [undefined], or any other value. *)
Inductive Child : Type :=
| CString (s : string)
| CNode (r : Ref)
| CNil
| CForeign.

(** [isNil(child)] *)
Definition isNil (child : Child) : bool :=
  match child with CNil => true | _ => false end.

(** [createTextNode(text)]: the new node is put at a reference that is not
    in use. *)
Definition createTextNode (h : Heap) (this : Ref) (text : string) : Result (Heap * Ref) :=
  let! n := new_XNode ElementType.Text
              (mkArgs (getOwnerDocument h this) None (Some text) None None) in
  let r := fresh (dom h) in
  Ok (<[r := n]> h, r).

(** [_normalizeChild(child)] *)
Definition _normalizeChild (h : Heap) (this : Ref) (child : Child) : Result (Heap * Ref) :=
  match child with
  | CString s => createTextNode h this s
  | CNode r => Ok (h, r)
  | CNil | CForeign =>
      Throw "Illegal argument: only String and XNode instances are valid."
  end.

Section Insert.

(** [DomUtils.appendChild(elem, child)] and [DomUtils.prepend(elem, prev)]
    of the vendored DOM utilities, and what [prepend] does when [elem] is
    undefined; the vendored code is not part of the sources. *)
Variable DomUtils_appendChild : Heap → Ref → Ref → Heap.
Variable DomUtils_prepend : Heap → Ref → Ref → Heap.
Variable DomUtils_prepend_undefined : Heap → Ref → Result Heap.

(** [appendChild(child)] *)
Definition appendChild (h : Heap) (this : Ref) (child : Child) : Result Heap :=
  match children (h !!! this) with
  | Some _ =>
      if isNil child then Ok h
      else
        let! p := _normalizeChild h this child in
        let h1 := DomUtils_appendChild p.1 this p.2 in
        let h2 := alter (set_ownerDocument (getOwnerDocument h1 this)) p.2 h1 in
        Ok (_onAttach h2 this p.2)
  | None => Ok h
  end.

(** [insertAt(pos, child)] *)
Definition insertAt (h : Heap) (this : Ref) (pos : Z) (child : Child) : Result Heap :=
  let! p := _normalizeChild h this child in
  match children (p.1 !!! this) with
  | Some cs =>
      let! h1 :=
        (if pos >=? Z.of_nat (length cs) then Ok (DomUtils_appendChild p.1 this p.2)
         else match at_ cs pos with
              | Some before => Ok (DomUtils_prepend p.1 before p.2)
              | None => DomUtils_prepend_undefined p.1 p.2
              end) in
      let h2 := alter (set_ownerDocument (getOwnerDocument h1 this)) p.2 h1 in
      Ok (_onAttach h2 this p.2)
  | None => Ok p.1
  end.

End Insert.

End XNodeTree.

(* ===================================================================== *)
(** * util/cloneDeep.js *)
(* ===================================================================== *)

Module CloneDeep.

Definition Ref := nat.

(** Primitive values: they are not objects, and are handed on as they
    are. *)
Inductive Primitive : Type :=
| PUndefined
| PNull
| PBool (b : bool)
| PNumber (n : Z)
| PString (s : string).

(** A value is a primitive or a reference to an object of the heap. *)
Inductive Val : Type :=
| Prim (p : Primitive)
| Obj (r : Ref).

(** Plain data: an array with its elements, or an object with its own
    enumerable properties in the order of [Object.keys]. *)
Inductive Object : Type :=
| Array (items : list Val)
| Plain (fields : list (string * Val)).

Definition Heap := gmap Ref Object.

(** The values an object holds. *)
Definition members (o : Object) : list Val :=
  match o with
  | Array items => items
  | Plain fields => map snd fields
  end.

(** The calls of [cloneDeep] on the elements of a list, one after the
    other, each on the heap the one before has left. *)
Fixpoint cloneEach (f : Heap → Val → option (Val * Heap)) (l : list Val) (h : Heap)
    : option (list Val * Heap) :=
  match l with
  | [] => Some ([], h)
  | v :: l' =>
      match f h v with
      | Some (v', h1) =>
          match cloneEach f l' h1 with
          | Some (vs, h2) => Some (v' :: vs, h2)
          | None => None
          end
      | None => None
      end
  end.

(** [cloneDeep(val)], with [_cloneArrayDeep] and [_cloneObjectDeep]: the
    result and the heap it leaves.  [fuel] bounds the depth of the
    recursion, and [None] says that it was not enough.  The new array or
    object is there before its elements are cloned.

    Modelled from the spec: util/isArray, util/isObject and util/forEach
    are not among the sources; on plain data [isArray] holds of the arrays,
    [isObject] of the other objects, and [forEach] calls the function on
    each own enumerable property, in the order of [Object.keys]. *)
Fixpoint cloneDeep (fuel : nat) (h : Heap) (val : Val) : option (Val * Heap) :=
  match fuel with
  | O => None
  | S fuel' =>
      match val with
      | Prim _ => Some (val, h)
      | Obj r =>
          match h !! r with
          | Some (Array arr) =>
              let res := fresh (dom h) in
              match cloneEach (cloneDeep fuel') arr (<[res := Array []]> h) with
              | Some (items, h1) => Some (Obj res, <[res := Array items]> h1)
              | None => None
              end
          | Some (Plain obj) =>
              let res := fresh (dom h) in
              match cloneEach (cloneDeep fuel') (map snd obj) (<[res := Plain []]> h) with
              | Some (vals, h1) =>
                  Some (Obj res, <[res := Plain (combine (map fst obj) vals)]> h1)
              | None => None
              end
          | None => None
          end
      end
  end.

(** Plain data written out as a tree. *)
Unset Elimination Schemes.
Inductive Tree : Type :=
| TPrim (p : Primitive)
| TArray (items : list Tree)
| TPlain (fields : list (string * Tree)).
Set Elimination Schemes.

(** The tree of the data at [val], when it is at most [fuel] deep. *)
Fixpoint read (fuel : nat) (h : Heap) (val : Val) : option Tree :=
  match fuel with
  | O => None
  | S fuel' =>
      match val with
      | Prim p => Some (TPrim p)
      | Obj r =>
          match h !! r with
          | Some (Array arr) => TArray <$> mapM (read fuel' h) arr
          | Some (Plain obj) =>
              (fun ts => TPlain (combine (map fst obj) ts))
                <$> mapM (read fuel' h) (map snd obj)
          | None => None
          end
      end
  end.


(** The object at [r] holds a reference to the object at [r']. *)
Definition refersTo (h : Heap) (r r' : Ref) : Prop :=
  ∃ o, h !! r = Some o ∧ Obj r' ∈ members o.

(** [v] is a primitive, or an object that [h'] has and [h] has not. *)
Definition isNew (h h' : Heap) (v : Val) : Prop :=
  ∀ r, v = Obj r → h !! r = None ∧ is_Some (h' !! r).

(** From [r] a chain of references leads into a cycle. *)
Definition loops (h : Heap) (r : Ref) : Prop :=
  ∃ r0, rtc (refersTo h) r r0 ∧ tc (refersTo h) r0 r0.

End CloneDeep.

Module CloneSamples.
Import CloneDeep.

(** [{ id: "p1", tags: ["a", "b"] }] at 0, its array at 1. *)
Definition recordHeap : Heap :=
  {[ 0%nat := Plain [("id", Prim (PString "p1")); ("tags", Obj 1%nat)];
     1%nat := Array [Prim (PString "a"); Prim (PString "b")] ]}.

(** An object that holds itself: [o.self = o]. *)
Definition selfHeap : Heap := {[ 0%nat := Plain [("self", Obj 0%nat)] ]}.

End CloneSamples.

(* ===================================================================== *)
(** * Facts about the helpers *)
(* ===================================================================== *)

Lemma isArrayEqual_spec (a b : list string) : isArrayEqual a b = true ↔ a = b.
Proof.
  revert b. induction a as [|x a IH]; intros [|y b]; simpl; try (split; congruence).
  rewrite andb_true_iff, String.eqb_eq, IH. split.
  - intros [-> ->]. reflexivity.
  - intros [= -> ->]. auto.
Qed.

Lemma isArrayEqual_decide (a b : list string) :
  isArrayEqual a b = bool_decide (a = b).
Proof.
  destruct (isArrayEqual a b) eqn:E.
  - apply isArrayEqual_spec in E. symmetry. by apply bool_decide_eq_true.
  - symmetry. apply bool_decide_eq_false. intros H%isArrayEqual_spec. congruence.
Qed.

Lemma isArrayEqual_refl (a : list string) : isArrayEqual a a = true.
Proof. by apply isArrayEqual_spec. Qed.

Module XNodeFacts.
Import XNode.

Lemma indexOf_lower (l : list Ref) (x : Ref) : -1 <= indexOf l x.
Proof.
  induction l as [|y l IH]; simpl; [lia|].
  destruct (Nat.eqb y x); [lia|].
  destruct (indexOf l x =? -1) eqn:E; lia.
Qed.

Lemma indexOf_absent (l : list Ref) (x : Ref) : indexOf l x = -1 ↔ ¬ In x l.
Proof.
  induction l as [|y l IH]; simpl; [tauto|].
  destruct (Nat.eqb y x) eqn:E.
  - apply Nat.eqb_eq in E. split; [lia | tauto].
  - apply Nat.eqb_neq in E. pose proof (indexOf_lower l x).
    destruct (indexOf l x =? -1) eqn:E'.
    + apply Z.eqb_eq in E'. split; [|tauto]. intros _ [H'|H']; [tauto|].
      by apply IH.
    + apply Z.eqb_neq in E'. split; [lia|]. intros Hn. exfalso.
      apply E', IH. tauto.
Qed.

End XNodeFacts.

(* ===================================================================== *)
(** * Strings *)
(* ===================================================================== *)

Module StringFacts.

Lemma chars_str (l : list ascii) : chars (str l) = l.
Proof. apply list_ascii_of_string_of_list_ascii. Qed.

Lemma strlen_nonneg (s : string) : 0 <= strlen s.
Proof. unfold strlen. lia. Qed.

(** Inside the string, [substring] has the length of the window. *)
Lemma strlen_substring (s : string) (a b : Z) :
  0 <= a <= b → b <= strlen s → strlen (substring s a b) = b - a.
Proof.
  intros Ha Hb. unfold substring, clampIndex.
  unfold strlen in *. rewrite chars_str, length_take, length_drop. lia.
Qed.

(** Whatever the indices, [substring] has the length of the clamped window. *)
Lemma strlen_substring_clamped (s : string) (a b : Z) :
  strlen (substring s a b)
  = Z.max (clampIndex s a) (clampIndex s b) - Z.min (clampIndex s a) (clampIndex s b).
Proof.
  unfold substring, clampIndex.
  unfold strlen in *. rewrite chars_str, length_take, length_drop. lia.
Qed.

End StringFacts.

(* ===================================================================== *)
(** * The annotation index *)
(* ===================================================================== *)

Module IndexFacts.
Import Document AnnotationIndex.

Lemma asAnnotation_Some (d : NodeData) (a : PropertyAnnotation.t) :
  asAnnotation d = Some a ↔ d = toJSON a.
Proof.
  destruct d as [k n], a as [i ty s e x]. unfold asAnnotation, toJSON. simpl.
  destruct n; split; try congruence.
Qed.

Lemma elem_of_all (doc : t) (a : PropertyAnnotation.t) :
  a ∈ all doc ↔ Document.get doc (PropertyAnnotation.id a) = Some (toJSON a).2.
Proof.
  unfold all, Document.get. rewrite list_elem_of_omap. split.
  - intros [[k n] [Hin Ha]]. apply asAnnotation_Some in Ha. rewrite Ha in Hin.
    by apply elem_of_map_to_list in Hin.
  - intros H. exists (toJSON a). split.
    + by apply elem_of_map_to_list.
    + by apply asAnnotation_Some.
Qed.

Lemma all_inj (doc : t) (a a' : PropertyAnnotation.t) :
  a ∈ all doc → a' ∈ all doc →
  PropertyAnnotation.id a = PropertyAnnotation.id a' → a = a'.
Proof.
  intros H H' E. apply elem_of_all in H, H'. rewrite E in H. rewrite H in H'.
  destruct a, a'. simpl in *. congruence.
Qed.

Lemma omap_ids_NoDup (l : list NodeData) :
  NoDup l.*1 → NoDup (PropertyAnnotation.id <$> omap asAnnotation l).
Proof.
  induction l as [|[k n] l IH]; simpl; [constructor|].
  intros Hnd. apply NoDup_cons in Hnd as [Hk Hnd].
  destruct (asAnnotation (k, n)) as [a|] eqn:E; [|by apply IH].
  apply asAnnotation_Some in E. simpl. apply NoDup_cons. split; [|by apply IH].
  assert (PropertyAnnotation.id a = k) as -> by (unfold toJSON in E; congruence).
  intros Hin. apply Hk. apply list_elem_of_fmap in Hin as [a' [-> Ha']].
  apply list_elem_of_omap in Ha' as [d [Hd Ed]]. apply asAnnotation_Some in Ed.
  apply list_elem_of_fmap. exists d. split; [|assumption].
  subst d. reflexivity.
Qed.

Lemma all_ids_NoDup (doc : t) : NoDup (PropertyAnnotation.id <$> all doc).
Proof. apply omap_ids_NoDup, NoDup_fst_map_to_list. Qed.

Lemma filter_ids_NoDup (f : PropertyAnnotation.t → bool) (l : list PropertyAnnotation.t) :
  NoDup (PropertyAnnotation.id <$> l) → NoDup (PropertyAnnotation.id <$> List.filter f l).
Proof.
  induction l as [|a l IH]; simpl; [auto|].
  intros Hnd. apply NoDup_cons in Hnd as [Ha Hnd].
  destruct (f a); simpl; [|by apply IH].
  apply NoDup_cons. split; [|by apply IH].
  intros Hin. apply Ha. apply list_elem_of_fmap in Hin as [a' [E Ha']].
  apply list_elem_of_fmap. exists a'. split; [assumption|].
  apply list_elem_of_In in Ha'. apply filter_In in Ha' as [Ha' _].
  by apply list_elem_of_In.
Qed.

Lemma elem_of_getRange (doc : t) (p : Path) (s e : Z) (a : PropertyAnnotation.t) :
  a ∈ getRange doc p s e ↔
  a ∈ all doc ∧ PropertyAnnotation.path_of a = p ∧ overlaps s e a = true.
Proof.
  unfold getRange, get. rewrite !list_elem_of_In, !filter_In. unfold onPath.
  rewrite isArrayEqual_spec. tauto.
Qed.

Lemma getRange_ids_NoDup (doc : t) (p : Path) (s e : Z) :
  NoDup (PropertyAnnotation.id <$> getRange doc p s e).
Proof. unfold getRange, get. do 2 apply filter_ids_NoDup. apply all_ids_NoDup. Qed.

End IndexFacts.

(* ===================================================================== *)
(** * The loops of the copy engine *)
(* ===================================================================== *)

Module CopyNodeFacts.
Import Document Copy.

Section Loops.
Context {A S : Type}.
Implicit Types (f g : S → A → option (Result S)) (l : list A).

Lemma forEachO_ext f g l s :
  (∀ s' x, In x l → f s' x = g s' x) → forEachO f l s = forEachO g l s.
Proof.
  revert s. induction l as [|x l IH]; intros s H; simpl; [reflexivity|].
  rewrite <- (H s x) by (by left).
  destruct (f s x) as [[s'|e]|]; try reflexivity.
  apply IH. intros s'' y Hy. apply H. by right.
Qed.

Lemma forEachO_total f l s :
  (∀ s' x, In x l → f s' x ≠ None) → forEachO f l s ≠ None.
Proof.
  revert s. induction l as [|x l IH]; intros s H; simpl; [discriminate|].
  pose proof (H s x (or_introl eq_refl)) as Hx.
  destruct (f s x) as [[s'|e]|]; [|discriminate|contradiction].
  apply IH. intros s'' y Hy. apply H. by right.
Qed.

Lemma forEachO_no_throw f l s :
  (∀ s' x e, In x l → f s' x ≠ Some (Throw e)) →
  ∀ e, forEachO f l s ≠ Some (Throw e).
Proof.
  revert s. induction l as [|x l IH]; intros s H e; simpl; [discriminate|].
  pose proof (H s x) as Hx.
  destruct (f s x) as [[s'|e']|]; [|by apply Hx; left|discriminate].
  apply IH. intros s'' y e'' Hy. apply H. by right.
Qed.

Lemma forEachO_Ok_inv f l s s' x :
  forEachO f l s = Some (Ok s') → In x l → ∃ s1 s2, f s1 x = Some (Ok s2).
Proof.
  revert s. induction l as [|y l IH]; intros s H Hx; [destruct Hx|].
  simpl in H. destruct (f s y) as [[s2|e]|] eqn:E; try discriminate.
  destruct Hx as [->|Hx]; [eauto | by apply (IH s2)].
Qed.

End Loops.

Lemma In_ownedIds (doc : Document.t) (n : Node) (c : string) :
  In c (ownedIds doc n) ↔
  ∃ prop ids, In prop (getSchema doc n) ∧ cascades prop = true
              ∧ referenced prop (field n (pname prop)) = Ok ids ∧ In c ids.
Proof.
  unfold ownedIds. rewrite in_flat_map. split.
  - intros [prop [Hp Hc]]. destruct (cascades prop) eqn:Ec; [|destruct Hc].
    destruct (referenced _ _) as [ids|] eqn:Er; [|destruct Hc]. eauto 10.
  - intros [prop [ids [Hp [Ec [Er Hc]]]]]. exists prop. by rewrite Ec, Er.
Qed.

Lemma cascade_ext copy1 copy2 (doc : Document.t) (n : Node) :
  (∀ c, In c (ownedIds doc n) → copy1 (getNode doc c) = copy2 (getNode doc c)) →
  cascade copy1 doc n = cascade copy2 doc n.
Proof.
  intros H. unfold cascade. apply forEachO_ext. intros nodes prop Hp.
  destruct (cascades prop) eqn:Ec; [|reflexivity].
  destruct (referenced _ _) as [ids|] eqn:Er; [|reflexivity].
  apply forEachO_ext. intros nodes' c Hc.
  rewrite (H c); [reflexivity|]. apply In_ownedIds. eauto 10.
Qed.

Lemma cascade_total copy (doc : Document.t) (n : Node) :
  (∀ c, In c (ownedIds doc n) → copy (getNode doc c) ≠ None) →
  cascade copy doc n ≠ None.
Proof.
  intros H. unfold cascade. apply forEachO_total. intros nodes prop Hp.
  destruct (cascades prop) eqn:Ec; [|discriminate].
  destruct (referenced _ _) as [ids|] eqn:Er; [|discriminate].
  apply forEachO_total. intros nodes' c Hc.
  assert (Hn : copy (getNode doc c) ≠ None) by (apply H, In_ownedIds; eauto 10).
  destruct (copy (getNode doc c)) as [[sub|e]|]; [discriminate|discriminate|contradiction].
Qed.

Lemma cascade_Ok_child copy (doc : Document.t) (n : Node) (r : list NodeData) (c : string) :
  cascade copy doc n = Some (Ok r) → In c (ownedIds doc n) →
  ∃ sub, copy (getNode doc c) = Some (Ok sub).
Proof.
  intros H Hc. apply In_ownedIds in Hc as [prop [ids [Hp [Ec [Er Hc]]]]].
  unfold cascade in H.
  destruct (forEachO_Ok_inv _ _ _ _ prop H Hp) as [s1 [s2 Hs]].
  rewrite Ec, Er in Hs.
  destruct (forEachO_Ok_inv _ _ _ _ c Hs Hc) as [s3 [s4 Hs']].
  destruct (copy (getNode doc c)) as [[sub|e]|]; try discriminate. eauto.
Qed.

Lemma cascade_no_throw copy (doc : Document.t) (n : Node) :
  (∀ prop, In prop (getSchema doc n) → cascades prop = true →
           ∃ ids, referenced prop (field n (pname prop)) = Ok ids
                  ∧ ∀ c e, In c ids → copy (getNode doc c) ≠ Some (Throw e)) →
  ∀ e, cascade copy doc n ≠ Some (Throw e).
Proof.
  intros H. unfold cascade. apply forEachO_no_throw. intros nodes prop e Hp.
  destruct (cascades prop) eqn:Ec; [|discriminate].
  destruct (H prop Hp Ec) as [ids [Er Hids]]. rewrite Er.
  apply forEachO_no_throw. intros nodes' c e' Hc.
  pose proof (Hids c e' Hc) as Hn.
  destruct (copy (getNode doc c)) as [[sub|e'']|]; [discriminate| |discriminate].
  intros [= ->]. by apply Hn.
Qed.
Lemma copyNode_unfold (fuel : nat) (doc : Document.t) (a : string) (n : Node) :
  _copyNode (S fuel) doc (Some (a, n))
  = match cascade (_copyNode fuel doc) doc n with
    | Some (Ok nodes) =>
        Some (Ok (nodes ++ [(a, n)]
                  ++ map AnnotationIndex.toJSON (AnnotationIndex.getNode doc a)))
    | other => other
    end.
Proof. reflexivity. Qed.

Lemma getNode_Some (doc : Document.t) (a : string) (d : NodeData) :
  getNode doc a = Some d ↔ ∃ n, Document.get doc a = Some n ∧ d = (a, n).
Proof.
  unfold getNode. destruct (Document.get doc a) as [n|].
  - split; [intros [= <-]; eauto | intros [n' [[= <-] ->]]; reflexivity].
  - split; [discriminate | intros [n' [? _]]; discriminate].
Qed.

(** One bound on the depth serves all the nodes of a list. *)
Lemma uniform_fuel (doc : Document.t) (l : list string) :
  (∀ c, In c l → ∃ fuel r, ∀ k, _copyNode (fuel + k) doc (getNode doc c) = Some r) →
  ∃ fuel, ∀ c, In c l → ∃ r, ∀ k, _copyNode (fuel + k) doc (getNode doc c) = Some r.
Proof.
  induction l as [|c l IH]; intros H.
  - exists 0%nat. intros c [].
  - destruct IH as [F HF]; [intros c' Hc'; apply H; by right|].
    destruct (H c (or_introl eq_refl)) as [fc [rc Hc]].
    exists (Nat.max fc F). intros c' [<-|Hc'].
    + exists rc. intros k.
      replace (Nat.max fc F + k)%nat with (fc + (Nat.max fc F - fc + k))%nat by lia.
      apply Hc.
    + destruct (HF c' Hc') as [r Hr]. exists r. intros k.
      replace (Nat.max fc F + k)%nat with (F + (Nat.max fc F - F + k))%nat by lia.
      apply Hr.
Qed.

(** On an ownership tree [_copyNode] comes back, with the same outcome for
    every budget from some depth on. *)
Lemma copyNode_terminates (doc : Document.t) (a : string) :
  ownershipTree doc a →
  ∃ fuel r, ∀ k, _copyNode (fuel + k) doc (getNode doc a) = Some r.
Proof.
  induction 1 as [a _ IH].
  destruct (getNode doc a) as [[a' n]|] eqn:E.
  - apply getNode_Some in E as [n' [Hget Heq]]. injection Heq as -> ->.
    destruct (uniform_fuel doc (ownedIds doc n')) as [F HF].
    { intros c Hc. apply IH. by exists n'. }
    assert (Hsame : ∀ k, cascade (_copyNode (F + k) doc) doc n'
                         = cascade (_copyNode (F + 0) doc) doc n').
    { intros k. apply cascade_ext. intros c Hc.
      destruct (HF c Hc) as [r Hr]. by rewrite !Hr. }
    assert (Hsome : cascade (_copyNode (F + 0) doc) doc n' ≠ None).
    { apply cascade_total. intros c Hc. destruct (HF c Hc) as [r Hr]. by rewrite Hr. }
    destruct (cascade (_copyNode (F + 0) doc) doc n') as [r0|] eqn:E0; [|contradiction].
    exists (S F).
    destruct r0 as [nodes|msg]; eexists; intros k; simpl Nat.add;
      rewrite copyNode_unfold, Hsame; reflexivity.
  - exists 1%nat, typeError. intros k. reflexivity.
Qed.

(** A node is copied only after every node it owns was copied, one level
    deeper. *)
Lemma child_success (doc : Document.t) (fuel : nat) (a c : string) (r : list NodeData) :
  _copyNode fuel doc (getNode doc a) = Some (Ok r) → owns doc a c →
  ∃ fuel' r', fuel = S fuel' ∧ _copyNode fuel' doc (getNode doc c) = Some (Ok r').
Proof.
  intros H [n [Hget Hc]]. destruct fuel as [|fuel]; [discriminate|].
  assert (E : getNode doc a = Some (a, n)) by (apply getNode_Some; eauto).
  rewrite E, copyNode_unfold in H.
  destruct (cascade (_copyNode fuel doc) doc n) as [[nodes|e]|] eqn:Ec; try discriminate.
  destruct (cascade_Ok_child _ _ _ _ c Ec Hc) as [sub Hsub]. eauto.
Qed.

Lemma descendant_success (doc : Document.t) (a b : string) :
  ownsPlus doc a b →
  ∀ fuel r, _copyNode fuel doc (getNode doc a) = Some (Ok r) →
  ∃ fuel' r', (fuel' < fuel)%nat ∧ _copyNode fuel' doc (getNode doc b) = Some (Ok r').
Proof.
  induction 1 as [a c Hac | a b c Hab _ IH]; intros fuel r H.
  - destruct (child_success _ _ _ _ _ H Hac) as [f' [r' [-> Hr]]].
    exists f', r'. split; [lia | assumption].
  - destruct (child_success _ _ _ _ _ H Hab) as [f' [r' [-> Hr]]].
    destruct (IH _ _ Hr) as [f'' [r'' [Hlt Hr'']]].
    exists f'', r''. split; [lia | assumption].
Qed.

(** With a cycle of owning references through it, a node is never copied,
    whatever the budget. *)
Lemma cycle_never_returns (doc : Document.t) (a : string) :
  ownsPlus doc a a → ∀ fuel r, _copyNode fuel doc (getNode doc a) ≠ Some (Ok r).
Proof.
  intros Hcyc fuel. induction fuel as [fuel IH] using lt_wf_ind. intros r H.
  destruct (descendant_success _ _ _ Hcyc _ _ H) as [f' [r' [Hlt Hr']]].
  exact (IH f' Hlt r' Hr').
Qed.

(** In a document without dangling or ill-typed owning references the
    model of [_copyNode] has nothing to throw. *)
Lemma wellLinked_no_throw (doc : Document.t) :
  wellLinked doc →
  ∀ fuel a n e, Document.get doc a = Some n →
                _copyNode fuel doc (Some (a, n)) ≠ Some (Throw e).
Proof.
  intros Hwl fuel. induction fuel as [|fuel IH]; intros a n e Hget; [discriminate|].
  rewrite copyNode_unfold.
  assert (Hc : ∀ e', cascade (_copyNode fuel doc) doc n ≠ Some (Throw e')).
  { apply cascade_no_throw. intros prop Hp Ec.
    destruct (Hwl a n prop Hget Hp Ec) as [ids [Er Hids]].
    exists ids. split; [assumption|]. intros c e' Hin.
    destruct (Hids c Hin) as [n' Hn'].
    assert (E : getNode doc c = Some (c, n')) by (apply getNode_Some; eauto).
    rewrite E. by apply IH. }
  destruct (cascade (_copyNode fuel doc) doc n) as [[nodes|e']|]; try discriminate.
  by destruct (Hc e').
Qed.

Lemma ownsPlus_source (doc : Document.t) (a b : string) :
  ownsPlus doc a b → ∃ n, Document.get doc a = Some n.
Proof. intros [a' c [n [H _]] | a' b' c [n [H _]] _]; eauto. Qed.

(** No cycle is detected: in a well-linked document, a node on a cycle of
    owning references makes the recursion exceed every budget. *)
Lemma cycle_exceeds_every_budget (doc : Document.t) (a : string) :
  wellLinked doc → ownsPlus doc a a →
  ∀ fuel, _copyNode fuel doc (getNode doc a) = None.
Proof.
  intros Hwl Hcyc fuel.
  destruct (ownsPlus_source _ _ _ Hcyc) as [n Hget].
  assert (E : getNode doc a = Some (a, n)) by (apply getNode_Some; eauto).
  pose proof (cycle_never_returns doc a Hcyc fuel) as Hok.
  pose proof (wellLinked_no_throw doc Hwl fuel a n) as Hth.
  rewrite E in *. destruct (_copyNode fuel doc (Some (a, n))) as [[r|e]|].
  - by destruct (Hok r).
  - by destruct (Hth e Hget).
  - reflexivity.
Qed.

End CopyNodeFacts.

(* ===================================================================== *)
(** * Creating the clipped annotations *)
(* ===================================================================== *)

Module CopyPropertyFacts.
Import Document Copy.

Lemma forEachR_create_clipped (s e : Z) (l : list PropertyAnnotation.t) (snippet : Document.t) :
  NoDup (PropertyAnnotation.id <$> l) →
  (∀ a, a ∈ l → nodes snippet !! PropertyAnnotation.id a = None) →
  forEachR (fun sn a => create sn (clipped s e a)) l snippet
  = Ok (mkDoc (foldl (insertClipped s e) (nodes snippet) l)
              (container snippet) (schema snippet)).
Proof.
  revert snippet. induction l as [|a l IH]; intros snippet Hnd Hfresh; simpl.
  - by destruct snippet.
  - apply NoDup_cons in Hnd as [Ha Hnd].
    unfold create at 1. simpl. rewrite (Hfresh a) by left. simpl.
    rewrite IH; [reflexivity | assumption |].
    intros a' Ha'. simpl. rewrite lookup_insert_ne.
    + apply Hfresh. by right.
    + intros E. apply Ha. rewrite E. apply list_elem_of_fmap. eauto.
Qed.

Lemma foldl_insertClipped_notin (s e : Z) (l : list PropertyAnnotation.t)
    (m : gmap string Node) (k : string) :
  k ∉ PropertyAnnotation.id <$> l →
  foldl (insertClipped s e) m l !! k = m !! k.
Proof.
  revert m. induction l as [|a l IH]; intros m Hk; simpl; [reflexivity|].
  rewrite fmap_cons, not_elem_of_cons in Hk. destruct Hk as [Hk1 Hk2].
  rewrite IH by assumption. unfold insertClipped. by rewrite lookup_insert_ne.
Qed.

Lemma foldl_insertClipped_in (s e : Z) (l : list PropertyAnnotation.t)
    (m : gmap string Node) (a : PropertyAnnotation.t) :
  NoDup (PropertyAnnotation.id <$> l) → a ∈ l →
  foldl (insertClipped s e) m l !! PropertyAnnotation.id a = Some (clipped s e a).2.
Proof.
  revert m. induction l as [|a' l IH]; intros m Hnd Ha; [by apply elem_of_nil in Ha|].
  rewrite fmap_cons in Hnd. apply NoDup_cons in Hnd as [Ha' Hnd].
  apply elem_of_cons in Ha as [->|Ha]; simpl.
  - rewrite foldl_insertClipped_notin by assumption.
    unfold insertClipped. by rewrite lookup_insert_eq.
  - by apply IH.
Qed.

End CopyPropertyFacts.

(* ===================================================================== *)
(** * Copying a container selection *)
(* ===================================================================== *)

Module CopyContainerFacts.
Import Document Copy CopyNodeFacts.

Lemma forEachO_invariant {A S} (f : S → A → option (Result S)) (P : S → list A → Prop)
    (l : list A) :
  (∀ s pre x s', P s pre → f s x = Some (Ok s') → P s' (pre ++ [x])) →
  ∀ pre s s', P s pre → forEachO f l s = Some (Ok s') → P s' (pre ++ l).
Proof.
  intros Hstep. induction l as [|x l IH]; intros pre s s' HP H; simpl in H.
  - injection H as <-. by rewrite app_nil_r.
  - destruct (f s x) as [[s1|e]|] eqn:E; try discriminate.
    rewrite (cons_middle x pre l), app_assoc. eapply IH; [|exact H].
    by eapply Hstep.
Qed.

Lemma forEachR_invariant {A S} (f : S → A → Result S) (P : S → list A → Prop)
    (l : list A) :
  (∀ s pre x s', P s pre → f s x = Ok s' → P s' (pre ++ [x])) →
  ∀ pre s s', P s pre → forEachR f l s = Ok s' → P s' (pre ++ l).
Proof.
  intros Hstep. induction l as [|x l IH]; intros pre s s' HP H; simpl in H.
  - injection H as <-. by rewrite app_nil_r.
  - destruct (f s x) as [s1|e] eqn:E; try discriminate. simpl in H.
    rewrite (cons_middle x pre l), app_assoc. eapply IH; [|exact H].
    by eapply Hstep.
Qed.

Lemma forEachO_rule {A S} (f : S → A → option (Result S)) (P : S → list A → Prop)
    (l : list A) (s s' : S) :
  P s [] →
  (∀ s pre x s', P s pre → f s x = Some (Ok s') → P s' (pre ++ [x])) →
  forEachO f l s = Some (Ok s') → P s' l.
Proof. intros H0 Hstep H. by apply (forEachO_invariant f P l Hstep [] s s'). Qed.

Lemma forEachR_rule {A S} (f : S → A → Result S) (P : S → list A → Prop)
    (l : list A) (s s' : S) :
  P s [] →
  (∀ s pre x s', P s pre → f s x = Ok s' → P s' (pre ++ [x])) →
  forEachR f l s = Ok s' → P s' l.
Proof. intros H0 Hstep H. by apply (forEachR_invariant f P l Hstep [] s s'). Qed.

Lemma create_container (doc doc' : Document.t) (d : NodeData) :
  create doc d = Ok doc' → container doc' = container doc.
Proof.
  unfold create. destruct (nodes doc !! d.1); [discriminate|]. by intros [= <-].
Qed.

(** After the loop over the copies, the container is as before and the ids
    of all the copies are marked. *)
Lemma createAll_spec (created : gset string) (snippet : Document.t)
    (datas : list NodeData) (r : Document.t * gset string) :
  createAll created snippet datas = Ok r →
  container r.1 = container snippet
  ∧ ∀ i, i ∈ r.2 ↔ i ∈ created ∨ i ∈ datas.*1.
Proof.
  unfold createAll. intros H.
  eapply (forEachR_rule _
            (fun (st : Document.t * gset string) (pre : list NodeData) =>
               container st.1 = container snippet
               ∧ ∀ i, i ∈ st.2 ↔ i ∈ created ∨ i ∈ pre.*1));
    [| |exact H].
  - simpl. split; [reflexivity|]. intros i. rewrite elem_of_nil. tauto.
  - intros [sn cr] pre d [sn' cr'] [Hc Hm] Hstep. simpl in *.
    destruct (create sn d) as [copy|] eqn:E; [|discriminate].
    simpl in Hstep. injection Hstep as <- <-. split.
    + rewrite <- Hc. by eapply create_container.
    + intros i. rewrite fmap_app, elem_of_app, elem_of_union, Hm. simpl.
      rewrite elem_of_singleton, list_elem_of_singleton. tauto.
Qed.

Lemma copyNode_has_root (fuel : nat) (doc : Document.t) (a : string) (n : Node)
    (datas : list NodeData) :
  _copyNode fuel doc (Some (a, n)) = Some (Ok datas) → a ∈ datas.*1.
Proof.
  destruct fuel as [|fuel]; [discriminate|]. rewrite copyNode_unfold.
  destruct (cascade _ _ _) as [[nodes|e]|]; try discriminate.
  intros [= <-]. rewrite fmap_app, elem_of_app. right. simpl. apply list_elem_of_here.
Qed.

Lemma owners_snoc (pre : list Fragment) (f : Fragment) :
  owners (pre ++ [f]) = owners pre ++ from_option (fun i => [i]) [] (head (fpath f)).
Proof.
  unfold owners. rewrite omap_app. simpl. by destruct (head (fpath f)).
Qed.

(** The loop over the fragments shows a node at most once, and in the
    order of the fragments. *)
Lemma copyFragments_shown_once (fuel : nat) (doc snippet0 : Document.t)
    (fragments : list Fragment) (st : Document.t * gset string) :
  container snippet0 = [] →
  forEachO (copyFragment fuel doc) fragments (snippet0, ∅) = Some (Ok st) →
  NoDup (container st.1) ∧ container st.1 `sublist_of` owners fragments.
Proof.
  intros H0 H.
  cut (NoDup (container st.1)
       ∧ container st.1 `sublist_of` owners fragments
       ∧ ∀ i, i ∈ container st.1 → i ∈ st.2); [tauto|].
  eapply (forEachO_rule (copyFragment fuel doc)
            (fun (st : Document.t * gset string) (pre : list Fragment) =>
               NoDup (container st.1)
               ∧ container st.1 `sublist_of` owners pre
               ∧ ∀ i, i ∈ container st.1 → i ∈ st.2));
    [| |exact H]; cycle 1.
  - intros [sn cr] pre f [sn' cr'] [Hnd [Hsub Hin]] Hstep. simpl in *.
    rewrite owners_snoc. unfold copyFragment in Hstep.
    destruct (head (fpath f)) as [nodeId|]; [|discriminate]. simpl in *.
    case_bool_decide as Hcr.
    + injection Hstep as <- <-. split; [assumption|]. split; [|assumption].
      by apply sublist_inserts_r.
    + destruct (_copyNode fuel doc (getNode doc nodeId)) as [[datas|e]|] eqn:Ec;
        try discriminate.
      destruct (createAll cr sn datas) as [r|e] eqn:Ea; [|discriminate].
      simpl in Hstep. injection Hstep as <- <-.
      apply createAll_spec in Ea as [Hcont Hmark]. simpl. rewrite Hcont.
      split; [|split].
      * apply NoDup_app. split; [assumption|]. split; [|apply NoDup_singleton].
        intros i Hi Hi'. apply list_elem_of_singleton in Hi'. subst i. auto.
      * by apply sublist_app.
      * intros i Hi. apply Hmark. apply elem_of_app in Hi as [Hi|Hi]; [auto|].
        apply list_elem_of_singleton in Hi. subst i. right.
        destruct (getNode doc nodeId) as [[a n]|] eqn:Eg.
        -- apply getNode_Some in Eg as [n' [_ [= -> ->]]].
           by eapply copyNode_has_root.
        -- destruct fuel; discriminate.
  - simpl. rewrite H0. split; [constructor|]. split; [constructor|].
    intros i Hi. by apply elem_of_nil in Hi.
Qed.

Lemma update_delete_container (doc doc' : Document.t) (p : Path) (a b : Z) :
  update_delete doc p a b = Ok doc' → container doc' = container doc.
Proof.
  unfold update_delete. destruct p as [|id [|name [|? ?]]]; try discriminate.
  destruct (nodes doc !! id) as [[ty fs|? ? ? ?]|]; try discriminate.
  destruct (assoc name fs); try discriminate. by intros [= <-].
Qed.

Lemma trimFirst_container (f : Fragment) (snippet snippet' : Document.t) :
  trimFirst f snippet = Ok snippet' → container snippet' = container snippet.
Proof.
  unfold trimFirst. destruct (isSelectionFragment f); [|by intros [= <-]].
  destruct (update_delete _ _ _ _) as [sn|] eqn:Eu; [|discriminate].
  intros [= <-]. simpl. by eapply update_delete_container.
Qed.

Lemma trimLast_container (doc : Document.t) (f : Fragment) (snippet snippet' : Document.t) :
  trimLast doc f snippet = Ok snippet' → container snippet' = container snippet.
Proof.
  unfold trimLast. destruct (isSelectionFragment f); [|by intros [= <-]].
  destruct (lengthOf _) as [len|]; [|discriminate]. simpl.
  destruct (update_delete _ _ _ _) as [sn|] eqn:Eu; [|discriminate].
  intros [= <-]. simpl. by eapply update_delete_container.
Qed.

(** Whenever the copy of a container selection is made, its container
    shows the owner of a fragment at most once, and the nodes it shows
    follow the order of the fragments. *)
Lemma container_copy_shows_each_node_once (fuel : nat) (sel : Selection)
    (w w' : World) (snippet : Document.t) :
  isNull sel = false → isCollapsed sel = false →
  isPropertySelection sel = false → isContainerSelection sel = true →
  copySelection fuel (Some sel) w = Some (Ok (Some snippet), w') →
  NoDup (container snippet)
  ∧ container snippet `sublist_of` owners (getFragments sel).
Proof.
  intros Hn Hc Hp Hk. unfold copySelection. rewrite Hn, Hc, Hp, Hk. simpl.
  unfold _copyContainerSelection, bind, theDocument, createSnippet, ret, liftO, liftR.
  destruct (getFragments sel) as [|f0 fs] eqn:Ef.
  - intros Heq; inversion Heq; subst. simpl. split; constructor.
  - destruct (forEachO _ (f0 :: fs) _) as [[st|e]|] eqn:Eloop; try discriminate.
    apply copyFragments_shown_once in Eloop as Hshown; [|reflexivity].
    destruct (trimFirst f0 st.1) as [sn1|] eqn:E1; [|discriminate].
    destruct (trimLast _ _ sn1) as [sn2|] eqn:E2; [|discriminate].
    intros Heq; inversion Heq; subst.
    apply trimFirst_container in E1. apply trimLast_container in E2.
    rewrite E2, E1. exact Hshown.
Qed.

Lemma assoc_setAssoc (k : string) (v : Value) (fs : list (string * Value)) :
  assoc k (setAssoc k v fs) = v.
Proof.
  induction fs as [|[k' v'] fs IH]; simpl.
  - by rewrite String.eqb_refl.
  - destruct (String.eqb k k') eqn:E; simpl; rewrite ?String.eqb_refl, ?E; auto.
Qed.

Lemma deletedText_Plain (doc : Document.t) (p : Path) (a b : Z) (id ty : string)
    (fs : list (string * Value)) :
  nodes doc !! id = Some (Plain ty fs) →
  nodes (annotationHelpers.deletedText doc p a b) !! id = Some (Plain ty fs).
Proof. intros H. unfold annotationHelpers.deletedText. simpl. by rewrite lookup_omap, H. Qed.

(** Deleting a range of the text of a node that holds one. *)
Lemma update_delete_text (doc : Document.t) (id name ty : string)
    (fs : list (string * Value)) (t : string) (a b : Z) :
  nodes doc !! id = Some (Plain ty fs) → assoc name fs = VString t →
  ∃ doc', update_delete doc [id; name] a b = Ok doc'
          ∧ nodes doc' !! id
            = Some (Plain ty (setAssoc name (VString (deleteRange t a b)) fs)).
Proof.
  intros Hn Ht. unfold update_delete. rewrite Hn, Ht. eexists. split; [reflexivity|].
  simpl. by rewrite lookup_insert_eq.
Qed.

(** The two trimming steps on one and the same property: the second
    deletion takes its range [[e, length)] from the source text and applies
    it to the text that has already lost its first [s] characters.  What is
    left are the [e] characters from [s] on, not the [e - s] selected ones. *)
Lemma trim_same_property (doc snippet : Document.t) (id name ty : string)
    (fs : list (string * Value)) (t : string) (s e : Z) :
  nodes snippet !! id = Some (Plain ty fs) → assoc name fs = VString t →
  getProperty doc [id; name] = VString t →
  0 <= s <= e → e <= strlen t →
  let f := mkFragment SelectionFragment [id; name] s e in
  ∃ snippet',
    (let! sn := trimFirst f snippet in trimLast doc f sn) = Ok snippet'
    ∧ getProperty snippet' [id; name]
      = VString (str (take (Z.to_nat e) (drop (Z.to_nat s) (chars t)))).
Proof.
  intros Hn Ht Hdoc Hse He f. subst f. unfold trimFirst, trimLast.
  cbn [isSelectionFragment ftype fpath startOffset endOffset]. rewrite Hdoc.
  cbn [lengthOf bindR].
  destruct (update_delete_text snippet id name ty fs t 0 s Hn Ht) as [sn1 [E1 Hn1]].
  rewrite E1. cbn [bindR].
  apply (deletedText_Plain _ [id; name] 0 s) in Hn1.
  destruct (update_delete_text _ id name ty _ _ e (strlen t) Hn1
              (assoc_setAssoc name _ fs)) as [sn2 [E2 Hn2]].
  rewrite E2. cbn [bindR]. eexists. split; [reflexivity|].
  apply (deletedText_Plain _ [id; name] e (strlen t)) in Hn2.
  unfold getProperty, Document.get. rewrite Hn2. simpl. rewrite assoc_setAssoc.
  f_equal. unfold deleteRange. rewrite StringFacts.chars_str. simpl.
  rewrite (drop_ge (drop _ _)), app_nil_r.
  - by rewrite Z.max_r by lia.
  - rewrite length_drop. unfold strlen in *. lia.
Qed.

End CopyContainerFacts.

(* ===================================================================== *)
(** * PropertyAnnotation: range updates and containment *)
(* ===================================================================== *)

Module PropertyAnnotationFacts.
Import PropertyAnnotation Samples.

(** C8. For every annotation and property selection, [_updateRange] adds
    to the transaction exactly the writes of the components that changed:
    the path iff it differs (element by element) from the current path of
    the annotation, the start offset iff it differs, the end offset iff it
    differs, in this order, and nothing for a component that is unchanged. *)
Theorem updateRange_writes_only_changes (this : t) (tx : list TxSet) (sel : Selection) :
  isPropertySelection sel = true →
  _updateRange this tx sel
  = Ok (tx ++ pathWrite this sel ++ startWrite this sel ++ endWrite this sel).
Proof.
  intros Hp. unfold _updateRange, pathWrite, startWrite, endWrite.
  rewrite Hp. simpl. rewrite isArrayEqual_decide.
  destruct (decide (path (astart this) = path (start sel))) as [E1|E1];
    [rewrite (bool_decide_eq_true_2 _ E1) | rewrite (bool_decide_eq_false_2 _ E1)];
    destruct (Z.eqb_spec (offset (astart this)) (offset (start sel)));
    destruct (Z.eqb_spec (offset (aend this)) (offset (end_ sel)));
    repeat case_decide; try contradiction; simpl;
    rewrite ?app_nil_r, <- ?app_assoc; reflexivity.
Qed.

Lemma updateRange_writes_only_changes_witness :
  _updateRange strong1 [] (propertySelection ["p1"; "content"] 10 25 "body")
  = Ok [mkSet ["s1"; "end"; "offset"] (TxNumber 25)].
Proof.
  exact (updateRange_writes_only_changes strong1 []
           (propertySelection ["p1"; "content"] 10 25 "body") eq_refl).
Defined.

(** C7. [isInsideOf(sel, strict)] returns false for a null selection; for
    a property selection it returns a boolean that is true iff the paths
    are equal and the offsets of the annotation lie inside those of the
    selection, strictly when [strict] and inclusively otherwise; for any
    other kind it throws nothing, prints one warning and returns
    [undefined], which is falsy: no containment. *)
Theorem isInsideOf_cases (this : t) (sel : Selection) (strict : bool) :
  (isNull sel = true → isInsideOf this sel strict = (JSBool false, []))
  ∧ (isNull sel = false → isPropertySelection sel = true →
     ∃ b, isInsideOf this sel strict = (JSBool b, [])
          ∧ (b = true ↔ inside this sel strict))
  ∧ (isNull sel = false → isPropertySelection sel = false →
     ∃ msg, isInsideOf this sel strict = (JSUndefined, [ConsoleWarn msg])
            ∧ truthy (isInsideOf this sel strict).1 = false).
Proof.
  unfold isInsideOf, inside. repeat split.
  - intros ->. reflexivity.
  - intros -> ->. destruct strict; eexists; (split; [reflexivity|]);
      rewrite !andb_true_iff, isArrayEqual_spec,
        ?Z.gtb_lt, ?Z.ltb_lt, ?Z.geb_le, ?Z.leb_le; tauto.
  - intros -> ->. eexists. split; reflexivity.
Qed.

Lemma isInsideOf_cases_witness :
  isInsideOf strong1 nullSelection true = (JSBool false, [])
  ∧ (∃ b, isInsideOf strong1 (propertySelection ["p1"; "content"] 10 19 "body") false
          = (JSBool b, [])
          ∧ (b = true ↔ inside strong1 (propertySelection ["p1"; "content"] 10 19 "body") false))
  ∧ truthy (isInsideOf strong1 (nodeSelection "p1" true "body") false).1 = false.
Proof.
  split; [|split].
  - exact (proj1 (isInsideOf_cases strong1 nullSelection true) eq_refl).
  - exact (proj1 (proj2 (isInsideOf_cases strong1
                           (propertySelection ["p1"; "content"] 10 19 "body") false))
                 eq_refl eq_refl).
  - destruct (proj2 (proj2 (isInsideOf_cases strong1 (nodeSelection "p1" true "body") false))
                    eq_refl eq_refl) as [msg [_ H]].
    exact H.
Defined.

End PropertyAnnotationFacts.

(* ===================================================================== *)
(** * Contract violations *)
(* ===================================================================== *)

Module ContractFacts.
Import XNode Samples.

(** C5 (as the claim states it, refuted). A text node is built by the
    constructor without a children list; [insertBefore] on it, with a
    reference that is no child of it, throws nothing and leaves the heap
    as it was. *)
Lemma insertBefore_silent_on_text_node :
  new_XNode ElementType.Text (mkArgs (Some 0%nat) None (Some "abc") None None)
  = Ok (mk "text" (Some 0%nat) None (Some "abc") None None None None None)
  ∧ children (sampleHeap !!! 2%nat) = None
  ∧ insertBefore noPrepend sampleHeap 2%nat 3%nat 1%nat = Ok sampleHeap.
Proof. repeat split. Qed.

(** C5 (amended). [_updateRange] throws for every selection that is not a
    property selection, and writes nothing.  [insertBefore] throws for
    every reference that is not among the children of a node that has a
    children list; on a node without a children list (text, comment,
    CDATA, directive: the nodes the constructor builds without one) it
    does nothing and returns. *)
Theorem contract_violations_throw :
  (∀ this tx sel,
     isPropertySelection sel = false →
     PropertyAnnotation._updateRange this tx sel
     = Throw "Invalid argument: PropertyAnnotation._updateRange() requires a PropertySelection.")
  ∧ (∀ prepend h this newChild before cs,
       children (h !!! this) = Some cs → ¬ In before cs →
       insertBefore prepend h this newChild before
       = Throw "insertBefore(): reference node is not a child of this element.")
  ∧ (∀ prepend h this newChild before,
       children (h !!! this) = None →
       insertBefore prepend h this newChild before = Ok h)
  ∧ (∀ type args n,
       new_XNode type args = Ok n →
       (children n = None
        ↔ type = "text" ∨ type = "comment" ∨ type = "cdata" ∨ type = "directive")).
Proof.
  split; [|split; [|split]].
  - intros this tx sel Hp. unfold PropertyAnnotation._updateRange. by rewrite Hp.
  - intros prepend h this newChild before cs Hc Hn. unfold insertBefore.
    rewrite Hc. apply XNodeFacts.indexOf_absent in Hn. by rewrite Hn.
  - intros prepend h this newChild before Hc. unfold insertBefore. by rewrite Hc.
  - intros type args n. unfold new_XNode, ElementType.Tag, ElementType.Text,
      ElementType.Comment, ElementType.CDATA, ElementType.Directive.
    destruct (String.eqb_spec type ""); [discriminate|].
    destruct (negb (type =? "document")%string && _); [discriminate|].
    destruct (String.eqb_spec type "tag") as [->|Htag].
    { destruct (falsyStr _); [discriminate|]. intros [= <-]. simpl.
      split; [discriminate | intros [?|[?|[?|?]]]; discriminate]. }
    destruct (String.eqb_spec type "text") as [->|Htext].
    { intros [= <-]. simpl. tauto. }
    destruct (String.eqb_spec type "comment") as [->|Hcomment].
    { intros [= <-]. simpl. tauto. }
    destruct (String.eqb_spec type "cdata") as [->|Hcdata].
    { intros [= <-]. simpl. tauto. }
    simpl.
    destruct (String.eqb_spec type "directive") as [->|Hdir].
    { intros [= <-]. simpl. tauto. }
    destruct (String.eqb_spec type "document") as [->|Hdoc].
    { destruct (args_format args) as [f|]; [|discriminate].
      destruct (String.eqb f ""); [discriminate|].
      destruct (String.eqb f "xml" || String.eqb f "html"); [|discriminate].
      intros [= <-]. simpl.
      split; [discriminate | intros [?|[?|[?|?]]]; discriminate]. }
    intros [= <-]. simpl. split; [discriminate | tauto].
Qed.

Lemma contract_violations_throw_witness :
  PropertyAnnotation._updateRange strong1 []
    (nodeSelection "p1" true "body")
  = Throw "Invalid argument: PropertyAnnotation._updateRange() requires a PropertySelection."
  ∧ insertBefore noPrepend sampleHeap 1%nat 3%nat 0%nat
    = Throw "insertBefore(): reference node is not a child of this element."
  ∧ insertBefore noPrepend sampleHeap 2%nat 3%nat 1%nat = Ok sampleHeap.
Proof.
  destruct contract_violations_throw as [H1 [H2 [H3 _]]].
  split; [|split].
  - apply H1. reflexivity.
  - apply (H2 noPrepend sampleHeap 1%nat 3%nat 0%nat [2%nat]).
    + reflexivity.
    + simpl. lia.
  - apply H3. reflexivity.
Defined.

End ContractFacts.

(* ===================================================================== *)
(** * copySelection: what is not copied *)
(* ===================================================================== *)

Module CopyFacts.
Import Document Copy Samples.

(** C6. For every selection that is not null, not collapsed and of none of
    the three supported kinds, [copySelection] returns null; no snippet was
    created, the source document is as it was, nothing was thrown, and
    the console got exactly one error line about the unsupported kind. *)
Theorem copySelection_unsupported_kind (fuel : nat) (sel : Selection) (w : World) :
  isNull sel = false → isCollapsed sel = false →
  isPropertySelection sel = false → isContainerSelection sel = false →
  isNodeSelection sel = false →
  copySelection fuel (Some sel) w
  = Some (Ok None,
          mkWorld (document w) (snippetsCreated w)
                  (console w ++ [ConsoleError "Copy is not yet supported for selection type."])).
Proof.
  intros Hn Hc Hp Hk Hd. unfold copySelection.
  rewrite Hn, Hc, Hp, Hk, Hd. reflexivity.
Qed.

Lemma copySelection_unsupported_kind_witness :
  copySelection 0 (Some (customSelection false "body")) sampleWorld
  = Some (Ok None,
          mkWorld sampleDoc 0
                  [ConsoleError "Copy is not yet supported for selection type."]).
Proof.
  exact (copySelection_unsupported_kind 0 (customSelection false "body") sampleWorld
           eq_refl eq_refl eq_refl eq_refl eq_refl).
Defined.

(** C10. Without a selection argument [copySelection] throws
    ['selection' is mandatory.]; for every selection that is null or
    collapsed it returns null, and the world is untouched: no snippet
    created, the source document unchanged, nothing printed. *)
Theorem copySelection_mandatory_and_empty (fuel : nat) (w : World) :
  copySelection fuel None w = Some (Throw "'selection' is mandatory.", w)
  ∧ ∀ sel, isNull sel = true ∨ isCollapsed sel = true →
           copySelection fuel (Some sel) w = Some (Ok None, w).
Proof.
  split; [reflexivity|].
  intros sel [H|H]; unfold copySelection; rewrite H; simpl;
    rewrite ?andb_false_r; reflexivity.
Qed.

Lemma copySelection_mandatory_and_empty_witness :
  copySelection 0 (Some nullSelection) sampleWorld = Some (Ok None, sampleWorld)
  ∧ copySelection 0 (Some (propertySelection ["p1"; "content"] 2 2 "body")) sampleWorld
    = Some (Ok None, sampleWorld).
Proof.
  split.
  - apply (proj2 (copySelection_mandatory_and_empty 0 sampleWorld)). left. reflexivity.
  - apply (proj2 (copySelection_mandatory_and_empty 0 sampleWorld)). right. reflexivity.
Defined.

End CopyFacts.

(* ===================================================================== *)
(** * copySelection: a property selection *)
(* ===================================================================== *)

Module CopyPropertySelection.
Import Document Copy CopyPropertyFacts Samples.

Lemma create_fresh (doc : Document.t) (d : NodeData) :
  nodes doc !! d.1 = None →
  create doc d = Ok (mkDoc (<[d.1 := d.2]> (nodes doc)) (container doc) (schema doc)).
Proof. intros H. unfold create. by rewrite H. Qed.

(** C2. For every property selection [[s, e)] that is not null and not
    collapsed and lies on the text at its path ([0 <= s < e <= length]), in
    a document that does not use the reserved id of the snippet text node,
    [copySelection] returns a snippet, created by one [createSnippet]:
    its container shows the one text node; that node, the only node of the
    snippet that is not an annotation, holds the characters [[s, e)] of
    the text, [e - s] of them; every annotation on the path that overlaps
    [[s, e)] is in the snippet under its id, on the path of the new node,
    from [max 0 (start - s)] to [min (e - s) (end - s)]; and no annotation
    of the document that ends at or before [s], starts at or after [e], or
    is on another path has a copy in the snippet. *)
Theorem copy_property_selection (fuel : nat) (w : World) (sel : Selection)
    (p : Path) (s e : Z) (text : string) :
  isNull sel = false → isCollapsed sel = false → isPropertySelection sel = true →
  start sel = mkCoordinate p s → offset (end_ sel) = e →
  getProperty (document w) p = VString text →
  0 <= s < e → e <= strlen text →
  Document.get (document w) TEXT_SNIPPET_ID = None →
  ∃ snippet,
    copySelection fuel (Some sel) w
    = Some (Ok (Some snippet),
            mkWorld (document w) (S (snippetsCreated w)) (console w))
    ∧ Document.get snippet TEXT_SNIPPET_ID
      = Some (Plain (getDefaultTextType (schema (document w)))
                    [("content", VString (substring text s e))])
    ∧ chars (substring text s e)
      = take (Z.to_nat (e - s)) (drop (Z.to_nat s) (chars text))
    ∧ strlen (substring text s e) = e - s
    ∧ container snippet = [TEXT_SNIPPET_ID]
    ∧ (∀ k ty fs, Document.get snippet k = Some (Plain ty fs) → k = TEXT_SNIPPET_ID)
    ∧ (∀ a, a ∈ AnnotationIndex.all (document w) →
            PropertyAnnotation.path_of a = p →
            offset (PropertyAnnotation.astart a) < e →
            s < offset (PropertyAnnotation.aend a) →
            Document.get snippet (PropertyAnnotation.id a)
            = Some (Anno (PropertyAnnotation.type a)
                         (mkCoordinate [TEXT_SNIPPET_ID; "content"]
                            (Z.max 0 (offset (PropertyAnnotation.astart a) - s)))
                         (mkCoordinate [TEXT_SNIPPET_ID; "content"]
                            (Z.min (e - s) (offset (PropertyAnnotation.aend a) - s)))
                         (PropertyAnnotation.adata a)))
    ∧ (∀ a, a ∈ AnnotationIndex.all (document w) →
            offset (PropertyAnnotation.aend a) <= s
            ∨ e <= offset (PropertyAnnotation.astart a)
            ∨ PropertyAnnotation.path_of a ≠ p →
            ∀ ty c1 c2 d,
              Document.get snippet (PropertyAnnotation.id a) ≠ Some (Anno ty c1 c2 d)).
Proof.
  intros Hnull Hcoll Hprop Hstart Hend Htext Hse Hlen Hfresh.
  set (doc := document w) in *.
  set (l := AnnotationIndex.getRange doc p s e).
  set (base := <[TEXT_SNIPPET_ID :=
                   Plain (getDefaultTextType (schema doc))
                         [("content", VString (substring text s e))]]>
                 (∅ : gmap string Node)).
  assert (Hl : NoDup (PropertyAnnotation.id <$> l))
    by apply IndexFacts.getRange_ids_NoDup.
  assert (Hids : ∀ a, a ∈ l → PropertyAnnotation.id a ≠ TEXT_SNIPPET_ID).
  { intros a Ha E. apply IndexFacts.elem_of_getRange in Ha as [Ha _].
    apply IndexFacts.elem_of_all in Ha. rewrite E in Ha. congruence. }
  assert (Hov : ∀ a, AnnotationIndex.overlaps s e a = true ↔
                     offset (PropertyAnnotation.astart a) < e
                     ∧ s < offset (PropertyAnnotation.aend a)).
  { intros a. unfold AnnotationIndex.overlaps.
    destruct (Z.eqb_spec s e); [lia|].
    rewrite andb_true_iff, Z.ltb_lt, Z.gtb_lt. tauto. }
  exists (mkDoc (foldl (insertClipped s e) base l) [TEXT_SNIPPET_ID] (schema doc)).
  split; [|split; [|split; [|split; [|split; [|split; [|split]]]]]].
  - unfold copySelection. rewrite Hnull, Hcoll, Hprop. simpl.
    unfold _copyPropertySelection, bind, theDocument, createSnippet, liftR, ret.
    rewrite Hstart, Hend. cbn [path offset]. fold doc. rewrite Htext.
    rewrite create_fresh by apply lookup_empty.
    rewrite forEachR_create_clipped; [reflexivity | assumption |].
    intros a Ha. cbn. rewrite lookup_insert_ne by (intros E; by apply (Hids a)).
    apply lookup_empty.
  - unfold Document.get. simpl. rewrite foldl_insertClipped_notin.
    + unfold base. by rewrite lookup_insert_eq.
    + intros Hin. apply list_elem_of_fmap in Hin as [a [E Ha]].
      by apply (Hids a).
  - unfold substring, clampIndex. rewrite StringFacts.chars_str.
    f_equal; [|f_equal]; lia.
  - apply StringFacts.strlen_substring; lia.
  - reflexivity.
  - intros k ty fs. unfold Document.get. simpl.
    destruct (decide (k ∈ PropertyAnnotation.id <$> l)) as [Hin|Hin].
    + apply list_elem_of_fmap in Hin as [a [-> Ha]].
      rewrite foldl_insertClipped_in by assumption. discriminate.
    + rewrite foldl_insertClipped_notin by assumption. unfold base.
      destruct (decide (TEXT_SNIPPET_ID = k)) as [<-|Hne]; [reflexivity|].
      rewrite lookup_insert_ne by assumption. by rewrite lookup_empty.
  - intros a Ha Hp H1 H2. unfold Document.get. simpl.
    rewrite foldl_insertClipped_in; [| assumption |].
    + unfold clipped. simpl. repeat f_equal; lia.
    + apply IndexFacts.elem_of_getRange. rewrite Hov. auto.
  - intros a Ha Hout ty c1 c2 d. unfold Document.get. simpl.
    destruct (decide (PropertyAnnotation.id a ∈ PropertyAnnotation.id <$> l)) as [Hin|Hin].
    + apply list_elem_of_fmap in Hin as [a' [E Ha']].
      pose proof Ha' as Hr. apply IndexFacts.elem_of_getRange in Hr as [Hall [Hp Ho]].
      assert (a = a') as <- by (by apply (IndexFacts.all_inj doc)).
      apply Hov in Ho. destruct Hout as [?|[?|?]]; [lia | lia | contradiction].
    + rewrite foldl_insertClipped_notin by assumption. unfold base.
      destruct (decide (TEXT_SNIPPET_ID = PropertyAnnotation.id a)) as [<-|Hne].
      * rewrite lookup_insert_eq. discriminate.
      * rewrite lookup_insert_ne by assumption. by rewrite lookup_empty.
Qed.

Lemma copy_property_selection_witness :
  ∃ snippet,
    copySelection 0 (Some (propertySelection ["p1"; "content"] 2 4 "body")) sampleWorld
    = Some (Ok (Some snippet), mkWorld sampleDoc 1 [])
    ∧ Document.get snippet TEXT_SNIPPET_ID
      = Some (Plain "paragraph" [("content", VString "cd")])
    ∧ Document.get snippet "s1"
      = Some (Anno "strong" (mkCoordinate [TEXT_SNIPPET_ID; "content"] 0)
                   (mkCoordinate [TEXT_SNIPPET_ID; "content"] 1) []).
Proof.
  destruct (copy_property_selection 0 sampleWorld
              (propertySelection ["p1"; "content"] 2 4 "body")
              ["p1"; "content"] 2 4 "abcdefgh")
    as [snippet [H1 [H2 [_ [_ [_ [_ [H3 _]]]]]]]].
  - reflexivity.
  - reflexivity.
  - reflexivity.
  - reflexivity.
  - reflexivity.
  - vm_compute. reflexivity.
  - lia.
  - vm_compute. discriminate.
  - vm_compute. reflexivity.
  - exists snippet. split; [exact H1|]. split; [exact H2|].
    apply (H3 (PropertyAnnotation.mk "s1" "strong" (mkCoordinate ["p1"; "content"] 1)
                                     (mkCoordinate ["p1"; "content"] 3) [])).
    + apply IndexFacts.elem_of_all. vm_compute. reflexivity.
    + reflexivity.
    + simpl. lia.
    + simpl. lia.
Defined.

End CopyPropertySelection.

(* ===================================================================== *)
(** * copySelection: the cascade over owned nodes *)
(* ===================================================================== *)

Module CopyNodeCascade.
Import Document Copy CopyNodeFacts Samples.

Lemma listDoc_tree : ownershipTree listDoc "l1".
Proof.
  constructor. intros c [n [Hget Hc]].
  vm_compute in Hget. injection Hget as <-. vm_compute in Hc.
  destruct Hc as [<-|[<-|[]]];
    constructor; intros c' [n' [Hget' Hc']];
    vm_compute in Hget'; injection Hget' as <-; destruct Hc'.
Qed.

Lemma cyclicDoc_cycle : ownsPlus cyclicDoc "a" "a".
Proof.
  apply (ownsPlus_step _ "a" "b" "a").
  - eexists. split; [vm_compute; reflexivity | vm_compute; auto].
  - apply ownsPlus_one. eexists. split; [vm_compute; reflexivity | vm_compute; auto].
Qed.

Lemma cyclicDoc_wellLinked : wellLinked cyclicDoc.
Proof.
  intros a n prop Hget Hp Hc. unfold Document.get, cyclicDoc in Hget. simpl in Hget.
  apply lookup_insert_Some in Hget as [[<- <-]|[_ Hget]];
    [|apply lookup_singleton_Some in Hget as [<- <-]];
    vm_compute in Hp; destruct Hp as [<-|[]]; eexists;
    (split; [reflexivity|]); intros c [<-|[]]; eexists; vm_compute; reflexivity.
Qed.

(** C4 (as the claim states it, refuted). The two lists of [cyclicDoc] own
    each other, and copying one of them throws nothing: whatever the depth
    allowed, the recursion has not come back. *)
Lemma cyclic_ownership_is_not_reported :
  ownsPlus cyclicDoc "a" "a"
  ∧ ∀ fuel, _copyNode fuel cyclicDoc (getNode cyclicDoc "a") = None.
Proof.
  split; [exact cyclicDoc_cycle|].
  apply cycle_exceeds_every_budget; [exact cyclicDoc_wellLinked | exact cyclicDoc_cycle].
Qed.

(** C4 (amended). [_copyNode] terminates on every node whose owning
    references form a tree: from some depth on, every budget gives the same
    outcome.  It has no cycle detection: on a node that lies on a cycle of
    owning references it returns no nodes for any budget, and when no
    owning reference of the document dangles the recursion exceeds every
    budget without throwing. *)
Theorem copyNode_terminates_on_trees_only (doc : Document.t) (a : string) :
  (ownershipTree doc a →
   ∃ fuel r, ∀ fuel', (fuel ≤ fuel')%nat →
                      _copyNode fuel' doc (getNode doc a) = Some r)
  ∧ (ownsPlus doc a a →
     ∀ fuel, (∀ nodes, _copyNode fuel doc (getNode doc a) ≠ Some (Ok nodes))
             ∧ (wellLinked doc → _copyNode fuel doc (getNode doc a) = None)).
Proof.
  split.
  - intros Ht. destruct (copyNode_terminates doc a Ht) as [fuel [r Hr]].
    exists fuel, r. intros fuel' Hle.
    replace fuel' with (fuel + (fuel' - fuel))%nat by lia. apply Hr.
  - intros Hcyc fuel. split.
    + by apply cycle_never_returns.
    + intros Hwl. by apply cycle_exceeds_every_budget.
Qed.

Lemma copyNode_terminates_on_trees_only_witness :
  (∃ fuel r, ∀ fuel', (fuel ≤ fuel')%nat →
                      _copyNode fuel' listDoc (getNode listDoc "l1") = Some r)
  ∧ ∀ fuel, _copyNode fuel cyclicDoc (getNode cyclicDoc "a") = None.
Proof.
  split.
  - exact (proj1 (copyNode_terminates_on_trees_only listDoc "l1") listDoc_tree).
  - intros fuel.
    exact (proj2 (proj2 (copyNode_terminates_on_trees_only cyclicDoc "a")
                        cyclicDoc_cycle fuel) cyclicDoc_wellLinked).
Defined.

(** The list is copied with what it owns in front of it, and the
    annotation behind the paragraph it is on. *)
Example copyNode_listDoc :
  _copyNode 2 listDoc (getNode listDoc "l1")
  = Some (Ok [ ("i1", Plain "paragraph" [("content", VString "one")]);
               ("e1", Anno "emphasis" (mkCoordinate ["i1"; "content"] 0)
                           (mkCoordinate ["i1"; "content"] 3) []);
               ("i2", Plain "paragraph" [("content", VString "two")]);
               ("l1", Plain "list" [("items", VArray ["i1"; "i2"])]) ]).
Proof. vm_compute. reflexivity. Qed.

End CopyNodeCascade.

(* ===================================================================== *)
(** * copySelection: a container selection *)
(* ===================================================================== *)

Module CopyContainerSelection.
Import Document Copy Samples.

(** C3 (the code evaluated where it departs from the claim). The container
    selection from 2 to 4 inside the paragraph [p1] of [plainDoc], whose
    text is [abcdefgh], has one fragment, which is the first and the last.
    The copy is made and shows [p1] once, but the text of the copied [p1]
    is [cdef]: the prefix [[0, 2)] was deleted, and then the range
    [[4, 8)], computed on the source text, was deleted from the text that
    had already lost its first two characters.  The selected text, which
    the copy of the property selection over the same range holds, is [cd]. *)
Theorem copy_single_fragment_keeps_text_behind_selection (fuel : nat) :
  ∃ snippet w',
    copySelection (S fuel) (Some insideP1) plainWorld = Some (Ok (Some snippet), w')
    ∧ container snippet = ["p1"]
    ∧ getProperty snippet ["p1"; "content"] = VString "cdef"
    ∧ substring "abcdefgh" 2 4 = "cd"
    ∧ ∃ textSnippet w'',
        copySelection (S fuel) (Some (propertySelection ["p1"; "content"] 2 4 "body"))
                      plainWorld
        = Some (Ok (Some textSnippet), w'')
        ∧ getProperty textSnippet [TEXT_SNIPPET_ID; "content"] = VString "cd".
Proof.
  do 2 eexists. split; [|split; [|split; [|split]]].
  - vm_compute. reflexivity.
  - vm_compute. reflexivity.
  - vm_compute. reflexivity.
  - vm_compute. reflexivity.
  - do 2 eexists. split; vm_compute; reflexivity.
Qed.

(** Where the first and the last fragment are on different properties the
    copy is trimmed to the selection: from 2 in [p1] to 3 in [p2]. *)
Example copy_across_two_paragraphs (fuel : nat) :
  ∃ snippet w',
    copySelection (S fuel) (Some acrossP1P2) plainWorld = Some (Ok (Some snippet), w')
    ∧ container snippet = ["p1"; "p2"]
    ∧ getProperty snippet ["p1"; "content"] = VString "cdefgh"
    ∧ getProperty snippet ["p2"; "content"] = VString "ijk".
Proof.
  do 2 eexists. split; [|split; [|split]]; vm_compute; reflexivity.
Qed.

End CopyContainerSelection.

(* ===================================================================== *)
(** * The region resolver *)
(* ===================================================================== *)

Module IsolatedNodeFacts.
Import IsolatedNode.

Lemma isTokenPrefix_spec (a b : list string) :
  isTokenPrefix a b = true ↔ a `prefix_of` b.
Proof.
  revert b. induction a as [|x a IH]; intros b; simpl.
  - split; [intros _; apply prefix_nil | reflexivity].
  - destruct b as [|y b].
    + split; [discriminate|]. intros [k Hk]. discriminate.
    + rewrite andb_true_iff, String.eqb_eq, IH. split.
      * intros [-> H]. by apply prefix_cons.
      * intros [k Hk]. injection Hk as -> ->. split; [reflexivity|].
        by exists k.
Qed.

Lemma focused_is_token_prefix (region surface : list string) :
  isFocused region surface = true → region `prefix_of` surface.
Proof.
  unfold isFocused. rewrite orb_true_iff, andb_true_iff.
  intros [H|[H _]].
  - apply isArrayEqual_spec in H. by subst.
  - by apply isTokenPrefix_spec.
Qed.

Lemma cofocused_is_token_prefix (region surface : list string) :
  isCoFocused region surface = true → region `prefix_of` surface.
Proof.
  unfold isCoFocused. rewrite !andb_true_iff.
  intros [[H _] _]. by apply isTokenPrefix_spec.
Qed.

Lemma getMode_focus_token_prefix (sel : Selection) (r : string) :
  getMode sel r = Focused ∨ getMode sel r = CoFocused →
  tokenize r `prefix_of` tokenize (surfaceId sel).
Proof.
  unfold getMode.
  destruct (isNull sel || _); [intros [?|?]; discriminate|].
  destruct (isFocused _ _) eqn:Ef; [intros _; by apply focused_is_token_prefix|].
  destruct (isCoFocused _ _) eqn:Ec; [intros _; by apply cofocused_is_token_prefix|].
  destruct (isSelected _ _ _); [intros [?|?]; discriminate|].
  destruct (isCoSelected _ _ _); intros [?|?]; discriminate.
Qed.

Lemma resolve_In (sel : Selection) (regions : list string) (r : string) (m : Mode) :
  In (r, m) (resolve sel regions) ↔ In r regions ∧ m = getMode sel r.
Proof.
  unfold resolve. rewrite in_map_iff. split.
  - intros [r' [[= -> <-] H]]. auto.
  - intros [H ->]. eauto.
Qed.

(** C1. In every region tree that contains both [body/sn] and [body/sn2],
    a property selection owned by the surface [body/sn2/sn2.title] leaves
    [body/sn] not selected and makes [body/sn2] focused, and these are the
    only modes the two regions get.  The raw string [body/sn] is a prefix
    of the surface path, so a string-prefix test would have matched; the
    resolver compares tokens: whenever it reports focused or co-focused,
    the tokens of the region are a prefix, token by token, of the tokens of
    the owning surface. *)
Theorem prefix_collision_regression (regions : list string) (p : Path) (s e : Z) :
  In "body/sn" regions → In "body/sn2" regions →
  let sel := propertySelection p s e "body/sn2/sn2.title" in
  (∀ m, In ("body/sn", m) (resolve sel regions) ↔ m = NotSelected)
  ∧ (∀ m, In ("body/sn2", m) (resolve sel regions) ↔ m = Focused)
  ∧ startsWith "body/sn2/sn2.title" "body/sn" = true
  ∧ ¬ tokenize "body/sn" `prefix_of` tokenize "body/sn2/sn2.title"
  ∧ ∀ sel' r, getMode sel' r = Focused ∨ getMode sel' r = CoFocused →
              tokenize r `prefix_of` tokenize (surfaceId sel').
Proof.
  intros H1 H2 sel. repeat split.
  - intros H%resolve_In. by destruct H as [_ ->].
  - intros ->. apply resolve_In. split; [assumption | reflexivity].
  - intros H%resolve_In. by destruct H as [_ ->].
  - intros ->. apply resolve_In. split; [assumption | reflexivity].
  - intros H%isTokenPrefix_spec. discriminate.
  - intros sel' r. apply getMode_focus_token_prefix.
Qed.

Lemma prefix_collision_regression_witness :
  In ("body/sn", NotSelected)
     (resolve (propertySelection ["sn2"; "title"] 0 0 "body/sn2/sn2.title")
              ["body/sn"; "body/sn2"])
  ∧ In ("body/sn2", Focused)
       (resolve (propertySelection ["sn2"; "title"] 0 0 "body/sn2/sn2.title")
                ["body/sn"; "body/sn2"]).
Proof.
  destruct (prefix_collision_regression ["body/sn"; "body/sn2"] ["sn2"; "title"] 0 0)
    as [Ha [Hb _]].
  - simpl. auto.
  - simpl. auto.
  - split; [by apply Ha | by apply Hb].
Defined.

(** C9. Whatever the region tree, a null selection gives every region the
    mode not-selected. *)
Theorem null_selection_not_selected (sel : Selection) (regions : list string) :
  isNull sel = true →
  resolve sel regions = map (fun r => (r, NotSelected)) regions.
Proof.
  intros Hn. unfold resolve. apply map_ext. intros r.
  unfold getMode. by rewrite Hn.
Qed.

Lemma null_selection_not_selected_witness :
  resolve nullSelection ["body/c1"; "body/c1/c1/c2"]
  = [("body/c1", NotSelected); ("body/c1/c1/c2", NotSelected)].
Proof.
  exact (null_selection_not_selected nullSelection ["body/c1"; "body/c1/c1/c2"] eq_refl).
Defined.

End IsolatedNodeFacts.

(* ===================================================================== *)
(** * _copyNode: what the list of copies holds *)
(* ===================================================================== *)

Module CopyNodeStructure.
Import Document Copy CopyNodeFacts CopyContainerFacts CopyOrder.

(** The inner loop of the cascade appends the copies of the referenced
    nodes, one after the other. *)
Lemma cascade_ids_concat copy (doc : Document.t) (ids : list string)
    (acc r : list NodeData) :
  forEachO (fun nodes id' =>
              match copy (getNode doc id') with
              | Some (Ok sub) => Some (Ok (nodes ++ sub))
              | other => other
              end) ids acc = Some (Ok r) →
  ∃ subs, Forall2 (fun c sub => copy (getNode doc c) = Some (Ok sub)) ids subs
          ∧ r = acc ++ concat subs.
Proof.
  revert acc. induction ids as [|c ids IH]; intros acc H; simpl in H.
  - injection H as <-. exists []. split; [constructor | by rewrite app_nil_r].
  - destruct (copy (getNode doc c)) as [[sub|e]|] eqn:E; try discriminate.
    destruct (IH _ H) as [subs [HF ->]].
    exists (sub :: subs). split; [by constructor|]. simpl. by rewrite app_assoc.
Qed.

Lemma cascade_props_concat copy (doc : Document.t) (n : Node) (ps : list Property)
    (acc r : list NodeData) :
  forEachO
    (fun nodes prop =>
       if cascades prop then
         match referenced prop (field n (pname prop)) with
         | Ok ids =>
             forEachO
               (fun nodes id' =>
                  match copy (getNode doc id') with
                  | Some (Ok sub) => Some (Ok (nodes ++ sub))
                  | other => other
                  end)
               ids nodes
         | Throw e => Some (Throw e)
         end
       else Some (Ok nodes)) ps acc = Some (Ok r) →
  ∃ subs,
    Forall2 (fun c sub => copy (getNode doc c) = Some (Ok sub))
            (flat_map (fun prop =>
                         if cascades prop then
                           match referenced prop (field n (pname prop)) with
                           | Ok ids => ids
                           | Throw _ => []
                           end
                         else []) ps)
            subs
    ∧ r = acc ++ concat subs.
Proof.
  revert acc. induction ps as [|prop ps IH]; intros acc H; simpl in H.
  - injection H as <-. exists []. split; [constructor | by rewrite app_nil_r].
  - simpl. destruct (cascades prop).
    + destruct (referenced prop _) as [ids|e]; [|discriminate].
      destruct (forEachO _ ids acc) as [[mid|e]|] eqn:E; try discriminate.
      apply cascade_ids_concat in E as [subs1 [HF1 ->]].
      destruct (IH _ H) as [subs2 [HF2 ->]].
      exists (subs1 ++ subs2). split; [by apply Forall2_app|].
      by rewrite concat_app, app_assoc.
    + destruct (IH _ H) as [subs [HF ->]]. eauto.
Qed.

(** The shape of a successful copy: the copies of the owned nodes, in the
    order of the owning references, then the node, then its annotations. *)
Lemma copyNode_shape (fuel : nat) (doc : Document.t) (a : string) (n : Node)
    (datas : list NodeData) :
  _copyNode (S fuel) doc (Some (a, n)) = Some (Ok datas) →
  ∃ subs,
    Forall2 (fun c sub => _copyNode fuel doc (getNode doc c) = Some (Ok sub))
            (ownedIds doc n) subs
    ∧ datas = concat subs ++ [(a, n)]
              ++ map AnnotationIndex.toJSON (AnnotationIndex.getNode doc a).
Proof.
  rewrite copyNode_unfold.
  destruct (cascade _ doc n) as [[nodes|e]|] eqn:E; try discriminate.
  intros [= <-]. unfold cascade in E.
  apply cascade_props_concat in E as [subs [HF ->]]. eauto.
Qed.

Lemma Forall2_elem_of_r {A B} (R : A → B → Prop) (l : list A) (k : list B) (y : B) :
  Forall2 R l k → y ∈ k → ∃ x, x ∈ l ∧ R x y.
Proof.
  induction 1 as [|x y' l k HR _ IH]; intros Hy; [by apply elem_of_nil in Hy|].
  apply elem_of_cons in Hy as [->|Hy].
  - exists x. split; [left | assumption].
  - destruct (IH Hy) as [x' [Hx' HR']]. exists x'. split; [by right | assumption].
Qed.

Lemma Forall2_elem_of_l {A B} (R : A → B → Prop) (l : list A) (k : list B) (x : A) :
  Forall2 R l k → x ∈ l → ∃ y, y ∈ k ∧ R x y.
Proof.
  induction 1 as [|x' y l k HR _ IH]; intros Hx; [by apply elem_of_nil in Hx|].
  apply elem_of_cons in Hx as [->|Hx].
  - exists y. split; [left | assumption].
  - destruct (IH Hx) as [y' [Hy' HR']]. exists y'. split; [by right | assumption].
Qed.

Lemma elem_of_concat {A} (ls : list (list A)) (x : A) :
  x ∈ concat ls ↔ ∃ l, l ∈ ls ∧ x ∈ l.
Proof.
  rewrite list_elem_of_In, in_concat. split.
  - intros [l [Hl Hx]]. exists l. by rewrite !list_elem_of_In.
  - intros [l [Hl Hx]]. exists l. by rewrite <- !list_elem_of_In.
Qed.

(** The annotations the index gives for a node are nodes of the document,
    and own nothing. *)
Lemma index_entry (doc : Document.t) (a : string) (d : NodeData) :
  d ∈ map AnnotationIndex.toJSON (AnnotationIndex.getNode doc a) →
  getNode doc d.1 = Some d ∧ ownedIds doc d.2 = []
  ∧ ∃ ty s e x, d.2 = Anno ty s e x.
Proof.
  intros Hd. apply list_elem_of_fmap in Hd as [anno [-> Ha]].
  unfold AnnotationIndex.getNode in Ha.
  apply list_elem_of_In, filter_In in Ha as [Ha _]. apply list_elem_of_In in Ha.
  apply IndexFacts.elem_of_all in Ha. split; [|split].
  - apply getNode_Some. exists (AnnotationIndex.toJSON anno).2. split; [exact Ha|].
    by destruct anno.
  - reflexivity.
  - destruct anno. simpl. eauto.
Qed.

Lemma copyNode_Ok_node (fuel : nat) (doc : Document.t) (node : option NodeData)
    (datas : list NodeData) :
  _copyNode fuel doc node = Some (Ok datas) → ∃ a n, node = Some (a, n) ∧ ∃ f, fuel = S f.
Proof.
  destruct fuel as [|f]; [discriminate|]. destruct node as [[a n]|]; [|discriminate].
  eauto.
Qed.

(** Every copy in the list is a node of the document, under its id. *)
Lemma copyNode_faithful (doc : Document.t) (fuel : nat) :
  ∀ a datas, _copyNode fuel doc (getNode doc a) = Some (Ok datas) →
             ∀ d, d ∈ datas → getNode doc d.1 = Some d.
Proof.
  induction fuel as [|fuel IH]; intros a datas H d Hd; [discriminate|].
  destruct (getNode doc a) as [[a' n]|] eqn:Eg; [|discriminate].
  apply getNode_Some in Eg as Hg. destruct Hg as [n' [Hget [= -> ->]]].
  apply copyNode_shape in H as [subs [HF ->]].
  rewrite !elem_of_app in Hd. destruct Hd as [Hd|[Hd|Hd]].
  - apply elem_of_concat in Hd as [sub [Hsub Hd]].
    destruct (Forall2_elem_of_r _ _ _ _ HF Hsub) as [c [_ Hc]]. by eapply IH.
  - apply list_elem_of_singleton in Hd. by subst d.
  - by apply index_entry in Hd as [? _].
Qed.

Lemma ownedFirst_app (doc : Document.t) (seen : list string) (l1 l2 : list NodeData) :
  ownedFirst doc seen (l1 ++ l2)
  ↔ ownedFirst doc seen l1 ∧ ownedFirst doc (seen ++ l1.*1) l2.
Proof.
  revert seen. induction l1 as [|d l1 IH]; intros seen; simpl.
  - rewrite app_nil_r. tauto.
  - rewrite IH, <- app_assoc. simpl. tauto.
Qed.

Lemma ownedFirst_mono (doc : Document.t) (l : list NodeData) :
  ∀ seen seen', (∀ x, x ∈ seen → x ∈ seen') →
                ownedFirst doc seen l → ownedFirst doc seen' l.
Proof.
  induction l as [|d l IH]; intros seen seen' Hs; simpl; [auto|].
  intros [H1 H2]. split; [auto|].
  apply (IH (seen ++ [d.1])); [|assumption].
  intros x. rewrite !elem_of_app. intros [?|?]; auto.
Qed.

Lemma ownedFirst_concat (doc : Document.t) (subs : list (list NodeData)) :
  Forall (ownedFirst doc []) subs → ∀ seen, ownedFirst doc seen (concat subs).
Proof.
  induction 1 as [|sub subs Hsub _ IH]; intros seen; simpl; [exact I|].
  apply ownedFirst_app. split; [|apply IH].
  apply (ownedFirst_mono doc sub []); [|assumption].
  intros x Hx. by apply elem_of_nil in Hx.
Qed.

Lemma ownedFirst_index (doc : Document.t) (a : string) (seen : list string)
    (l : list NodeData) :
  (∀ d, d ∈ l → d ∈ map AnnotationIndex.toJSON (AnnotationIndex.getNode doc a)) →
  ownedFirst doc seen l.
Proof.
  revert seen. induction l as [|d l IH]; intros seen Hl; simpl; [exact I|].
  split.
  - intros c Hc. destruct (index_entry doc a d) as [_ [Ho _]]; [apply Hl; left|].
    rewrite Ho in Hc. destruct Hc.
  - apply IH. intros d' Hd'. apply Hl. by right.
Qed.

(** The copies of the nodes a node owns are in the list. *)
Lemma copyNode_owned_copied (doc : Document.t) (fuel : nat) (n : Node)
    (subs : list (list NodeData)) (c : string) :
  Forall2 (fun c sub => _copyNode fuel doc (getNode doc c) = Some (Ok sub))
          (ownedIds doc n) subs →
  In c (ownedIds doc n) → c ∈ (concat subs).*1.
Proof.
  intros HF Hc. apply list_elem_of_In in Hc.
  destruct (Forall2_elem_of_l _ _ _ _ HF Hc) as [sub [Hsub Hr]].
  destruct (copyNode_Ok_node _ _ _ _ Hr) as [a' [n' [Eg _]]].
  rewrite Eg in Hr. apply getNode_Some in Eg as [n'' [_ [= -> ->]]].
  apply copyNode_has_root in Hr.
  apply list_elem_of_fmap in Hr as [d [-> Hd]].
  apply list_elem_of_fmap_2. apply elem_of_concat. eauto.
Qed.

Lemma copyNode_ownedFirst (doc : Document.t) (fuel : nat) :
  ∀ a datas, _copyNode fuel doc (getNode doc a) = Some (Ok datas) →
             ownedFirst doc [] datas.
Proof.
  induction fuel as [|fuel IH]; intros a datas H; [discriminate|].
  destruct (getNode doc a) as [[a' n]|] eqn:Eg; [|discriminate].
  apply getNode_Some in Eg as Hg. destruct Hg as [n' [Hget [= -> ->]]].
  apply copyNode_shape in H as [subs [HF ->]].
  apply ownedFirst_app. split; [|simpl; split].
  - apply ownedFirst_concat. apply Forall_forall. intros sub Hsub.
    destruct (Forall2_elem_of_r _ _ _ _ HF Hsub) as [c [_ Hc]]. by eapply IH.
  - intros c Hc. by eapply copyNode_owned_copied.
  - by apply (ownedFirst_index doc a).
Qed.

Lemma copyNode_annotations (doc : Document.t) (fuel : nat) :
  ∀ a datas, _copyNode fuel doc (getNode doc a) = Some (Ok datas) →
             ∀ d ty fs, d ∈ datas → d.2 = Plain ty fs →
                        ∀ anno, In anno (AnnotationIndex.getNode doc d.1) →
                                AnnotationIndex.toJSON anno ∈ datas.
Proof.
  induction fuel as [|fuel IH]; intros a datas H d ty fs Hd Hp anno Ha; [discriminate|].
  destruct (getNode doc a) as [[a' n]|] eqn:Eg; [|discriminate].
  apply getNode_Some in Eg as Hg. destruct Hg as [n' [Hget [= -> ->]]].
  apply copyNode_shape in H as [subs [HF ->]].
  rewrite !elem_of_app in Hd. rewrite !elem_of_app. destruct Hd as [Hd|[Hd|Hd]].
  - left. apply elem_of_concat in Hd as [sub [Hsub Hd]].
    destruct (Forall2_elem_of_r _ _ _ _ HF Hsub) as [c [_ Hc]].
    apply elem_of_concat. exists sub. split; [assumption|]. by eapply IH.
  - apply list_elem_of_singleton in Hd. subst d. right. right.
    apply list_elem_of_fmap_2. by apply list_elem_of_In.
  - apply index_entry in Hd as [_ [_ [ty' [s' [e' [x' Hk]]]]]]. congruence.
Qed.

(** One copy per owning reference: if no id comes twice in the list, no
    node is referenced twice by its owner. *)
Lemma copyNode_NoDup_owned (doc : Document.t) (fuel : nat) (a : string) (n : Node)
    (datas : list NodeData) :
  _copyNode fuel doc (Some (a, n)) = Some (Ok datas) →
  NoDup datas.*1 → NoDup (ownedIds doc n).
Proof.
  destruct fuel as [|fuel]; [discriminate|]. intros H Hnd.
  apply copyNode_shape in H as [subs [HF ->]].
  rewrite fmap_app in Hnd. apply NoDup_app in Hnd as [Hnd _].
  revert Hnd. induction HF as [|c sub cs subs Hc HF IH]; intros Hnd; [constructor|].
  simpl in Hnd. rewrite fmap_app in Hnd. apply NoDup_app in Hnd as [_ [Hdis Hrest]].
  constructor; [|by apply IH].
  intros Hin. apply (Hdis c).
  - destruct (copyNode_Ok_node _ _ _ _ Hc) as [a' [n' [Eg _]]].
    rewrite Eg in Hc. apply getNode_Some in Eg as [n'' [_ [= -> ->]]].
    by eapply copyNode_has_root.
  - destruct (Forall2_elem_of_l _ _ _ _ HF Hin) as [sub' [Hsub' Hr]].
    destruct (copyNode_Ok_node _ _ _ _ Hr) as [a' [n' [Eg _]]].
    rewrite Eg in Hr. apply getNode_Some in Eg as [n'' [_ [= -> ->]]].
    apply copyNode_has_root in Hr.
    apply list_elem_of_fmap in Hr as [d [-> Hd]].
    apply list_elem_of_fmap_2. apply elem_of_concat. eauto.
Qed.

End CopyNodeStructure.

Module CopyNodeExtras.
Import Document Copy CopyNodeFacts CopyContainerFacts CopyOrder CopyNodeStructure.
Import Samples MoreSamples.

Lemma listDoc_l1_tree : ownershipTree listDoc "l1".
Proof.
  constructor. intros c [n [Hget Hc]].
  vm_compute in Hget. injection Hget as <-. vm_compute in Hc.
  destruct Hc as [<-|[<-|[]]];
    constructor; intros c' [n' [Hget' Hc']];
    vm_compute in Hget'; injection Hget' as <-; destruct Hc'.
Qed.

Lemma danglingDoc_tree : ownershipTree danglingDoc "l1".
Proof.
  constructor. intros c [n [Hget Hc]].
  vm_compute in Hget. injection Hget as <-. vm_compute in Hc.
  destruct Hc as [<-|[<-|[]]];
    constructor; intros c' [n' [Hget' Hc']];
    vm_compute in Hget'; [injection Hget' as <-; destruct Hc' | discriminate].
Qed.

Lemma danglingDoc_owns : ownsPlus danglingDoc "l1" "gone".
Proof.
  apply ownsPlus_one. eexists. split; [vm_compute; reflexivity | vm_compute; auto].
Qed.

Lemma listDoc_copy :
  _copyNode 2 listDoc (getNode listDoc "l1")
  = Some (Ok [ ("i1", Plain "paragraph" [("content", VString "one")]);
               ("e1", Anno "emphasis" (mkCoordinate ["i1"; "content"] 0)
                           (mkCoordinate ["i1"; "content"] 3) []);
               ("i2", Plain "paragraph" [("content", VString "two")]);
               ("l1", Plain "list" [("items", VArray ["i1"; "i2"])]) ]).
Proof. vm_compute. reflexivity. Qed.

(** X1. A dangling owning reference is never skipped: when a chain of
    owning references from [a] ends at an id the document does not hold,
    [_copyNode] returns no list for any budget, and if the owning
    references below [a] form a tree it throws. *)
Theorem copyNode_dangling_reference_throws (doc : Document.t) (a c : string) :
  ownsPlus doc a c → Document.get doc c = None →
  (∀ fuel datas, _copyNode fuel doc (getNode doc a) ≠ Some (Ok datas))
  ∧ (ownershipTree doc a →
     ∃ fuel e, ∀ fuel', (fuel ≤ fuel')%nat →
                        _copyNode fuel' doc (getNode doc a) = Some (Throw e)).
Proof.
  intros Hown Hc.
  assert (Hnever : ∀ fuel datas, _copyNode fuel doc (getNode doc a) ≠ Some (Ok datas)).
  { intros fuel datas H.
    destruct (descendant_success _ _ _ Hown _ _ H) as [f' [r' [_ Hr']]].
    unfold getNode in Hr'. rewrite Hc in Hr'. destruct f'; discriminate. }
  split; [exact Hnever|].
  intros Ht. destruct (copyNode_terminates doc a Ht) as [fuel [r Hr]].
  destruct r as [datas|e].
  - exfalso. apply (Hnever (fuel + 0)%nat datas). apply Hr.
  - exists fuel, e. intros fuel' Hle.
    replace fuel' with (fuel + (fuel' - fuel))%nat by lia. apply Hr.
Qed.

Lemma copyNode_dangling_reference_throws_witness :
  ∃ fuel e, ∀ fuel', (fuel ≤ fuel')%nat →
                     _copyNode fuel' danglingDoc (getNode danglingDoc "l1") = Some (Throw e).
Proof.
  refine (proj2 (copyNode_dangling_reference_throws danglingDoc "l1" "gone"
                   danglingDoc_owns _) danglingDoc_tree).
  vm_compute. reflexivity.
Defined.

(** X2. What a successful [_copyNode] returns is closed under ownership:
    the list holds the node; every entry is a node of the document under
    its id, unchanged; for every entry, the nodes it owns are in the list;
    and for every entry that is not an annotation, the annotations the
    index gives for it are in the list. *)
Theorem copyNode_closed_under_ownership (doc : Document.t) (fuel : nat) (a : string)
    (datas : list NodeData) :
  _copyNode fuel doc (getNode doc a) = Some (Ok datas) →
  a ∈ datas.*1
  ∧ (∀ d, d ∈ datas → getNode doc d.1 = Some d)
  ∧ (∀ d c, d ∈ datas → In c (ownedIds doc d.2) → c ∈ datas.*1)
  ∧ (∀ d ty fs anno,
       d ∈ datas → d.2 = Plain ty fs →
       In anno (AnnotationIndex.getNode doc d.1) →
       AnnotationIndex.toJSON anno ∈ datas).
Proof.
  intros H. split; [|split; [|split]].
  - destruct (copyNode_Ok_node _ _ _ _ H) as [a' [n' [Eg _]]].
    rewrite Eg in H. apply getNode_Some in Eg as [n'' [_ [= -> ->]]].
    by eapply copyNode_has_root.
  - by eapply copyNode_faithful.
  - intros d c Hd Hc. apply list_elem_of_split in Hd as [pre [suf ->]].
    apply copyNode_ownedFirst in H. apply ownedFirst_app in H as [_ [H _]].
    rewrite fmap_app, elem_of_app. left. by apply H.
  - intros d ty fs anno Hd Hp Ha. by eapply copyNode_annotations.
Qed.

Lemma copyNode_closed_under_ownership_witness :
  "i2" ∈ ["i1"; "e1"; "i2"; "l1"]
  ∧ AnnotationIndex.toJSON
      (PropertyAnnotation.mk "e1" "emphasis" (mkCoordinate ["i1"; "content"] 0)
                             (mkCoordinate ["i1"; "content"] 3) [])
    ∈ [ ("i1", Plain "paragraph" [("content", VString "one")]);
        ("e1", Anno "emphasis" (mkCoordinate ["i1"; "content"] 0)
                    (mkCoordinate ["i1"; "content"] 3) []);
        ("i2", Plain "paragraph" [("content", VString "two")]);
        ("l1", Plain "list" [("items", VArray ["i1"; "i2"])]) ].
Proof.
  destruct (copyNode_closed_under_ownership listDoc 2 "l1" _ listDoc_copy)
    as [_ [_ [Hclosed Hanno]]].
  split.
  - apply (Hclosed ("l1", Plain "list" [("items", VArray ["i1"; "i2"])]) "i2").
    + do 3 right. left.
    + vm_compute. auto.
  - apply (Hanno ("i1", Plain "paragraph" [("content", VString "one")])
                 "paragraph" [("content", VString "one")]).
    + left.
    + reflexivity.
    + vm_compute. auto.
Defined.

(** X3. Owned nodes come first: in the list a successful [_copyNode]
    returns, every node an entry owns has a copy in front of that entry. *)
Theorem copyNode_owned_nodes_first (doc : Document.t) (fuel : nat) (a : string)
    (datas pre suf : list NodeData) (d : NodeData) (c : string) :
  _copyNode fuel doc (getNode doc a) = Some (Ok datas) →
  datas = pre ++ d :: suf → In c (ownedIds doc d.2) → c ∈ pre.*1.
Proof.
  intros H -> Hc.
  apply copyNode_ownedFirst in H. apply ownedFirst_app in H as [_ [H _]].
  by apply H.
Qed.

Lemma copyNode_owned_nodes_first_witness :
  "i2" ∈ [ ("i1", Plain "paragraph" [("content", VString "one")]);
           ("e1", Anno "emphasis" (mkCoordinate ["i1"; "content"] 0)
                       (mkCoordinate ["i1"; "content"] 3) []);
           ("i2", Plain "paragraph" [("content", VString "two")]) ].*1.
Proof.
  apply (copyNode_owned_nodes_first listDoc 2 "l1" _ _ []
           ("l1", Plain "list" [("items", VArray ["i1"; "i2"])]) "i2" listDoc_copy).
  - reflexivity.
  - vm_compute. auto.
Defined.

(** X4. [_copyNode] makes one copy per owning reference and removes no
    duplicate: whenever the ids of the list it returns are all different,
    the node refers to no owned node twice. *)
Theorem copyNode_one_copy_per_reference (doc : Document.t) (fuel : nat) (a : string)
    (n : Node) (datas : list NodeData) :
  Document.get doc a = Some n →
  _copyNode fuel doc (getNode doc a) = Some (Ok datas) →
  NoDup datas.*1 → NoDup (ownedIds doc n).
Proof.
  intros Hget H Hnd.
  assert (E : getNode doc a = Some (a, n)) by (apply getNode_Some; eauto).
  rewrite E in H. by eapply copyNode_NoDup_owned.
Qed.

Lemma copyNode_one_copy_per_reference_witness :
  NoDup (ownedIds listDoc (Plain "list" [("items", VArray ["i1"; "i2"])])).
Proof.
  apply (copyNode_one_copy_per_reference listDoc 2 "l1" _ _ eq_refl listDoc_copy).
  apply (bool_decide_unpack _). vm_compute. exact I.
Defined.

(** The paragraph the list refers to twice is copied twice. *)
Example copyNode_sharedDoc :
  _copyNode 2 sharedDoc (getNode sharedDoc "l1")
  = Some (Ok [ ("i1", Plain "paragraph" [("content", VString "one")]);
               ("i1", Plain "paragraph" [("content", VString "one")]);
               ("l1", Plain "list" [("items", VArray ["i1"; "i1"])]) ]).
Proof. vm_compute. reflexivity. Qed.

End CopyNodeExtras.

(* ===================================================================== *)
(** * copySelection: node selections, containers and missing content *)
(* ===================================================================== *)

Module CopySelectionExtras.
Import Document Copy CopyNodeFacts CopyContainerFacts CopyNodeStructure.
Import Samples MoreSamples.

(** Creating a list of nodes in a document: it succeeds only when the ids
    are new and all different, and then the document holds exactly what it
    held plus the list. *)
Lemma forEachR_create_fresh (l : list NodeData) :
  ∀ m0 m1 : Document.t,
    forEachR create l m0 = Ok m1 → ∀ i, is_Some (nodes m0 !! i) → i ∉ l.*1.
Proof.
  induction l as [|x l IH]; intros m0 m1 H i Hi Hin.
  - by apply elem_of_nil in Hin.
  - simpl in H. destruct (create m0 x) as [mid|] eqn:Ec; [|discriminate]. simpl in H.
    unfold create in Ec. destruct (nodes m0 !! x.1) eqn:E0; [discriminate|].
    injection Ec as <-. rewrite fmap_cons in Hin.
    apply elem_of_cons in Hin as [E|Hin].
    + subst i. rewrite E0 in Hi. by destruct Hi.
    + apply (IH _ _ H i); [|assumption]. simpl.
      destruct (decide (x.1 = i)) as [E|Hne].
      * subst i. rewrite E0 in Hi. by destruct Hi.
      * by rewrite lookup_insert_ne.
Qed.

Lemma forEachR_create_spec (datas : list NodeData) :
  ∀ doc0 doc1, forEachR create datas doc0 = Ok doc1 →
    NoDup datas.*1
    ∧ container doc1 = container doc0 ∧ schema doc1 = schema doc0
    ∧ (∀ d, d ∈ datas → nodes doc1 !! d.1 = Some d.2)
    ∧ (∀ i, i ∉ datas.*1 → nodes doc1 !! i = nodes doc0 !! i).
Proof.
  induction datas as [|d datas IH]; intros doc0 doc1 H; simpl in H.
  - injection H as <-. split; [constructor|]. repeat split; auto.
    intros d Hd. by apply elem_of_nil in Hd.
  - destruct (create doc0 d) as [mid|e] eqn:Ec; [|discriminate]. simpl in H.
    unfold create in Ec. destruct (nodes doc0 !! d.1) eqn:E0; [discriminate|].
    injection Ec as <-.
    destruct (IH _ _ H) as [Hnd [Hc [Hs [Hin Hout]]]]. simpl in *.
    assert (Hd : d.1 ∉ datas.*1).
    { intros Hd. apply list_elem_of_fmap in Hd as [d' [E Hd']].
      pose proof (Hin d' Hd') as H1. rewrite <- E in H1.
      apply (forEachR_create_fresh _ _ _ H d.1).
      - simpl. rewrite lookup_insert_eq. eauto.
      - apply list_elem_of_fmap. eauto. }
    split; [by constructor|]. split; [assumption|]. split; [assumption|]. split.
    + intros d' Hd'. apply elem_of_cons in Hd' as [->|Hd']; [|by apply Hin].
      rewrite Hout by assumption. by rewrite lookup_insert_eq.
    + intros i Hi. rewrite not_elem_of_cons in Hi. destruct Hi as [Hne Hi].
      rewrite Hout by assumption. by rewrite lookup_insert_ne.
Qed.

Lemma ownedIds_schema (doc doc' : Document.t) (n : Node) :
  schema doc' = schema doc → ownedIds doc' n = ownedIds doc n.
Proof. intros H. unfold ownedIds, getSchema. by rewrite H. Qed.

(** X5. The copy of a node selection is closed under ownership.  Whenever
    [copySelection] returns a snippet for a node selection, exactly one
    snippet was created and nothing else changed; the container of the
    snippet shows the selected node and nothing else; the snippet holds
    that node; every node of the snippet is a node of the source document,
    unchanged; no owning reference of the snippet dangles; and the snippet
    holds every annotation the index gives for its nodes that are not
    annotations themselves. *)
Theorem copy_node_selection_closed (fuel : nat) (sel : Selection) (w w' : World)
    (snippet : Document.t) :
  isNull sel = false → isCollapsed sel = false →
  isPropertySelection sel = false → isContainerSelection sel = false →
  isNodeSelection sel = true →
  copySelection fuel (Some sel) w = Some (Ok (Some snippet), w') →
  w' = mkWorld (document w) (S (snippetsCreated w)) (console w)
  ∧ container snippet = [getNodeId sel]
  ∧ is_Some (Document.get snippet (getNodeId sel))
  ∧ (∀ i n, Document.get snippet i = Some n → Document.get (document w) i = Some n)
  ∧ (∀ i c, owns snippet i c → is_Some (Document.get snippet c))
  ∧ (∀ i ty fs anno,
       Document.get snippet i = Some (Plain ty fs) →
       In anno (AnnotationIndex.getNode (document w) i) →
       Document.get snippet (PropertyAnnotation.id anno)
       = Some (AnnotationIndex.toJSON anno).2).
Proof.
  intros Hn Hc Hp Hk Hd. unfold copySelection. rewrite Hn, Hc, Hp, Hk, Hd. simpl.
  unfold _copyNodeSelection, bind, theDocument, createSnippet, ret, liftO, liftR.
  set (doc := document w).
  destruct (_copyNode fuel doc (getNode doc (getNodeId sel))) as [[datas|e]|] eqn:Ecopy;
    try discriminate.
  destruct (forEachR create datas (Document.createSnippet doc)) as [sn|e] eqn:Ecreate;
    [|discriminate].
  intros Heq. inversion Heq; subst snippet w'; clear Heq.
  apply forEachR_create_spec in Ecreate as [Hnd [Hcont [Hsch [Hin Hout]]]].
  destruct (copyNode_Ok_node _ _ _ _ Ecopy) as [a' [n' [Eg _]]].
  assert (Hroot : getNodeId sel ∈ datas.*1).
  { pose proof Ecopy as H. rewrite Eg in H.
    apply getNode_Some in Eg as [n'' [_ [= -> ->]]]. by eapply copyNode_has_root. }
  assert (Hback : ∀ i n, nodes sn !! i = Some n → (i, n) ∈ datas).
  { intros i n Hi. destruct (decide (i ∈ datas.*1)) as [Hi'|Hi'].
    - apply list_elem_of_fmap in Hi' as [d [-> Hd']].
      rewrite (Hin d Hd') in Hi. injection Hi as <-. by destruct d.
    - rewrite (Hout i Hi') in Hi. simpl in Hi. by rewrite lookup_empty in Hi. }
  split; [reflexivity|]. split; [simpl; by rewrite Hcont|].
  split; [|split; [|split]].
  - apply list_elem_of_fmap in Hroot as [d [-> Hd']].
    unfold Document.get. simpl. rewrite (Hin d Hd'). eauto.
  - intros i n Hi. unfold Document.get in Hi. simpl in Hi. apply Hback in Hi.
    pose proof (copyNode_faithful doc fuel _ _ Ecopy _ Hi) as Hf.
    apply getNode_Some in Hf as [n'' [Hget [= ->]]]. exact Hget.
  - intros i c [n [Hi Hown]]. unfold Document.get in Hi. simpl in Hi.
    apply Hback in Hi.
    rewrite (ownedIds_schema doc) in Hown by (simpl; exact Hsch).
    assert (Hc' : c ∈ datas.*1).
    { pose proof (copyNode_ownedFirst doc fuel _ _ Ecopy) as Ho.
      apply list_elem_of_split in Hi as [pre [suf ->]].
      apply ownedFirst_app in Ho as [_ [Ho _]].
      rewrite fmap_app, elem_of_app. left. by apply Ho. }
    apply list_elem_of_fmap in Hc' as [d [-> Hd']].
    unfold Document.get. simpl. rewrite (Hin d Hd'). eauto.
  - intros i ty fs anno Hi Ha. unfold Document.get in Hi. simpl in Hi.
    apply Hback in Hi.
    pose proof (copyNode_annotations doc fuel _ _ Ecopy (i, Plain ty fs) ty fs Hi
                  eq_refl anno Ha) as Hanno.
    unfold Document.get. simpl. exact (Hin _ Hanno).
Qed.

Lemma copy_node_selection_closed_witness :
  ∃ snippet w',
    copySelection 2 (Some (nodeSelection "l1" true "body")) listWorld
    = Some (Ok (Some snippet), w')
    ∧ container snippet = ["l1"]
    ∧ ∀ i c, owns snippet i c → is_Some (Document.get snippet c).
Proof.
  do 2 eexists. split; [vm_compute; reflexivity|].
  refine ((fun H => conj (proj1 (proj2 H)) (proj1 (proj2 (proj2 (proj2 (proj2 H))))))
            (copy_node_selection_closed 2 (nodeSelection "l1" true "body") listWorld _ _
               eq_refl eq_refl eq_refl eq_refl eq_refl _)).
  vm_compute. reflexivity.
Defined.

(** X6. Whenever [copySelection] returns a snippet for a container
    selection, the container of the snippet shows no node twice, and the
    nodes it shows are owners of fragments, in the order of the fragments. *)
Theorem copy_container_selection_shows_once (fuel : nat) (sel : Selection)
    (w w' : World) (snippet : Document.t) :
  isNull sel = false → isCollapsed sel = false →
  isPropertySelection sel = false → isContainerSelection sel = true →
  copySelection fuel (Some sel) w = Some (Ok (Some snippet), w') →
  NoDup (container snippet)
  ∧ container snippet `sublist_of` owners (getFragments sel)
  ∧ w' = mkWorld (document w) (S (snippetsCreated w)) (console w).
Proof.
  intros Hn Hc Hp Hk. unfold copySelection. rewrite Hn, Hc, Hp, Hk. simpl.
  unfold _copyContainerSelection, bind, theDocument, createSnippet, ret, liftO, liftR.
  destruct (getFragments sel) as [|f0 fs] eqn:Ef.
  - intros Heq; inversion Heq; subst. simpl. repeat split; constructor.
  - destruct (forEachO _ (f0 :: fs) _) as [[st|e]|] eqn:Eloop; try discriminate.
    apply copyFragments_shown_once in Eloop as Hshown; [|reflexivity].
    destruct (trimFirst f0 st.1) as [sn1|] eqn:E1; [|discriminate].
    destruct (trimLast _ _ sn1) as [sn2|] eqn:E2; [|discriminate].
    intros Heq; inversion Heq; subst.
    apply trimFirst_container in E1. apply trimLast_container in E2.
    rewrite E2, E1. destruct Hshown. auto.
Qed.

Lemma copy_container_selection_shows_once_witness :
  ∃ snippet w',
    copySelection 1 (Some acrossP1P2) plainWorld = Some (Ok (Some snippet), w')
    ∧ NoDup (container snippet)
    ∧ container snippet `sublist_of` ["p1"; "p2"].
Proof.
  do 2 eexists. split; [vm_compute; reflexivity|].
  refine ((fun H => conj (proj1 H) (proj1 (proj2 H)))
            (copy_container_selection_shows_once 1 acrossP1P2 plainWorld _ _
               eq_refl eq_refl eq_refl eq_refl _)).
  vm_compute. reflexivity.
Defined.



End CopySelectionExtras.

(* ===================================================================== *)
(** * copySelection: the copy of a property selection, copied again *)
(* ===================================================================== *)

Module CopyPropertyExtras.
Import Document Copy CopyPropertyFacts Samples.

(** The snippet [_copyPropertySelection] builds, written out. *)
Lemma copy_property_selection_result (fuel : nat) (w : World) (sel : Selection)
    (text : string) :
  isNull sel = false → isCollapsed sel = false → isPropertySelection sel = true →
  getProperty (document w) (path (start sel)) = VString text →
  (∀ ty c1 c2 x, Document.get (document w) TEXT_SNIPPET_ID ≠ Some (Anno ty c1 c2 x)) →
  let s := offset (start sel) in
  let e := offset (end_ sel) in
  copySelection fuel (Some sel) w
  = Some (Ok (Some (mkDoc
                      (foldl (insertClipped s e)
                             (<[TEXT_SNIPPET_ID := Plain (getDefaultTextType (schema (document w)))
                                                       [("content", VString (substring text s e))]]>
                                (∅ : gmap string Node))
                             (AnnotationIndex.getRange (document w) (path (start sel)) s e))
                      [TEXT_SNIPPET_ID] (schema (document w)))),
          mkWorld (document w) (S (snippetsCreated w)) (console w)).
Proof.
  intros Hnull Hcoll Hprop Htext Hfresh s e.
  unfold copySelection. rewrite Hnull, Hcoll, Hprop. simpl.
  unfold _copyPropertySelection, bind, theDocument, createSnippet, liftR, ret.
  fold s. fold e. rewrite Htext.
  rewrite CopyPropertySelection.create_fresh by apply lookup_empty.
  rewrite forEachR_create_clipped; [reflexivity | apply IndexFacts.getRange_ids_NoDup |].
  intros a Ha. cbn. rewrite lookup_insert_ne; [apply lookup_empty|].
  intros E. apply IndexFacts.elem_of_getRange in Ha as [Ha _].
  apply IndexFacts.elem_of_all in Ha. rewrite <- E in Ha.
  destruct a. simpl in *. by eapply Hfresh.
Qed.

Lemma overlaps_window (s e : Z) (a : PropertyAnnotation.t) :
  s < e →
  (AnnotationIndex.overlaps s e a = true
   ↔ offset (PropertyAnnotation.astart a) < e ∧ s < offset (PropertyAnnotation.aend a)).
Proof.
  intros Hse. unfold AnnotationIndex.overlaps.
  destruct (Z.eqb_spec s e); [lia|].
  rewrite andb_true_iff, Z.ltb_lt, Z.gtb_lt. tauto.
Qed.

(** Whatever is in the snippet nodes under an id is the text node or the
    clipped copy of an annotation of the window. *)
Lemma snippet_lookup (s e : Z) (l : list PropertyAnnotation.t) (tn : Node) (k : string) :
  NoDup (PropertyAnnotation.id <$> l) →
  (∀ a, a ∈ l → PropertyAnnotation.id a ≠ TEXT_SNIPPET_ID) →
  let m := foldl (insertClipped s e) (<[TEXT_SNIPPET_ID := tn]> (∅ : gmap string Node)) l in
  (∃ a, a ∈ l ∧ PropertyAnnotation.id a = k ∧ m !! k = Some (clipped s e a).2)
  ∨ ((k ∉ (PropertyAnnotation.id <$> l)) ∧ k = TEXT_SNIPPET_ID ∧ m !! k = Some tn)
  ∨ ((k ∉ (PropertyAnnotation.id <$> l)) ∧ k ≠ TEXT_SNIPPET_ID ∧ m !! k = None).
Proof.
  intros Hnd Hids m. unfold m.
  destruct (decide (k ∈ PropertyAnnotation.id <$> l)) as [Hin|Hin].
  - left. apply list_elem_of_fmap in Hin as [a [-> Ha]].
    exists a. split; [assumption|]. split; [reflexivity|].
    by apply foldl_insertClipped_in.
  - right. rewrite foldl_insertClipped_notin by assumption.
    destruct (decide (k = TEXT_SNIPPET_ID)) as [->|Hne].
    + left. by rewrite lookup_insert_eq.
    + right. rewrite lookup_insert_ne by congruence. by rewrite lookup_empty.
Qed.

Lemma getRange_fresh (doc : Document.t) (p : Path) (s e : Z) :
  (∀ ty c1 c2 x, Document.get doc TEXT_SNIPPET_ID ≠ Some (Anno ty c1 c2 x)) →
  ∀ a, a ∈ AnnotationIndex.getRange doc p s e → PropertyAnnotation.id a ≠ TEXT_SNIPPET_ID.
Proof.
  intros Hfresh a Ha E. apply IndexFacts.elem_of_getRange in Ha as [Ha _].
  apply IndexFacts.elem_of_all in Ha. rewrite E in Ha.
  destruct a. simpl in *. by eapply Hfresh.
Qed.



Lemma substring_whole (t : string) (n : Z) :
  strlen t <= n → substring t 0 n = t.
Proof.
  intros Hn. unfold substring, clampIndex. unfold strlen in *.
  rewrite (Z.min_l 0) by lia. rewrite (Z.max_l 0 0) by lia.
  rewrite (Z.min_r n) by lia. rewrite (Z.max_r 0 (Z.of_nat _)) by lia.
  rewrite Z.min_l, Z.max_r by lia. simpl drop.
  rewrite Z.sub_0_r, Nat2Z.id, firstn_all. apply string_of_list_ascii_of_string.
Qed.

Lemma strlen_substring_le (t : string) (s e : Z) :
  s <= e → strlen (substring t s e) <= e - s.
Proof.
  intros Hse. rewrite StringFacts.strlen_substring_clamped.
  unfold clampIndex. pose proof (StringFacts.strlen_nonneg t). lia.
Qed.

(** X9. Copying the copy again gives the same snippet.  The snippet
    [copySelection] returns for a property selection over [[s, e)], copied
    once more as a whole (the property selection from 0 to [e - s] on the
    text node of the snippet), gives a snippet equal to it: the same text
    node, the same annotations with the same offsets, the same container. *)
Theorem copy_property_selection_idempotent (fuel fuel' : nat) (w w' : World)
    (sel : Selection) (text : string) (snippet : Document.t)
    (surface : string) (created : nat) (printed : list Diagnostic) :
  isNull sel = false → isCollapsed sel = false → isPropertySelection sel = true →
  getProperty (document w) (path (start sel)) = VString text →
  (∀ ty c1 c2 x, Document.get (document w) TEXT_SNIPPET_ID ≠ Some (Anno ty c1 c2 x)) →
  offset (start sel) < offset (end_ sel) →
  copySelection fuel (Some sel) w = Some (Ok (Some snippet), w') →
  copySelection fuel'
    (Some (propertySelection [TEXT_SNIPPET_ID; "content"] 0
                             (offset (end_ sel) - offset (start sel)) surface))
    (mkWorld snippet created printed)
  = Some (Ok (Some snippet), mkWorld snippet (S created) printed).
Proof.
  intros Hnull Hcoll Hprop Htext Hfresh Hse Hcopy.
  rewrite (copy_property_selection_result fuel w sel text) in Hcopy by assumption.
  injection Hcopy as <- _.
  set (s := offset (start sel)) in *. set (e := offset (end_ sel)) in *.
  set (doc := document w) in *.
  set (l := AnnotationIndex.getRange doc (path (start sel)) s e).
  set (tn := Plain (getDefaultTextType (schema doc))
                   [("content", VString (substring text s e))]).
  set (m1 := foldl (insertClipped s e) (<[TEXT_SNIPPET_ID := tn]> ∅) l).
  set (sn1 := mkDoc m1 [TEXT_SNIPPET_ID] (schema doc)).
  pose proof (IndexFacts.getRange_ids_NoDup doc (path (start sel)) s e) as Hnd.
  pose proof (getRange_fresh doc (path (start sel)) s e Hfresh) as Hids.
  assert (Hfirst := fun k => snippet_lookup s e l tn k Hnd Hids). fold m1 in Hfirst.
  assert (Htn : m1 !! TEXT_SNIPPET_ID = Some tn).
  { destruct (Hfirst TEXT_SNIPPET_ID) as [[a [Ha [Hid _]]]|[[_ [_ Hm]]|[_ [Hne _]]]];
      [by destruct (Hids a Ha) | assumption | congruence]. }
  assert (Hfresh1 : ∀ ty c1 c2 x,
             Document.get sn1 TEXT_SNIPPET_ID ≠ Some (Anno ty c1 c2 x)).
  { intros ty c1 c2 x. unfold Document.get. simpl. rewrite Htn. discriminate. }
  assert (HM : foldl (insertClipped 0 (e - s)) (<[TEXT_SNIPPET_ID := tn]> ∅)
                     (AnnotationIndex.getRange sn1 [TEXT_SNIPPET_ID; "content"] 0 (e - s))
               = m1).
  2: { rewrite (copy_property_selection_result fuel' (mkWorld sn1 created printed) _
                  (substring text s e)); [| reflexivity | | reflexivity | | exact Hfresh1].
       - unfold propertySelection.
         cbn [start end_ offset path document schema snippetsCreated console sn1].
         rewrite substring_whole by (apply strlen_substring_le; lia).
         fold tn. fold sn1. rewrite HM. reflexivity.
       - unfold propertySelection. cbn [isCollapsed]. apply Z.eqb_neq. lia.
       - unfold getProperty, Document.get. simpl. by rewrite Htn. }
  set (l2 := AnnotationIndex.getRange sn1 [TEXT_SNIPPET_ID; "content"] 0 (e - s)).
  pose proof (IndexFacts.getRange_ids_NoDup sn1 [TEXT_SNIPPET_ID; "content"] 0 (e - s))
    as Hnd2.
  pose proof (getRange_fresh sn1 [TEXT_SNIPPET_ID; "content"] 0 (e - s) Hfresh1) as Hids2.
  fold l2 in Hnd2, Hids2.
  apply map_eq. intros k.
  destruct (snippet_lookup 0 (e - s) l2 tn k Hnd2 Hids2)
    as [[a2 [Ha2 [Hid2 Hm2]]]|[[Hout2 [-> Hm2]]|[Hout2 [Hne2 Hm2]]]]; rewrite Hm2.
  - (* an annotation of the snippet: copied with the offsets it has *)
    apply IndexFacts.elem_of_getRange in Ha2 as [Hall2 _].
    apply IndexFacts.elem_of_all in Hall2. unfold Document.get in Hall2.
    simpl in Hall2. rewrite Hid2 in Hall2. rewrite Hall2.
    destruct (Hfirst k) as [[a [Ha [Hid Hm]]]|[[_ [_ Hm]]|[_ [_ Hm]]]];
      rewrite Hm in Hall2; [| subst tn; destruct a2; discriminate | discriminate].
    destruct a2 as [i2 ty2 st2 en2 x2]. unfold clipped in *. simpl in *.
    injection Hall2 as <- <- <- <-. simpl. f_equal. f_equal; f_equal; lia.
  - (* the text node *)
    by rewrite Htn.
  - (* nothing else *)
    destruct (Hfirst k) as [[a [Ha [Hid Hm]]]|[[_ [Heq _]]|[_ [_ Hm]]]];
      [| congruence | by rewrite Hm].
    exfalso. apply Hout2. apply list_elem_of_fmap.
    exists (PropertyAnnotation.mk k (PropertyAnnotation.type a)
              (mkCoordinate [TEXT_SNIPPET_ID; "content"]
                 (Z.max s (offset (PropertyAnnotation.astart a)) - s))
              (mkCoordinate [TEXT_SNIPPET_ID; "content"]
                 (Z.min e (offset (PropertyAnnotation.aend a)) - s))
              (PropertyAnnotation.adata a)).
    split; [reflexivity|].
    apply IndexFacts.elem_of_getRange in Ha as [_ [_ Ho]].
    apply overlaps_window in Ho; [|assumption].
    apply IndexFacts.elem_of_getRange. split; [|split].
    + apply IndexFacts.elem_of_all. unfold Document.get. simpl. exact Hm.
    + reflexivity.
    + apply overlaps_window; [lia|]. simpl. lia.
Qed.

Lemma copy_property_selection_idempotent_witness :
  ∃ snippet,
    copySelection 0 (Some (propertySelection ["p1"; "content"] 2 4 "body")) sampleWorld
    = Some (Ok (Some snippet), mkWorld sampleDoc 1 [])
    ∧ copySelection 0 (Some (propertySelection [TEXT_SNIPPET_ID; "content"] 0 2 "clipboard"))
                    (mkWorld snippet 0 [])
      = Some (Ok (Some snippet), mkWorld snippet 1 []).
Proof.
  eexists. split; [vm_compute; reflexivity|].
  refine (copy_property_selection_idempotent 0 0 sampleWorld (mkWorld sampleDoc 1 [])
            (propertySelection ["p1"; "content"] 2 4 "body") "abcdefgh" _
            "clipboard" 0 [] eq_refl eq_refl eq_refl _ _ _ _).
  - vm_compute. reflexivity.
  - intros ty c1 c2 x. vm_compute. discriminate.
  - simpl. lia.
  - vm_compute. reflexivity.
Defined.

End CopyPropertyExtras.

(* ===================================================================== *)
(** * PropertyAnnotation: an annotation and its own selection *)
(* ===================================================================== *)

Module PropertyAnnotationExtras.
Import PropertyAnnotation Samples.

(** X10. The selection an annotation gives of itself is one it is inside
    of, but not strictly; and updating the annotation to that selection
    leaves the transaction as it was. *)
Theorem own_selection_is_a_fixpoint (this : t) (tx : list TxSet) :
  isInsideOf this (getSelection this) false = (JSBool true, [])
  ∧ isInsideOf this (getSelection this) true = (JSBool false, [])
  ∧ _updateRange this tx (getSelection this) = Ok tx.
Proof.
  unfold isInsideOf, _updateRange, getSelection, propertySelection, path_of.
  cbn [isNull isPropertySelection start end_ path offset negb].
  rewrite isArrayEqual_refl, !Z.eqb_refl. cbn [negb andb].
  rewrite (proj2 (Z.geb_le _ _) (Z.le_refl _)), (proj2 (Z.leb_le _ _) (Z.le_refl _)).
  repeat split.
  destruct (offset (astart this) >? offset (astart this)) eqn:E; [|reflexivity].
  apply Z.gtb_lt in E. lia.
Qed.

(** X11. Strict containment in a property selection implies containment;
    and containment, strict or not, carries over to every property selection
    of the same path that reaches at least as far to both sides. *)
Theorem isInsideOf_monotone (this : t) (sel sel' : Selection) (strict : bool) :
  isNull sel' = false → isPropertySelection sel' = true →
  path (start sel') = path (start sel) →
  offset (start sel') <= offset (start sel) →
  offset (end_ sel) <= offset (end_ sel') →
  isInsideOf this sel strict = (JSBool true, []) →
  isInsideOf this sel' strict = (JSBool true, [])
  ∧ isInsideOf this sel false = (JSBool true, []).
Proof.
  intros Hn Hp Hpath Hs He. unfold isInsideOf. rewrite Hn, Hp, Hpath.
  destruct (isNull sel); [discriminate|].
  destruct (isPropertySelection sel); [|discriminate].
  destruct strict; intros [= H]; apply andb_true_iff in H as [H H3];
    apply andb_true_iff in H as [H1 H2]; rewrite H1; cbn [andb];
    rewrite ?Z.gtb_lt, ?Z.ltb_lt, ?Z.geb_le, ?Z.leb_le in *.
  - split; do 2 f_equal; apply andb_true_iff; split;
      rewrite ?Z.gtb_lt, ?Z.ltb_lt, ?Z.geb_le, ?Z.leb_le; lia.
  - split; do 2 f_equal; apply andb_true_iff; split;
      rewrite ?Z.gtb_lt, ?Z.ltb_lt, ?Z.geb_le, ?Z.leb_le; lia.
Qed.

Lemma isInsideOf_monotone_witness :
  isInsideOf strong1 (propertySelection ["p1"; "content"] 5 30 "body") true
  = (JSBool true, [])
  ∧ isInsideOf strong1 (propertySelection ["p1"; "content"] 9 20 "body") false
    = (JSBool true, []).
Proof.
  apply (isInsideOf_monotone strong1
           (propertySelection ["p1"; "content"] 9 20 "body")
           (propertySelection ["p1"; "content"] 5 30 "body") true);
    [reflexivity | reflexivity | reflexivity | simpl; lia | simpl; lia | reflexivity].
Defined.

End PropertyAnnotationExtras.

(* ===================================================================== *)
(** * JavaScript strings, maps and sets: the laws used below *)
(* ===================================================================== *)

Module JSFacts.
Import JS.

Lemma chars_app (a b : string) : chars (a +:+ b) = chars a ++ chars b.
Proof. unfold chars. induction a as [|c a IH]; simpl; [reflexivity|]. by rewrite IH. Qed.

Lemma str_chars (s : string) : str (chars s) = s.
Proof. apply string_of_list_ascii_of_string. Qed.

Lemma str_app (a b : list ascii) : str (a ++ b) = str a +:+ str b.
Proof. unfold str. induction a as [|c a IH]; simpl; [reflexivity|]. by rewrite IH. Qed.

Lemma set_has_In (s : Set_) (x : string) : set_has s x = true ↔ x ∈ s.
Proof.
  unfold set_has. rewrite existsb_exists. split.
  - intros [y [Hy E]]. apply String.eqb_eq in E. subst. by apply list_elem_of_In.
  - intros H. exists x. split; [by apply list_elem_of_In | apply String.eqb_refl].
Qed.

Lemma elem_of_set_add (s : Set_) (x y : string) :
  y ∈ set_add s x ↔ y ∈ s ∨ y = x.
Proof.
  unfold set_add. destruct (set_has s x) eqn:E.
  - apply set_has_In in E. split; [by left | by intros [?| ->]].
  - rewrite elem_of_app, list_elem_of_singleton. reflexivity.
Qed.

Lemma NoDup_set_add (s : Set_) (x : string) : NoDup s → NoDup (set_add s x).
Proof.
  intros H. unfold set_add. destruct (set_has s x) eqn:E; [done|].
  apply NoDup_app. split; [done|]. split; [|apply NoDup_singleton].
  intros y Hy ->%list_elem_of_singleton. apply set_has_In in Hy. congruence.
Qed.

Lemma elem_of_set_delete (s : Set_) (x y : string) :
  y ∈ set_delete s x ↔ y ∈ s ∧ y ≠ x.
Proof.
  unfold set_delete. rewrite !list_elem_of_In, filter_In, negb_true_iff.
  destruct (String.eqb_spec x y); split; intros [? ?]; split; congruence.
Qed.

Lemma set_add_idemp (s : Set_) (x : string) : set_add (set_add s x) x = set_add s x.
Proof.
  unfold set_add at 1.
  assert (E : set_has (set_add s x) x = true)
    by (apply set_has_In, elem_of_set_add; by right).
  by rewrite E.
Qed.

Lemma set_add_fresh (s : Set_) (x : string) : x ∉ s → set_add s x = s ++ [x].
Proof.
  intros H. unfold set_add. destruct (set_has s x) eqn:E; [|reflexivity].
  by apply set_has_In in E.
Qed.

Lemma fold_set_add_elem (l : list string) (s : Set_) (y : string) :
  y ∈ fold_left set_add l s ↔ y ∈ s ∨ y ∈ l.
Proof.
  revert s. induction l as [|x l IH]; intros s; simpl.
  - rewrite elem_of_nil. tauto.
  - rewrite IH, elem_of_set_add, elem_of_cons. tauto.
Qed.

Lemma fold_set_add_NoDup (l : list string) (s : Set_) :
  NoDup s → NoDup (fold_left set_add l s).
Proof.
  revert s. induction l as [|x l IH]; intros s H; simpl; [done|].
  apply IH. by apply NoDup_set_add.
Qed.

Lemma fold_set_add_fresh (l : list string) (s : Set_) :
  NoDup (s ++ l) → fold_left set_add l s = s ++ l.
Proof.
  revert s. induction l as [|x l IH]; intros s H; simpl.
  - by rewrite app_nil_r.
  - assert (Hx : x ∉ s).
    { apply NoDup_app in H as (_ & H & _). intros Hs. apply (H x Hs). by left. }
    rewrite (set_add_fresh _ _ Hx), IH, <- app_assoc; [reflexivity|].
    by rewrite <- app_assoc.
Qed.

Lemma map_get_set {V} (m : Map V) (k k' : string) (v : V) :
  map_get (map_set m k v) k' = if String.eqb k' k then Some v else map_get m k'.
Proof.
  induction m as [|[k0 v0] m IH]; simpl.
  - reflexivity.
  - destruct (String.eqb_spec k k0) as [->|Hk]; simpl.
    + destruct (String.eqb_spec k' k0); reflexivity.
    + rewrite IH. destruct (String.eqb_spec k' k0) as [->|?]; [|reflexivity].
      destruct (String.eqb_spec k0 k); congruence.
Qed.

Lemma map_get_delete {V} (m : Map V) (k k' : string) :
  map_get (map_delete m k) k' = if String.eqb k' k then None else map_get m k'.
Proof.
  induction m as [|[k0 v0] m IH]; simpl.
  - by destruct (String.eqb k' k).
  - destruct (String.eqb_spec k k0) as [->|Hk]; simpl.
    + rewrite IH. destruct (String.eqb_spec k' k0); reflexivity.
    + rewrite IH. destruct (String.eqb_spec k' k0) as [->|?]; [|reflexivity].
      destruct (String.eqb_spec k0 k); congruence.
Qed.

Lemma map_has_set {V} (m : Map V) (k k' : string) (v : V) :
  map_has m k' = true → map_has (map_set m k v) k' = true.
Proof.
  unfold map_has. rewrite map_get_set. by destruct (String.eqb k' k).
Qed.

(** Splitting at white space. *)
Lemma splitSpaces_word (w : list ascii) (cur rest : list ascii) (sk : bool) :
  w ≠ [] → Forall (λ c, isSpace c = false) w →
  splitSpaces cur sk (w ++ rest) = splitSpaces (cur ++ w) false rest.
Proof.
  revert cur sk. induction w as [|c w IH]; intros cur sk Hne Hw; [done|].
  apply Forall_cons in Hw as [Hc Hw]. simpl. rewrite Hc.
  destruct w as [|c' w].
  - reflexivity.
  - rewrite IH by done. by rewrite <- app_assoc.
Qed.

Lemma splitSpaces_nonempty (cur l : list ascii) (sk : bool) : splitSpaces cur sk l ≠ [].
Proof.
  revert cur sk. induction l as [|c l IH]; intros cur sk; simpl; [done|].
  destruct (isSpace c); [destruct sk|]; [apply IH | done | apply IH].
Qed.

Lemma splitOnSpaces_join (cs : list string) :
  cs ≠ [] → Forall className cs → splitOnSpaces (join " " cs) = cs.
Proof.
  unfold splitOnSpaces.
  assert (G : ∀ sk, cs ≠ [] → Forall className cs →
              splitSpaces [] sk (chars (join " " cs)) = cs); [|by apply G].
  induction cs as [|c cs IH]; intros sk Hne Hall; [done|].
  apply Forall_cons in Hall as [[Hc Hw] Hall].
  assert (Hcne : chars c ≠ []).
  { intros E. apply Hc. rewrite <- (str_chars c), E. reflexivity. }
  destruct cs as [|c' cs].
  - simpl. rewrite <- (app_nil_r (chars c)), splitSpaces_word by done.
    simpl. by rewrite str_chars.
  - change (join " " (c :: c' :: cs)) with (c +:+ " " +:+ join " " (c' :: cs)).
    rewrite chars_app, splitSpaces_word by done.
    rewrite chars_app. simpl. rewrite str_chars. f_equal. by apply IH.
Qed.

(** Trimming. *)
Lemma dropSpaces_length (l : list ascii) : (length (dropSpaces l) <= length l)%nat.
Proof.
  induction l as [|c l IH]; simpl; [lia|]. destruct (isSpace c); simpl; lia.
Qed.

Lemma dropSpaces_fix (l : list ascii) :
  dropSpaces l = l ↔ match l with [] => True | c :: _ => isSpace c = false end.
Proof.
  destruct l as [|c l]; simpl; [tauto|].
  destruct (isSpace c) eqn:E; [|tauto]. split; [|discriminate].
  intros H. pose proof (dropSpaces_length l) as Hl. rewrite H in Hl. simpl in Hl. lia.
Qed.

Lemma dropSpaces_same_length (l : list ascii) :
  length (dropSpaces l) = length l → dropSpaces l = l.
Proof.
  destruct l as [|c l]; simpl; [done|]. destruct (isSpace c); [|done].
  intros H. pose proof (dropSpaces_length l). lia.
Qed.

Lemma dropSpaces_app (a b : list ascii) :
  a ≠ [] → dropSpaces a = a → dropSpaces (a ++ b) = a ++ b.
Proof.
  intros Hne H. apply dropSpaces_fix. apply dropSpaces_fix in H.
  destruct a; [done|]. exact H.
Qed.

(** A string is trimmed iff it neither starts nor ends with white space. *)
Lemma trim_fix (s : string) :
  trim s = s ↔ dropSpaces (chars s) = chars s ∧ dropSpaces (rev (chars s)) = rev (chars s).
Proof.
  unfold trim. split.
  - intros H. apply (f_equal chars) in H. rewrite StringFacts.chars_str in H.
    pose proof (f_equal (@length ascii) H) as Hlen. rewrite length_rev in Hlen.
    pose proof (dropSpaces_length (rev (dropSpaces (chars s)))) as H1.
    pose proof (dropSpaces_length (chars s)) as H2. rewrite length_rev in H1.
    assert (E : dropSpaces (chars s) = chars s) by (apply dropSpaces_same_length; lia).
    split; [exact E|]. rewrite E in Hlen. apply dropSpaces_same_length.
    rewrite length_rev. exact Hlen.
  - intros [-> ->]. by rewrite rev_involutive, str_chars.
Qed.

Lemma trim_str (l : list ascii) :
  dropSpaces l = l → dropSpaces (rev l) = rev l → trim (str l) = str l.
Proof. intros H1 H2. apply trim_fix. by rewrite StringFacts.chars_str. Qed.

(** Splitting at a character. *)
Lemma splitAt_no_sep (sep : ascii) (cur l : list ascii) :
  sep ∉ l → splitAt sep cur l = [str (cur ++ l)].
Proof.
  revert cur. induction l as [|c l IH]; intros cur H; simpl.
  - by rewrite app_nil_r.
  - apply not_elem_of_cons in H as [Hc Hl].
    destruct (Ascii.eqb_spec c sep) as [->|_]; [done|].
    by rewrite IH, <- app_assoc.
Qed.

Lemma splitAt_pieces (P : ascii → Prop) (sep : ascii) (cur l : list ascii) :
  Forall P cur → Forall P l →
  Forall (λ piece, Forall P (chars piece)) (splitAt sep cur l).
Proof.
  revert cur. induction l as [|c l IH]; intros cur Hcur Hl; simpl.
  - constructor; [|constructor]. by rewrite StringFacts.chars_str.
  - apply Forall_cons in Hl as [Hc Hl]. destruct (Ascii.eqb c sep).
    + constructor; [by rewrite StringFacts.chars_str|]. by apply IH.
    + apply IH; [|done]. apply Forall_app. split; [done|]. by constructor.
Qed.

Lemma dropSpaces_Forall (P : ascii → Prop) (l : list ascii) :
  Forall P l → Forall P (dropSpaces l).
Proof.
  induction 1 as [|c l Hc Hl IH]; simpl; [constructor|].
  destruct (isSpace c); [done | by constructor].
Qed.

Lemma trim_Forall (P : ascii → Prop) (s : string) :
  Forall P (chars s) → Forall P (chars (trim s)).
Proof.
  intros H. unfold trim. rewrite StringFacts.chars_str.
  apply Forall_rev, dropSpaces_Forall, Forall_rev, dropSpaces_Forall, H.
Qed.

(** The first position of a character. *)
Lemma indexOfChar_absent (c : ascii) (l : list ascii) :
  c ∉ l → indexOfChar c l = -1.
Proof.
  induction l as [|x l IH]; intros H; simpl; [reflexivity|].
  apply not_elem_of_cons in H as [Hx Hl].
  destruct (Ascii.eqb_spec x c) as [->|_]; [done|]. by rewrite IH.
Qed.

Lemma indexOfChar_first (c : ascii) (a b : list ascii) :
  c ∉ a → indexOfChar c (a ++ c :: b) = Z.of_nat (length a).
Proof.
  induction a as [|x a IH]; intros H; simpl.
  - by rewrite Ascii.eqb_refl.
  - apply not_elem_of_cons in H as [Hx Ha].
    destruct (Ascii.eqb_spec x c) as [->|_]; [done|]. rewrite IH by done.
    destruct (Z.eqb_spec (Z.of_nat (length a)) (-1)); lia.
Qed.

(** Lower case. *)
Lemma lowerChar_idemp (c : ascii) : lowerChar (lowerChar c) = lowerChar c.
Proof. destruct c as [[] [] [] [] [] [] [] []]; reflexivity. Qed.

Lemma toLowerCase_idemp (s : string) : toLowerCase (toLowerCase s) = toLowerCase s.
Proof.
  unfold toLowerCase. rewrite StringFacts.chars_str, map_map. f_equal.
  apply map_ext. intros c. apply lowerChar_idemp.
Qed.

Lemma toLowerCase_empty (s : string) : toLowerCase s = "" → s = "".
Proof.
  unfold toLowerCase. intros H. apply (f_equal chars) in H.
  rewrite StringFacts.chars_str in H. simpl in H. apply map_eq_nil in H.
  rewrite <- (str_chars s), H. reflexivity.
Qed.

End JSFacts.

(* ===================================================================== *)
(** * XNode: classes, styles, attributes, properties and the tag name *)
(* ===================================================================== *)

Module XElementFacts.
Import JS XElement JSFacts.

Lemma set_has_iff (s s' : Set_) (x y : string) :
  (x ∈ s ↔ y ∈ s') → set_has s x = set_has s' y.
Proof.
  rewrite <- !set_has_In. destruct (set_has s x), (set_has s' y); intuition congruence.
Qed.

Lemma fold_throw {A B} (f : A → B → Result A) (l : list B) (msg : string) :
  fold_left (λ acc x, let! a := acc in f a x) l (Throw msg) = Throw msg.
Proof. induction l as [|x l IH]; simpl; [reflexivity | exact IH]. Qed.

Lemma parseClasses_Some (cs : Set_) (v : string) :
  parseClasses (Some cs) v = Ok (Some (fold_left set_add (splitOnSpaces v) cs)).
Proof.
  unfold parseClasses. generalize (splitOnSpaces v). intros l. revert cs.
  induction l as [|x l IH]; intros cs; simpl; [reflexivity | apply IH].
Qed.

Lemma parseClasses_None (v : string) : parseClasses None v = Throw TypeError.
Proof.
  unfold parseClasses, splitOnSpaces.
  pose proof (splitSpaces_nonempty [] (chars v) false) as H.
  destruct (splitSpaces [] false (chars v)) as [|x l]; [done|]. simpl.
  apply (fold_throw (λ c name_, match c with
                                | Some cs => Ok (Some (set_add cs name_))
                                | None => Throw TypeError
                                end)).
Qed.

(** X12. On a node that has a class set: a class is there after
    [addClass] and gone after [removeClass]; the other classes are not
    touched by either; adding twice is adding once; and the set keeps each
    class once. *)
Theorem class_laws (this : t) (cs : Set_) (c c' : string) :
  classes this = Some cs →
  hasClass (addClass this c) c = Answer true
  ∧ hasClass (removeClass this c) c = Answer false
  ∧ (c' ≠ c → hasClass (addClass this c) c' = hasClass this c'
             ∧ hasClass (removeClass this c) c' = hasClass this c')
  ∧ addClass (addClass this c) c = addClass this c
  ∧ (NoDup cs → ∃ cs', classes (addClass this c) = Some cs' ∧ NoDup cs').
Proof.
  intros H. unfold hasClass, addClass, removeClass. rewrite H.
  cbn [classes set_classes]. repeat split.
  - f_equal. apply set_has_In, elem_of_set_add. by right.
  - f_equal. apply not_true_is_false. rewrite set_has_In, elem_of_set_delete. tauto.
  - f_equal. apply set_has_iff. rewrite elem_of_set_add. tauto.
  - f_equal. apply set_has_iff. rewrite elem_of_set_delete. tauto.
  - unfold set_classes. cbn. by rewrite set_add_idemp.
  - intros Hnd. eexists. split; [reflexivity|]. by apply NoDup_set_add.
Qed.

Lemma class_laws_witness :
  hasClass (addClass (mk (Some "p") (Some []) (Some []) (Some ["a"]) (Some [])) "b") "b"
  = Answer true.
Proof.
  exact (proj1 (class_laws (mk (Some "p") (Some []) (Some []) (Some ["a"]) (Some []))
                           ["a"] "b" "a" eq_refl)).
Defined.

(** X13. On a node without a class set, such as a text node, [addClass]
    and [removeClass] do nothing and [hasClass] answers with the node
    itself, which is truthy, for every class; reading or writing the
    attribute [class] raises; and after [removeAttribute('class')] the node
    has an empty class set, so that [hasClass] answers false. *)
Theorem classless_node (this : t) (c v : string) :
  classes this = None →
  addClass this c = this ∧ removeClass this c = this
  ∧ hasClass this c = This this ∧ truthyHasClass (hasClass this c) = true
  ∧ hasAttribute this "class" = Ok false
  ∧ getAttribute this "class" = Throw TypeError
  ∧ setAttribute this "class" v = Throw TypeError
  ∧ ∃ this', removeAttribute this "class" = Ok this'
             ∧ hasAttribute this' "class" = Ok true
             ∧ hasClass this' c = Answer false.
Proof.
  intros H.
  unfold addClass, removeClass, hasClass, hasAttribute, getAttribute, setAttribute,
    removeAttribute, stringifyClasses.
  rewrite H, parseClasses_None. cbn. repeat split.
  eexists. repeat split.
Qed.

Lemma classless_node_witness :
  hasClass createTextNode "a" = This createTextNode
  ∧ setAttribute createTextNode "class" "a" = Throw TypeError.
Proof.
  destruct (classless_node createTextNode "a" "a" eq_refl)
    as (_ & _ & H3 & _ & _ & _ & H7 & _).
  split; [exact H3 | exact H7].
Defined.

(** X14. [setAttribute('class', v)] adds to the class set: the classes
    afterwards are those before and the pieces of [v] between white space,
    each once; none is taken away.  For the empty string the empty class is
    added. *)
Theorem setAttribute_class_adds (this : t) (cs : Set_) (v : string) :
  classes this = Some cs →
  ∃ cs', setAttribute this "class" v = Ok (set_classes (Some cs') this)
         ∧ (∀ c, c ∈ cs' ↔ c ∈ cs ∨ c ∈ splitOnSpaces v)
         ∧ (NoDup cs → NoDup cs')
         ∧ (v = "" → "" ∈ cs').
Proof.
  intros H. unfold setAttribute. cbn [String.eqb Ascii.eqb Bool.eqb].
  rewrite H, parseClasses_Some. eexists. split; [reflexivity|]. repeat split.
  - by apply fold_set_add_elem.
  - by rewrite fold_set_add_elem.
  - by apply fold_set_add_NoDup.
  - intros ->. apply fold_set_add_elem. right. by left.
Qed.

Lemma setAttribute_class_adds_witness :
  ∃ cs', setAttribute (mk (Some "p") (Some []) (Some []) (Some ["a"]) (Some []))
                      "class" "b  a c"
         = Ok (set_classes (Some cs') (mk (Some "p") (Some []) (Some []) (Some ["a"]) (Some [])))
         ∧ NoDup cs'.
Proof.
  destruct (setAttribute_class_adds (mk (Some "p") (Some []) (Some []) (Some ["a"]) (Some []))
              ["a"] "b  a c" eq_refl) as [cs' [H1 [_ [H3 _]]]].
  exists cs'. split; [exact H1|]. apply H3. apply NoDup_singleton.
Defined.

(** X15. Reading the attribute [class], clearing it and writing it back
    gives the node back when it has at least one class, all of them proper
    class names; on a node with an empty class set it leaves the empty
    class behind. *)
Theorem class_attribute_round_trip (this : t) (cs : Set_) :
  classes this = Some cs → NoDup cs → Forall className cs →
  ∃ v this0,
    getAttribute this "class" = Ok (Some v)
    ∧ removeAttribute this "class" = Ok this0
    ∧ setAttribute this0 "class" v
      = Ok (match cs with [] => set_classes (Some [""]) this | _ => this end).
Proof.
  intros H Hnd Hall.
  unfold getAttribute, removeAttribute, setAttribute, stringifyClasses.
  cbn [String.eqb Ascii.eqb Bool.eqb]. rewrite H. cbn [bindR].
  eexists. eexists. split; [reflexivity|]. split; [reflexivity|].
  cbn [classes set_classes]. rewrite parseClasses_Some. cbn [bindR].
  destruct cs as [|c cs].
  - reflexivity.
  - rewrite splitOnSpaces_join by done. rewrite fold_set_add_fresh by done.
    destruct this. simpl in *. by subst.
Qed.

Lemma class_attribute_round_trip_witness :
  ∃ v this0,
    getAttribute (mk (Some "p") (Some []) (Some []) (Some ["a"; "b"]) (Some [])) "class"
    = Ok (Some v)
    ∧ removeAttribute (mk (Some "p") (Some []) (Some []) (Some ["a"; "b"]) (Some [])) "class"
      = Ok this0
    ∧ setAttribute this0 "class" v
      = Ok (mk (Some "p") (Some []) (Some []) (Some ["a"; "b"]) (Some [])).
Proof.
  apply (class_attribute_round_trip
           (mk (Some "p") (Some []) (Some []) (Some ["a"; "b"]) (Some [])) ["a"; "b"] eq_refl).
  - apply (bool_decide_unpack _). vm_compute. exact I.
  - repeat constructor; try discriminate.
Defined.

Lemma stringifyStyles_empty (styles : option (Map string)) : stringifyStyles styles = "".
Proof. by destruct styles. Qed.

Lemma parseStyle_Some (m : Map string) (style : string) :
  ∃ m', parseStyle (Some m) style = Ok (Some m')
        ∧ (∀ k, map_has m k = true → map_has m' k = true)
        ∧ (":"%char ∉ chars style → m' = m).
Proof.
  unfold parseStyle.
  destruct ((indexOfChar ":" (chars style) <? 1)
            || (indexOfChar ":" (chars style) =? strlen style - 1)) eqn:E.
  - exists m. by repeat split.
  - eexists. split; [reflexivity|]. split.
    + intros k. apply map_has_set.
    + intros Hno. rewrite indexOfChar_absent in E by done. discriminate.
Qed.

Lemma parseStyles_Some (m : Map string) (v : option string) :
  ∃ m', parseStyles (Some m) v = Ok (Some m')
        ∧ (∀ k, map_has m k = true → map_has m' k = true)
        ∧ (":"%char ∉ chars (match v with Some s => s | None => "" end) → m' = m).
Proof.
  unfold parseStyles. set (s := match v with Some s => s | None => "" end).
  destruct (String.eqb (trim s) ""); [exists m; by repeat split|].
  assert (G : ∀ l m0, ∃ m', fold_left (λ acc style, let! s0 := acc in parseStyle s0 style)
                              l (Ok (Some m0)) = Ok (Some m')
                    ∧ (∀ k, map_has m0 k = true → map_has m' k = true)
                    ∧ (Forall (λ piece, Forall (λ c, c ≠ ":"%char) (chars piece)) l → m' = m0)).
  { induction l as [|x l IH]; intros m0; simpl.
    - exists m0. by repeat split.
    - destruct (parseStyle_Some m0 x) as (m1 & -> & Hk1 & Hno1).
      destruct (IH m1) as (m2 & -> & Hk2 & Hno2).
      exists m2. split; [reflexivity|]. split; [by auto|].
      intros [Hx Hl]%Forall_cons. rewrite (Hno2 Hl). apply Hno1.
      intros Hin. rewrite Forall_forall in Hx. by apply (Hx _ Hin). }
  destruct (G (splitOn ";" (trim s)) m) as (m' & -> & Hk & Hno).
  exists m'. split; [reflexivity|]. split; [exact Hk|].
  intros Hcolon. apply Hno. unfold splitOn. apply splitAt_pieces; [constructor|].
  apply trim_Forall. apply Forall_forall. intros c Hc ->. by apply Hcolon.
Qed.

(** X16. [setAttribute('style', v)] on a node with styles never raises and
    never takes a style away or touches another field; a string without a
    colon changes nothing.  Whatever was set, the attribute [style] reads
    as the empty string afterwards. *)
Theorem style_attribute_adds_and_reads_empty (this : t) (m : Map string) (v : string) :
  styles this = Some m →
  ∃ m', setAttribute this "style" v = Ok (set_styles (Some m') this)
        ∧ (∀ k, is_Some (getStyle this k) → is_Some (getStyle (set_styles (Some m') this) k))
        ∧ (":"%char ∉ chars v → m' = m)
        ∧ getAttribute (set_styles (Some m') this) "style" = Ok (Some "").
Proof.
  intros H. unfold setAttribute, getAttribute, getStyle.
  cbn [String.eqb Ascii.eqb Bool.eqb]. rewrite H.
  destruct (parseStyles_Some m (Some v)) as (m' & -> & Hk & Hno).
  exists m'. split; [reflexivity|]. cbn [styles set_styles].
  split; [|split; [exact Hno | by rewrite stringifyStyles_empty]].
  intros k [x Hx]. specialize (Hk k). unfold map_has in Hk. rewrite Hx in Hk.
  specialize (Hk eq_refl). destruct (map_get m' k); [by eexists | discriminate].
Qed.

Lemma style_attribute_adds_and_reads_empty_witness :
  ∃ m', setAttribute (mk (Some "p") (Some []) (Some []) (Some []) (Some [("color", "red")]))
                     "style" "width: 10px; color"
        = Ok (set_styles (Some m')
                (mk (Some "p") (Some []) (Some []) (Some []) (Some [("color", "red")])))
        ∧ is_Some (map_get m' "color").
Proof.
  destruct (style_attribute_adds_and_reads_empty
              (mk (Some "p") (Some []) (Some []) (Some []) (Some [("color", "red")]))
              [("color", "red")] "width: 10px; color" eq_refl) as (m' & H1 & H2 & _).
  exists m'. split; [exact H1|]. apply (H2 "color"). by eexists.
Defined.

(** X17. A single declaration [name:val], both parts trimmed and not
    empty, without a semicolon and the name without a colon, is stored under
    [name] by [setAttribute('style', ...)] and read back by [getStyle]. *)
Theorem style_declaration_is_stored (this : t) (m : Map string) (name_ val : string) :
  styles this = Some m →
  name_ ≠ "" → val ≠ "" → trim name_ = name_ → trim val = val →
  ":"%char ∉ chars name_ → ";"%char ∉ chars name_ → ";"%char ∉ chars val →
  setAttribute this "style" (name_ +:+ ":" +:+ val)
  = Ok (set_styles (Some (map_set m name_ val)) this)
  ∧ getStyle (set_styles (Some (map_set m name_ val)) this) name_ = Some val.
Proof.
  intros H Hn Hv Htn Htv Hcolon Hsemi Hsemiv.
  assert (Hcn : chars name_ ≠ []).
  { intros E. apply Hn. by rewrite <- (str_chars name_), E. }
  assert (Hcv : chars val ≠ []).
  { intros E. apply Hv. by rewrite <- (str_chars val), E. }
  apply trim_fix in Htn as Hen. destruct Hen as [Hn1 Hn2].
  apply trim_fix in Htv as Hev. destruct Hev as [Hv1 Hv2].
  assert (Hchars : chars (name_ +:+ ":" +:+ val) = chars name_ ++ ":"%char :: chars val).
  { by rewrite !chars_app. }
  assert (Htrim : trim (name_ +:+ ":" +:+ val) = name_ +:+ ":" +:+ val).
  { apply trim_fix. rewrite Hchars. split.
    - by apply dropSpaces_app.
    - rewrite rev_app_distr. simpl. rewrite <- app_assoc.
      apply dropSpaces_app; [|done]. intros E. apply Hcv.
      by rewrite <- (rev_involutive (chars val)), E. }
  split.
  2: { unfold getStyle. cbn [styles set_styles]. by rewrite map_get_set, String.eqb_refl. }
  unfold setAttribute. cbn [String.eqb Ascii.eqb Bool.eqb]. rewrite H.
  unfold parseStyles. rewrite Htrim.
  destruct (String.eqb_spec (name_ +:+ ":" +:+ val) "") as [E|_].
  { apply (f_equal chars) in E. rewrite Hchars in E. by destruct (chars name_). }
  unfold splitOn. rewrite splitAt_no_sep.
  2: { rewrite Hchars, not_elem_of_app, not_elem_of_cons. done. }
  simpl. rewrite str_chars. unfold parseStyle.
  rewrite Hchars, indexOfChar_first by done.
  unfold strlen. rewrite Hchars, length_app. simpl.
  destruct (Z.ltb_spec (Z.of_nat (length (chars name_))) 1) as [Hlt|_].
  { destruct (chars name_); [done|]. simpl in Hlt. lia. }
  destruct (Z.eqb_spec (Z.of_nat (length (chars name_)))
              (Z.of_nat (length (chars name_) + S (length (chars val))) - 1)) as [Heq|_].
  { destruct (chars val); [done|]. simpl in Heq. lia. }
  simpl. rewrite Nat2Z.id.
  replace (Z.to_nat (Z.of_nat (length (chars name_)) + 1)) with (S (length (chars name_))) by lia.
  rewrite take_app_length.
  replace (drop (S (length (chars name_))) (chars name_ ++ ":"%char :: chars val))
    with (chars val).
  2: { change (":"%char :: chars val) with ([":"%char] ++ chars val).
       rewrite app_assoc.
       replace (S (length (chars name_))) with (length (chars name_ ++ [":"%char]))
         by (rewrite length_app; simpl; lia).
       by rewrite drop_app_length. }
  by rewrite !str_chars, Htn, Htv.
Qed.

Lemma style_declaration_is_stored_witness :
  getStyle (set_styles (Some (map_set [] "border" "1px solid red"))
              (mk (Some "p") (Some []) (Some []) (Some []) (Some [])))
           "border"
  = Some "1px solid red".
Proof.
  refine (proj2 (style_declaration_is_stored
                   (mk (Some "p") (Some []) (Some []) (Some []) (Some []))
                   [] "border" "1px solid red" eq_refl _ _ eq_refl eq_refl _ _ _));
    try discriminate; apply (bool_decide_unpack _); vm_compute; exact I.
Defined.

(** X18. For a name other than [class] and [style], on a node with an
    attribute map: an attribute that was set is there and reads as the value
    set; the other attributes, [class] and [style] among them, read as
    before; and after [removeAttribute] it is gone. *)
Theorem attribute_laws (this : t) (m : Map string) (name_ name' value : string) :
  attributes this = Some m → name_ ≠ "class" → name_ ≠ "style" →
  ∃ this', setAttribute this name_ value = Ok this'
    ∧ getAttribute this' name_ = Ok (Some value)
    ∧ hasAttribute this' name_ = Ok true
    ∧ (name' ≠ name_ → getAttribute this' name' = getAttribute this name'
                       ∧ hasAttribute this' name' = hasAttribute this name')
    ∧ ∃ this'', removeAttribute this' name_ = Ok this''
        ∧ hasAttribute this'' name_ = Ok false
        ∧ getAttribute this'' name_ = Ok None
        ∧ (name' ≠ name_ → getAttribute this'' name' = getAttribute this name').
Proof.
  intros H Hc Hs. unfold setAttribute, getAttribute, hasAttribute, removeAttribute.
  destruct (String.eqb_spec name_ "class") as [|_]; [done|].
  destruct (String.eqb_spec name_ "style") as [|_]; [done|].
  rewrite H. eexists. split; [reflexivity|].
  cbn [attributes set_attributes classes styles].
  unfold map_has. rewrite !map_get_set, String.eqb_refl.
  split; [reflexivity|]. split; [reflexivity|]. split.
  { intros Hne. by destruct (String.eqb_spec name' name_) as [|_]. }
  eexists. split; [reflexivity|].
  cbn [attributes set_attributes classes styles].
  rewrite !map_get_delete, String.eqb_refl.
  split; [reflexivity|]. split; [reflexivity|].
  intros Hne. destruct (String.eqb_spec name' name_) as [|_]; [done|].
  rewrite map_get_set. by destruct (String.eqb_spec name' name_) as [|_].
Qed.

Lemma attribute_laws_witness :
  ∃ this', setAttribute (mk (Some "a") (Some []) (Some [("id", "x")]) (Some []) (Some []))
                        "href" "#top" = Ok this'
           ∧ getAttribute this' "href" = Ok (Some "#top").
Proof.
  destruct (attribute_laws (mk (Some "a") (Some []) (Some [("id", "x")]) (Some []) (Some []))
              [("id", "x")] "href" "id" "#top" eq_refl) as (this' & H1 & H2 & _);
    [discriminate | discriminate |].
  exists this'. by split.
Defined.

(** X19. [removeProperty] removes nothing: a property that was set with
    [setProperty] is still read by [getProperty] after it was removed. *)
Theorem removeProperty_removes_nothing (this : t) (name_ value : string) :
  is_Some (properties this) →
  removeProperty this name_ = this
  ∧ getProperty (removeProperty (setProperty this name_ value) name_) name_ = Some value.
Proof.
  intros [m H]. unfold removeProperty, setProperty, getProperty, hasOwnProperty. rewrite H.
  cbn [properties set_properties]. rewrite !bool_decide_eq_false_2.
  - cbn [properties set_properties]. by rewrite map_get_set, String.eqb_refl.
  - by intros [? ?].
  - by intros [? ?].
Qed.

Lemma removeProperty_removes_nothing_witness :
  getProperty (removeProperty
                 (setProperty (mk (Some "input") (Some []) (Some []) (Some []) (Some []))
                              "value" "x")
                 "value")
              "value"
  = Some "x".
Proof.
  refine (proj2 (removeProperty_removes_nothing
                   (mk (Some "input") (Some []) (Some []) (Some []) (Some []))
                   "value" "x" _)).
  by eexists.
Defined.

(** X20. The tag name is read in lower case however it was set: an element
    created with a name keeps the name as given and reads it in lower case,
    [setTagName] stores it in lower case, and writing back the name that was
    read changes nothing that is read. *)
Theorem tagName_reads_lower_case (this : t) (tagName : string) :
  tagName ≠ "" →
  (∃ el, createElement tagName = Ok el
         ∧ name el = Some tagName
         ∧ getTagName el = Some (toLowerCase tagName))
  ∧ name (setTagName this tagName) = Some (toLowerCase tagName)
  ∧ getTagName (setTagName this tagName) = Some (toLowerCase tagName)
  ∧ (∀ read, getTagName this = Some read →
             getTagName (setTagName this read) = Some read).
Proof.
  intros Hne. unfold createElement, getTagName, setTagName.
  destruct (String.eqb_spec tagName "") as [|_]; [done|]. split; [|split; [|split]].
  - eexists. split; [reflexivity|]. split; [reflexivity|]. cbn [name].
    by destruct (String.eqb_spec tagName "").
  - reflexivity.
  - cbn [name set_name]. rewrite toLowerCase_idemp.
    destruct (String.eqb_spec (toLowerCase tagName) "") as [E|_]; [|reflexivity].
    by apply toLowerCase_empty in E.
  - intros read. destruct (name this) as [n|]; [|discriminate].
    destruct (String.eqb_spec n "") as [|Hn]; [discriminate|]. intros [= <-].
    cbn [name set_name]. rewrite !toLowerCase_idemp.
    destruct (String.eqb_spec (toLowerCase n) "") as [E|_]; [|reflexivity].
    by apply toLowerCase_empty in E.
Qed.

Lemma tagName_reads_lower_case_witness :
  getTagName (setTagName createTextNode "DIV") = Some "div".
Proof.
  refine (proj1 (proj2 (proj2 (tagName_reads_lower_case createTextNode "DIV" _)))).
  discriminate.
Defined.

End XElementFacts.

(* ===================================================================== *)
(** * XNode: children, root, [empty], [appendChild] and [insertAt] *)
(* ===================================================================== *)

Module XNodeTreeFacts.
Import XNode XNodeTree XNodeFacts.

Lemma indexOf_first (l : list Ref) (x : Ref) :
  x ∈ l →
  0 <= indexOf l x < Z.of_nat (length l)
  ∧ l !! Z.to_nat (indexOf l x) = Some x
  ∧ ∀ j, (j < Z.to_nat (indexOf l x))%nat → l !! j ≠ Some x.
Proof.
  induction l as [|y l IH]; intros Hin; [by apply elem_of_nil in Hin|]. simpl.
  destruct (Nat.eqb_spec y x) as [->|Hne].
  - split; [lia|]. split; [reflexivity|]. intros j Hj. simpl in Hj. lia.
  - apply elem_of_cons in Hin as [->|Hin]; [done|].
    destruct (IH Hin) as (Hr & Hat & Hfirst).
    destruct (Z.eqb_spec (indexOf l x) (-1)) as [E|_]; [lia|].
    split; [lia|].
    replace (Z.to_nat (indexOf l x + 1)) with (S (Z.to_nat (indexOf l x))) by lia.
    split; [exact Hat|]. intros [|j] Hj; simpl.
    + congruence.
    + apply Hfirst. lia.
Qed.

Lemma last_lookup (l : list Ref) :
  List.last (map Some l) None = at_ l (Z.of_nat (length l) - 1).
Proof.
  unfold at_. induction l as [|x l IH]; [reflexivity|].
  destruct l as [|y l].
  - reflexivity.
  - change (List.last (map Some (x :: y :: l)) None) with (List.last (map Some (y :: l)) None).
    rewrite IH.
    destruct (Z.ltb_spec (Z.of_nat (length (y :: l)) - 1) 0) as [H|_];
      [simpl in H; lia|].
    destruct (Z.ltb_spec (Z.of_nat (length (x :: y :: l)) - 1) 0) as [H|_];
      [simpl in H; lia|].
    replace (Z.to_nat (Z.of_nat (length (x :: y :: l)) - 1))
      with (S (Z.to_nat (Z.of_nat (length (y :: l)) - 1))) by (simpl; lia).
    reflexivity.
Qed.

(** X21. On a node with a children array: the index of a child is the
    first position at which [getChildAt] gives that child, and lies within
    the child count; a node that is no child has the index [-1], where
    [getChildAt] gives nothing, as it does from the child count on; the
    first and the last child are those at the first and the last position. *)
Theorem child_index_round_trip (h : Heap) (this child : Ref) (cs : list Ref) :
  children (h !!! this) = Some cs →
  (child ∈ cs →
   ∃ i, getChildIndex h this child = Some i
        ∧ 0 <= i < getChildCount h this
        ∧ getChildAt h this i = Some child
        ∧ ∀ j, 0 <= j < i → getChildAt h this j ≠ Some child)
  ∧ (child ∉ cs →
     getChildIndex h this child = Some (-1) ∧ getChildAt h this (-1) = None)
  ∧ (∀ pos, getChildCount h this <= pos → getChildAt h this pos = None)
  ∧ getFirstChild h this = getChildAt h this 0
  ∧ getLastChild h this = getChildAt h this (getChildCount h this - 1).
Proof.
  intros H. unfold getChildIndex, getChildCount, getChildAt, getFirstChild, getLastChild.
  rewrite H. repeat split.
  - intros Hin. destruct (indexOf_first cs child Hin) as (Hr & Hat & Hfirst).
    exists (indexOf cs child). split; [reflexivity|]. split; [exact Hr|]. split.
    + unfold at_. destruct (Z.ltb_spec (indexOf cs child) 0); [lia | exact Hat].
    + intros j Hj. unfold at_. destruct (Z.ltb_spec j 0); [lia|]. apply Hfirst. lia.
  - f_equal. apply indexOf_absent. by rewrite <- list_elem_of_In.
  - intros pos Hpos. unfold at_. destruct (Z.ltb_spec pos 0); [reflexivity|].
    apply lookup_ge_None. lia.
  - apply last_lookup.
Qed.

Lemma child_index_round_trip_witness :
  ∃ i, getChildIndex Samples.sampleHeap 1%nat 2%nat = Some i
       ∧ getChildAt Samples.sampleHeap 1%nat i = Some 2%nat.
Proof.
  destruct (proj1 (child_index_round_trip Samples.sampleHeap 1%nat 2%nat [2%nat] eq_refl))
    as (i & H1 & _ & H3 & _).
  - by left.
  - exists i. by split.
Defined.

Lemma getRoot_mono (fuel : nat) (h : Heap) (el r : Ref) :
  getRoot fuel h el = Some r → getRoot (S fuel) h el = Some r.
Proof.
  revert el. induction fuel as [|fuel IH]; intros el; [discriminate|].
  intros H. simpl in H. change (getRoot (S (S fuel)) h el)
    with (match parent (h !!! el) with
          | Some p => getRoot (S fuel) h p
          | None => Some el
          end).
  destruct (parent (h !!! el)); [by apply IH | exact H].
Qed.

Lemma getRoot_sound (fuel : nat) (h : Heap) (el r : Ref) :
  getRoot fuel h el = Some r → rtc (parentOf h) el r ∧ getParent h r = None.
Proof.
  revert el. induction fuel as [|fuel IH]; intros el; [discriminate|]. simpl.
  destruct (parent (h !!! el)) as [p|] eqn:E.
  - intros H. destruct (IH _ H) as [H1 H2]. split; [|exact H2].
    by apply (rtc_l _ _ p).
  - intros [= <-]. split; [apply rtc_refl | exact E].
Qed.

Lemma getRoot_complete (h : Heap) (el r : Ref) :
  rtc (parentOf h) el r → getParent h r = None → ∃ fuel, getRoot fuel h el = Some r.
Proof.
  induction 1 as [el|el p r Hstep _ IH]; intros Hr.
  - exists 1%nat. simpl. unfold getParent in Hr. by rewrite Hr.
  - destruct (IH Hr) as [fuel Hf]. exists (S fuel). simpl.
    unfold parentOf in Hstep. by rewrite Hstep.
Qed.

(** X22. [getRoot] ends on a node exactly when the node is reached by
    climbing from parent to parent and has no parent itself; every node
    passed on the way has the same root. *)
Theorem getRoot_is_the_parentless_ancestor (h : Heap) (el r : Ref) :
  ((∃ fuel, getRoot fuel h el = Some r)
   ↔ rtc (parentOf h) el r ∧ getParent h r = None)
  ∧ (∀ fuel a, getRoot fuel h el = Some r → rtc (parentOf h) el a →
               getRoot fuel h a = Some r).
Proof.
  split; [split|].
  - intros [fuel H]. by apply (getRoot_sound fuel).
  - intros [H1 H2]. by apply getRoot_complete.
  - intros fuel a H Hrtc. revert fuel H.
    induction Hrtc as [el|el p a Hstep _ IH]; intros fuel H; [exact H|].
    destruct fuel as [|fuel]; [discriminate|]. simpl in H.
    unfold parentOf in Hstep. rewrite Hstep in H.
    apply IH. by apply getRoot_mono.
Qed.

Lemma getRoot_is_the_parentless_ancestor_witness :
  ∃ fuel, getRoot fuel Samples.sampleHeap 2%nat = Some 0%nat.
Proof.
  apply (proj2 (proj1 (getRoot_is_the_parentless_ancestor Samples.sampleHeap 2%nat 0%nat))).
  split; [|reflexivity].
  apply (rtc_l _ _ 1%nat); [reflexivity|]. apply (rtc_l _ _ 0%nat); [reflexivity|].
  apply rtc_refl.
Defined.

(** X23. On a node that is among its own ancestors, [getRoot] does not
    end, whatever the number of iterations it is given. *)
Theorem getRoot_cycle_never_ends (h : Heap) (el : Ref) :
  tc (parentOf h) el el → ∀ fuel, getRoot fuel h el = None.
Proof.
  intros Hc fuel. revert el Hc. induction fuel as [|fuel IH]; intros el Hc; [reflexivity|].
  simpl. assert (∃ p, parentOf h el p ∧ tc (parentOf h) p p) as (p & Hp & Hpp).
  { inversion Hc as [? ? Hstep|? p ? Hstep Hrest]; subst.
    - exists el. split; [exact Hstep | by apply tc_once].
    - exists p. split; [exact Hstep|]. eapply tc_r; [exact Hrest | exact Hstep]. }
  unfold parentOf in Hp. rewrite Hp. by apply IH.
Qed.

Lemma getRoot_cycle_never_ends_witness :
  getRoot 100 MoreSamples.loopHeap 0%nat = None.
Proof.
  apply (getRoot_cycle_never_ends MoreSamples.loopHeap 0%nat).
  apply (tc_l _ _ 1%nat); [reflexivity|]. apply tc_once. reflexivity.
Defined.

Lemma unlinked_idemp (n : t) : unlinked (unlinked n) = unlinked n.
Proof. reflexivity. Qed.






Section InsertFacts.

Variable DomUtils_appendChild : Heap → Ref → Ref → Heap.
Variable DomUtils_prepend : Heap → Ref → Ref → Heap.
Variable DomUtils_prepend_undefined : Heap → Ref → Result Heap.

(** X25. For a node as the child, on a node with a children array:
    [insertAt] at a position from the child count on is [appendChild], and
    at the position of a child it is [insertBefore] that child. *)
Theorem insertAt_is_appendChild_or_insertBefore
    (h : Heap) (this child : Ref) (pos : Z) (cs : list Ref) :
  children (h !!! this) = Some cs →
  (getChildCount h this <= pos →
   insertAt DomUtils_appendChild DomUtils_prepend DomUtils_prepend_undefined h this pos (CNode child) = appendChild DomUtils_appendChild h this (CNode child))
  ∧ (∀ before, getChildAt h this pos = Some before →
       insertAt DomUtils_appendChild DomUtils_prepend DomUtils_prepend_undefined h this pos (CNode child)
       = insertBefore DomUtils_prepend h this child before).
Proof.
  intros H. unfold getChildCount, getChildAt, insertAt, appendChild, insertBefore.
  cbn [_normalizeChild bindR fst snd isNil]. rewrite H. split.
  - intros Hpos. destruct (Z.geb_spec pos (Z.of_nat (length cs))); [reflexivity | lia].
  - intros before Hat. rewrite Hat.
    assert (Hin : before ∈ cs).
    { unfold at_ in Hat. destruct (pos <? 0); [discriminate|].
      by apply list_elem_of_lookup_2 in Hat. }
    assert (Hlt : pos < Z.of_nat (length cs)).
    { unfold at_ in Hat. destruct (Z.ltb_spec pos 0); [discriminate|].
      apply lookup_lt_Some in Hat. lia. }
    destruct (Z.geb_spec pos (Z.of_nat (length cs))); [lia|].
    destruct (indexOf_first cs before Hin) as (Hr & _).
    destruct (Z.gtb_spec (indexOf cs before) (-1)); [reflexivity | lia].
Qed.

(** X26. On a node without a children array [appendChild] does nothing
    and returns, whatever it is given, and so does [insertAt] for a node;
    but [insertAt] raises, with or without a children array, for a child
    that is neither a string nor a node, where [appendChild] ignores [null]
    and [undefined] and raises for another such value only on a node with a
    children array. *)
Theorem appendChild_is_silent_where_insertAt_raises
    (h : Heap) (this : Ref) (pos : Z) (child : Child) (r : Ref) :
  (children (h !!! this) = None →
   appendChild DomUtils_appendChild h this child = Ok h ∧ insertAt DomUtils_appendChild DomUtils_prepend DomUtils_prepend_undefined h this pos (CNode r) = Ok h)
  ∧ appendChild DomUtils_appendChild h this CNil = Ok h
  ∧ insertAt DomUtils_appendChild DomUtils_prepend DomUtils_prepend_undefined h this pos CNil
    = Throw "Illegal argument: only String and XNode instances are valid."
  ∧ insertAt DomUtils_appendChild DomUtils_prepend DomUtils_prepend_undefined h this pos CForeign
    = Throw "Illegal argument: only String and XNode instances are valid."
  ∧ (is_Some (children (h !!! this)) →
     appendChild DomUtils_appendChild h this CForeign
     = Throw "Illegal argument: only String and XNode instances are valid.").
Proof.
  unfold insertAt, appendChild. cbn [_normalizeChild bindR fst snd isNil].
  split; [|split; [|split; [|split]]]; try reflexivity.
  - intros ->. by split.
  - by destruct (children (h !!! this)).
  - by intros [cs ->].
Qed.

End InsertFacts.

Lemma insertAt_is_appendChild_or_insertBefore_witness :
  insertAt Samples.noPrepend Samples.noPrepend (λ h _, Ok h)
           Samples.sampleHeap 1%nat 0 (CNode 3%nat)
  = insertBefore Samples.noPrepend Samples.sampleHeap 1%nat 3%nat 2%nat.
Proof.
  exact (proj2 (insertAt_is_appendChild_or_insertBefore
                  Samples.noPrepend Samples.noPrepend (λ h _, Ok h)
                  Samples.sampleHeap 1%nat 3%nat 0 [2%nat] eq_refl)
               2%nat eq_refl).
Defined.

Ltac built :=
  try done; try (by eexists); try discriminate; auto;
  repeat match goal with H : _ ∨ _ |- _ => destruct H end; try discriminate.

(** X27. A node that the constructor has built has the type asked for,
    which is not empty, and neither parent nor siblings; it has an owner
    document unless it is a document; an element node has a children array,
    a text or comment node has data and no children array, and a document
    has the format [xml] or [html]. *)
Theorem constructed_node_is_detached (ty : string) (args : Args) (n : t) :
  new_XNode ty args = Ok n →
  type n = ty ∧ ty ≠ ""
  ∧ parent n = None ∧ prev n = None ∧ next n = None
  ∧ (ty ≠ "document" → is_Some (ownerDocument n))
  ∧ (isElementNode n = true → is_Some (children n))
  ∧ (isTextNode n = true ∨ isCommentNode n = true →
     is_Some (data n) ∧ children n = None)
  ∧ (isDocumentNode n = true → format n = Some "xml" ∨ format n = Some "html").
Proof.
  unfold new_XNode, isElementNode, isTextNode, isCommentNode, isDocumentNode.
  destruct (String.eqb_spec ty "") as [|Hty]; [discriminate|].
  destruct (String.eqb_spec ty "document") as [->|Hdoc].
  - cbn. destruct (args_format args) as [f|]; [|discriminate].
    destruct (String.eqb_spec f "") as [|_]; [discriminate|].
    destruct (String.eqb_spec f "xml") as [->|_];
      [|destruct (String.eqb_spec f "html") as [->|_]; [|discriminate]];
      intros [= <-]; cbn; repeat split; intros; built.
  - cbn [negb andb]. destruct (args_ownerDocument args) as [d|] eqn:Ed.
    2: { rewrite bool_decide_eq_false_2 by (by intros [? ?]). discriminate. }
    rewrite bool_decide_eq_true_2 by (by eexists). cbn [negb].
    destruct (String.eqb_spec ty ElementType.Tag) as [->|Htag].
    { destruct (falsyStr (args_name args)); [discriminate|]. intros [= <-].
      cbn. repeat split; intros; built. }
    destruct (String.eqb_spec ty ElementType.Text) as [->|Htext].
    { cbn. intros [= <-]. cbn. repeat split; intros; built. }
    destruct (String.eqb_spec ty ElementType.Comment) as [->|Hcomment].
    { cbn. intros [= <-]. cbn. repeat split; intros; built. }
    destruct (String.eqb_spec ty ElementType.CDATA) as [->|Hcdata].
    { cbn. intros [= <-]. cbn. repeat split; intros; built. }
    cbn [orb].
    destruct (String.eqb_spec ty ElementType.Directive) as [->|Hdir].
    { intros [= <-]. cbn. repeat split; intros; built. }
    intros [= <-]. cbn [type parent prev next ownerDocument children data format].
    repeat split; intros; try done; try (by eexists);
      repeat match goal with
             | H : _ ∨ _ |- _ => destruct H
             | H : String.eqb _ _ = true |- _ => apply String.eqb_eq in H; subst
             end; done.
Qed.

Lemma constructed_node_is_detached_witness :
  type (mk "text" (Some 0%nat) None (Some "abc") None None None None None) = "text"
  ∧ "text" ≠ "".
Proof.
  destruct (constructed_node_is_detached ElementType.Text
              (mkArgs (Some 0%nat) None (Some "abc") None None)
              (mk "text" (Some 0%nat) None (Some "abc") None None None None None) eq_refl)
    as (H1 & H2 & _).
  by split.
Defined.

End XNodeTreeFacts.

(* ===================================================================== *)
(** * cloneDeep: what the copy is, and when there is one *)
(* ===================================================================== *)

Module CloneDeepFacts.
Import CloneDeep.

Lemma fresh_None (h : Heap) : h !! fresh (dom h) = None.
Proof. unfold Heap in *. apply not_elem_of_dom, is_fresh. Qed.

Lemma insert_fresh_subseteq (h : Heap) (o : Object) : h ⊆ <[fresh (dom h) := o]> h.
Proof. unfold Heap in *. apply insert_subseteq, fresh_None. Qed.

Lemma subseteq_None (h h' : Heap) (r : Ref) : h ⊆ h' → h' !! r = None → h !! r = None.
Proof.
  unfold Heap in *. intros Hsub H. destruct (h !! r) as [o|] eqn:E; [|reflexivity].
  rewrite (lookup_weaken _ _ _ _ E Hsub) in H. discriminate.
Qed.





Lemma elem_of_snd_combine {A B} (l : list A) (k : list B) (y : B) :
  y ∈ map snd (combine l k) → y ∈ k.
Proof.
  revert k. induction l as [|x l IH]; intros [|z k]; simpl; try (by intros ?%elem_of_nil).
  intros [->|H]%elem_of_cons; [by left | right; by apply IH].
Qed.



Lemma insert_fresh_after (h h1 : Heap) (o o' : Object) :
  <[fresh (dom h) := o]> h ⊆ h1 → h ⊆ <[fresh (dom h) := o']> h1.
Proof.
  unfold Heap in *. intros Hsub. apply map_subseteq_spec. intros i x Hi.
  assert (i ≠ fresh (dom h)) by (intros ->; rewrite fresh_None in Hi; discriminate).
  rewrite lookup_insert_ne by done. apply (lookup_weaken _ _ _ _ Hi).
  etrans; [apply insert_fresh_subseteq | exact Hsub].
Qed.





Lemma refersTo_mono (h h' : Heap) (r r' : Ref) :
  h ⊆ h' → refersTo h r r' → refersTo h' r r'.
Proof.
  unfold Heap in *. intros Hsub (o & Ho & Hin). exists o. split; [|exact Hin].
  by apply (lookup_weaken _ _ _ _ Ho).
Qed.

Lemma closed_refl (h : Heap) (r r' : Ref) :
  h !! r = None → refersTo h r r' → h !! r' = None.
Proof. intros Hr (o & Ho & _). congruence. Qed.

Lemma cloneEach_new (fuel : nat) :
  (∀ h v v' h', cloneDeep fuel h v = Some (v', h') →
     h ⊆ h' ∧ isNew h h' v'
     ∧ ∀ r r', h !! r = None → refersTo h' r r' → h !! r' = None) →
  ∀ l h vs h', cloneEach (cloneDeep fuel) l h = Some (vs, h') →
     h ⊆ h' ∧ Forall (isNew h h') vs
     ∧ ∀ r r', h !! r = None → refersTo h' r r' → h !! r' = None.
Proof.
  intros IH. induction l as [|v l IHl]; intros h vs h' H; cbn [cloneEach] in H.
  - injection H as <- <-. split; [reflexivity|]. split; [constructor|].
    apply closed_refl.
  - destruct (cloneDeep fuel h v) as [[v' h1]|] eqn:Ev; [|discriminate].
    destruct (cloneEach (cloneDeep fuel) l h1) as [[vs' h2]|] eqn:El; [|discriminate].
    injection H as <- <-.
    destruct (IH _ _ _ _ Ev) as (Hsub1 & Hnew1 & Hcl1).
    destruct (IHl _ _ _ El) as (Hsub2 & Hnew2 & Hcl2).
    split; [by etrans|]. split; [constructor|].
    + intros r ->. destruct (Hnew1 r eq_refl) as [Hn [o Ho]]. split; [exact Hn|].
      exists o. unfold Heap in *. by apply (lookup_weaken _ _ _ _ Ho).
    + eapply Forall_impl; [exact Hnew2|]. intros x Hx r ->.
      destruct (Hx r eq_refl) as [Hn Hs]. split; [|exact Hs].
      by apply (subseteq_None h h1).
    + intros r r' Hr Href. destruct (h1 !! r) as [o|] eqn:E1.
      * apply (Hcl1 r r' Hr). destruct Href as (o' & Ho' & Hin).
        exists o. split; [exact E1|]. unfold Heap in *.
        rewrite (lookup_weaken _ _ _ _ E1 Hsub2) in Ho'. congruence.
      * apply (subseteq_None h h1); [exact Hsub1|]. by apply (Hcl2 r r').
Qed.

Lemma cloneDeep_new (fuel : nat) (h : Heap) (v v' : Val) (h' : Heap) :
  cloneDeep fuel h v = Some (v', h') →
  h ⊆ h' ∧ isNew h h' v'
  ∧ ∀ r r', h !! r = None → refersTo h' r r' → h !! r' = None.
Proof.
  revert h v v' h'. induction fuel as [|fuel IH]; intros h v v' h'; [discriminate|].
  simpl. unfold Heap in *. destruct v as [p|r].
  - intros [= <- <-]. split; [reflexivity|]. split; [by intros r [=]|]. apply closed_refl.
  - assert (G : ∀ (o0 : Object) (l : list Val) (vs : list Val) (h1 : Heap) (o1 : Object),
               cloneEach (cloneDeep fuel) l (<[fresh (dom h) := o0]> h) = Some (vs, h1) →
               (∀ x, x ∈ members o1 → x ∈ vs) →
               h ⊆ <[fresh (dom h) := o1]> h1
               ∧ isNew h (<[fresh (dom h) := o1]> h1) (Obj (fresh (dom h)))
               ∧ ∀ r r', h !! r = None → refersTo (<[fresh (dom h) := o1]> h1) r r' →
                         h !! r' = None).
    { intros o0 l vs h1 o1 Heach Hmem.
      destruct (cloneEach_new fuel IH _ _ _ _ Heach) as (Hsub & Hnew & Hcl).
      split; [by eapply insert_fresh_after|]. split.
      - intros r0 [= <-]. split; [apply fresh_None|]. unfold Heap in *.
        rewrite lookup_insert_eq. by eexists.
      - intros r0 r' Hr0 (o & Ho & Hin). unfold Heap in *.
        destruct (decide (r0 = fresh (dom h))) as [->|Hne].
        + rewrite lookup_insert_eq in Ho. injection Ho as <-.
          apply Hmem in Hin. rewrite Forall_forall in Hnew.
          destruct (Hnew _ Hin r' eq_refl) as [Hn _].
          apply (subseteq_None h (<[fresh (dom h) := o0]> h));
            [apply insert_fresh_subseteq | exact Hn].
        + rewrite lookup_insert_ne in Ho by done.
          apply (subseteq_None h (<[fresh (dom h) := o0]> h));
            [apply insert_fresh_subseteq|].
          apply (Hcl r0 r'); [by rewrite lookup_insert_ne | by exists o]. }
    destruct (h !! r) as [[arr|obj]|] eqn:E; [| |discriminate].
    + destruct (cloneEach (cloneDeep fuel) arr _) as [[vs h1]|] eqn:Heach; [|discriminate].
      intros [= <- <-]. by apply (G _ _ _ _ _ Heach).
    + destruct (cloneEach (cloneDeep fuel) (map snd obj) _) as [[vs h1]|] eqn:Heach;
        [|discriminate].
      intros [= <- <-]. apply (G _ _ _ _ _ Heach). intros x. apply elem_of_snd_combine.
Qed.

(** X29. What [cloneDeep] returns shares no object with the original: a
    primitive is returned as it is and nothing is created; an object that is
    returned is one that was not there before, and so is every object that
    an object created by the call refers to. *)
Theorem cloneDeep_shares_nothing (fuel : nat) (h : Heap) (v v' : Val) (h' : Heap) :
  cloneDeep fuel h v = Some (v', h') →
  (∀ p, v = Prim p → v' = v ∧ h' = h)
  ∧ (∀ r, v' = Obj r → (∃ r0, v = Obj r0) ∧ h !! r = None ∧ is_Some (h' !! r))
  ∧ (∀ r r', h !! r = None → refersTo h' r r' → h !! r' = None).
Proof.
  intros H. destruct (cloneDeep_new _ _ _ _ _ H) as (_ & Hnew & Hcl).
  split; [|split; [|exact Hcl]].
  - intros p ->. destruct fuel; [discriminate|]. simpl in H. by injection H as <- <-.
  - intros r ->. split; [|by apply Hnew].
    destruct v as [p|r0]; [|by eexists].
    destruct fuel; [discriminate|]. simpl in H. discriminate.
Qed.

Lemma cloneDeep_shares_nothing_witness :
  ∃ h', cloneDeep 3 CloneSamples.recordHeap (Obj 0%nat) = Some (Obj 2%nat, h')
        ∧ CloneSamples.recordHeap !! 2%nat = None.
Proof.
  assert (E : cloneDeep 3 CloneSamples.recordHeap (Obj 0%nat)
              = Some (Obj 2%nat,
                      default ∅ (snd <$> cloneDeep 3 CloneSamples.recordHeap (Obj 0%nat))))
    by (vm_compute; reflexivity).
  eexists. split; [exact E|].
  exact (proj1 (proj2 (proj1 (proj2 (cloneDeep_shares_nothing _ _ _ _ _ E))
                             2%nat eq_refl))).
Defined.

Lemma loops_step (h : Heap) (r : Ref) :
  loops h r → ∃ r1, refersTo h r r1 ∧ loops h r1.
Proof.
  intros (r0 & Hrtc & Hc). inversion Hrtc as [|? r1 ? Hstep Hrest]; subst.
  - inversion Hc as [? ? Hstep|? r1 ? Hstep Hrest]; subst.
    + exists r0. split; [exact Hstep|]. exists r0. split; [apply rtc_refl | exact Hc].
    + exists r1. split; [exact Hstep|]. exists r1. split; [apply rtc_refl|].
      eapply tc_r; [exact Hrest | exact Hstep].
  - exists r1. split; [exact Hstep|]. by exists r0.
Qed.

Lemma refersTo_tc_mono (h h' : Heap) (x y : Ref) :
  h ⊆ h' → tc (refersTo h) x y → tc (refersTo h') x y.
Proof.
  intros Hsub Hc. induction Hc as [x y Hxy|x y z Hxy _ IH].
  - apply tc_once. by apply (refersTo_mono h).
  - eapply tc_l; [|exact IH]. by apply (refersTo_mono h).
Qed.

Lemma loops_mono (h h' : Heap) (r : Ref) : h ⊆ h' → loops h r → loops h' r.
Proof.
  intros Hsub (r0 & Hrtc & Hc). exists r0. split.
  - eapply rtc_subrel; [|exact Hrtc]. intros x y. by apply refersTo_mono.
  - by apply (refersTo_tc_mono h).
Qed.

Lemma cloneEach_None (fuel : nat) (l : list Val) (h : Heap) (x : Val) :
  x ∈ l → (∀ h', h ⊆ h' → cloneDeep fuel h' x = None) →
  cloneEach (cloneDeep fuel) l h = None.
Proof.
  revert h. induction l as [|v l IH]; intros h Hin Hx; [by apply elem_of_nil in Hin|].
  cbn [cloneEach]. destruct (cloneDeep fuel h v) as [[v' h1]|] eqn:Ev; [|reflexivity].
  apply elem_of_cons in Hin as [->|Hin].
  - rewrite (Hx h) in Ev by reflexivity. discriminate.
  - rewrite IH; [reflexivity | exact Hin |].
    intros h' Hsub. apply Hx. etrans; [|exact Hsub].
    by destruct (cloneDeep_new _ _ _ _ _ Ev) as (? & _).
Qed.

(** X30. On data that holds a cycle of references, [cloneDeep] does not
    return, whatever the depth the recursion is given: there is no check
    for objects that were seen before. *)
Theorem cloneDeep_cycle_never_returns (h : Heap) (r : Ref) :
  loops h r → ∀ fuel, cloneDeep fuel h (Obj r) = None.
Proof.
  intros Hl fuel. revert h r Hl. induction fuel as [|fuel IH]; intros h r Hl; [reflexivity|].
  destruct (loops_step h r Hl) as (r1 & (o & Ho & Hin) & Hl1).
  simpl. unfold Heap in *. rewrite Ho.
  assert (G : ∀ o0, cloneEach (cloneDeep fuel) (members o) (<[fresh (dom h) := o0]> h) = None).
  { intros o0. apply (cloneEach_None fuel _ _ (Obj r1) Hin).
    intros h' Hsub. apply IH. apply (loops_mono h); [|exact Hl1].
    etrans; [apply insert_fresh_subseteq | exact Hsub]. }
  destruct o as [arr|obj]; simpl in G; by rewrite G.
Qed.

Lemma cloneDeep_cycle_never_returns_witness :
  cloneDeep 1000 CloneSamples.selfHeap (Obj 0%nat) = None.
Proof.
  apply (cloneDeep_cycle_never_returns CloneSamples.selfHeap 0%nat).
  exists 0%nat. split; [apply rtc_refl|]. apply tc_once.
  exists (Plain [("self", Obj 0%nat)]). split; [reflexivity|]. by left.
Defined.

End CloneDeepFacts.
